(** * Audio visualizer: the feature extractor and the vertex motion engine

  A shallow embedding of [src/utils/audioParse.js] (the audio feature
  extractor with its beat detector) and of the state transitions of
  [src/components/MikeDropViz.jsx] (the per-frame vertex update and the
  edge style), followed by the properties the specification states about
  them.

  JavaScript numbers are IEEE 754 binary64 values; they are modelled by
  Rocq's primitive [float], which is the same format with the same
  round-to-nearest-even operations, so that every definition below can be
  evaluated on concrete inputs and returns what the source returns.
  Timestamps are the exception: [Date.now()] yields an integral number of
  milliseconds far below 2^53, on which subtraction and comparison are
  exact, and they are kept in [Z]. *)

From Stdlib Require Import ZArith List Bool Lia Sorted Floats.
From Stdlib Require Uint63.
From Stdlib.Strings Require Import Byte.
Import ListNotations.

Set Warnings "-inexact-float".
Local Open Scope float_scope.

(** ** JavaScript numbers and the built-ins the sources use *)

Module JS.

Definition number := float.

(** An array index or an array length as a number (exact below 2^53). *)
Definition of_nat (n : nat) : number := of_uint63 (Uint63.of_Z (Z.of_nat n)).

(** An element of a [Uint8Array] read as a number. *)
Definition of_byte (b : byte) : number :=
  of_uint63 (Uint63.of_Z (Z.of_N (Byte.to_N b))).

(** [a > b]. *)
Definition gtb (a b : number) : bool := b <? a.

(** [Math.PI]. *)
Definition PI : number := 0x1.921fb54442d18p+1.

(** [Math.max(a, b)] and [Math.min(a, b)]: NaN if either is NaN, and
    [+0] is larger than [-0]. *)
Definition Math_max (a b : number) : number :=
  if is_nan a || is_nan b then nan
  else if a <? b then b
  else if b <? a then a
  else if get_sign a then b else a.

Definition Math_min (a b : number) : number :=
  if is_nan a || is_nan b then nan
  else if a <? b then a
  else if b <? a then b
  else if get_sign a then a else b.

(** The [%] operator (Number::remainder): the exact remainder of the
    truncating division, with the sign of the dividend. *)
Definition remainder (n d : number) : number :=
  match Prim2SF n, Prim2SF d with
  | S754_nan, _ | _, S754_nan => nan
  | S754_infinity _, _ => nan
  | _, S754_zero _ => nan
  | _, S754_infinity _ => n
  | S754_zero _, _ => n
  | S754_finite sn mn en, S754_finite _ md ed =>
      let ez := Z.min en ed in
      let r := Z.modulo (Zpos mn * 2 ^ (en - ez)) (Zpos md * 2 ^ (ed - ez)) in
      SF2Prim (binary_normalize prec emax (if sn then Z.opp r else r) ez sn)
  end.

(** [arr.reduce((sum, val) => sum + val, 0)]. *)
Definition sum (arr : list number) : number :=
  fold_left (fun sum val => sum + val) arr 0.

(** [arr.slice(start, stop)] for [0 <= start]; both ends are clamped to
    the length of the array. *)
Definition slice {A : Type} (arr : list A) (start stop : nat) : list A :=
  firstn (stop - start) (skipn start arr).

(** How a call completes: normally with a value, or by throwing. *)
Inductive error := InvalidInput | TypeError.

Inductive completion (A : Type) :=
| Normal (a : A)
| Throw (e : error).
Arguments Normal {A} a.
Arguments Throw {A} e.

(** The values that reach [Array.from] in this program: the component
    passes a [Uint8Array]; a caller of the exported function can also pass
    [undefined] or [null]. *)
Inductive argument :=
| Undefined
| Null
| Uint8Array (bytes : list byte).

(** [Array.from(items)]: a [TypeError] on [undefined] and on [null], and
    the array of the elements of a typed array. *)
Definition Array_from (items : argument) : completion (list byte) :=
  match items with
  | Undefined | Null => Throw TypeError
  | Uint8Array bytes => Normal bytes
  end.

End JS.

(** ** [src/utils/audioParse.js] *)

Module AudioParse.
Import JS.

Record peak := { index : nat; value : number }.

Record metrics := {
  amplitude : number;
  peaks : list peak;
  lowFreq : number;
  midFreq : number;
  highFreq : number;
  beatDetected : bool
}.

Record visualParams := {
  intensity : number;
  speed : number;
  colorIntensity : number;
  patternSize : number;
  complexity : number
}.

Record processed := {
  waveform : list number;
  metricsOf : metrics;
  visualParamsOf : visualParams
}.

(** The two module-level variables [lastBeatTime] and [beatHistory]. *)
Record detector := {
  lastBeatTime : Z;
  beatHistory : list number
}.

Definition initialDetector : detector :=
  {| lastBeatTime := 0; beatHistory := [] |}.

Definition findPeaks (data : list number) : list peak :=
  flat_map
    (fun i =>
       let d := fun k => nth k data nan in
       if gtb (d i) (d (i - 1)%nat) && gtb (d i) (d (i + 1)%nat) && gtb (d i) 0.5
       then [ {| index := i; value := d i |} ]
       else [])
    (seq 1 (length data - 2)).

Definition averageRange (data : list number) (start stop : nat) : number :=
  let range := slice data start (stop + 1) in
  sum range / of_nat (length range).

(** [beatHistory.push(currentEnergy); if (beatHistory.length > 8)
    beatHistory.shift();] *)
Definition pushEnergy (history : list number) (currentEnergy : number)
  : list number :=
  let pushed := history ++ [currentEnergy] in
  if (8 <? length pushed)%nat then tl pushed else pushed.

(** [detectBeat(data)], with the clock reading [now = Date.now()] and the
    module-level state passed in and out. *)
Definition detectBeat (data : list number) (now : Z) (st : detector)
  : bool * detector :=
  let minBeatInterval := 250%Z in
  let currentEnergy := averageRange data 0 10 in
  let history := pushEnergy (beatHistory st) currentEnergy in
  let averageEnergy := sum history / of_nat (length history) in
  if gtb currentEnergy (averageEnergy * 1.5)
     && (minBeatInterval <? now - lastBeatTime st)%Z
  then (true, {| lastBeatTime := now; beatHistory := history |})
  else (false, {| lastBeatTime := lastBeatTime st; beatHistory := history |}).

(** Successive calls of the detector, each with its data and its clock
    reading: the result and the state after each call. *)
Fixpoint runDetector (calls : list (list number * Z)) (st : detector)
  : list (bool * detector) :=
  match calls with
  | [] => []
  | (data, now) :: rest =>
      let r := detectBeat data now st in
      r :: runDetector rest (snd r)
  end.

(** [Math.pow] is left to the implementation by the language (it is only
    required to approximate the mathematical function): it is a parameter
    of the extractor. *)
Section WithMath.
Variable Math_pow : number -> number -> number.

Definition processAudioData (audioData : list byte) (now : Z) (st : detector)
  : processed * detector :=
  let normalizedData := map (fun val => of_byte val / 255) audioData in
  let beat := detectBeat normalizedData now st in
  let metrics := {|
    amplitude := sum normalizedData / of_nat (length normalizedData);
    peaks := findPeaks normalizedData;
    lowFreq := averageRange normalizedData 0 10;
    midFreq := averageRange normalizedData 11 100;
    highFreq := averageRange normalizedData 101 255;
    beatDetected := fst beat
  |} in
  ({| waveform := normalizedData;
      metricsOf := metrics;
      visualParamsOf := {|
        intensity := Math_pow (amplitude metrics * 2) 1.5;
        speed := if beatDetected metrics then 1.5 else 1.0;
        colorIntensity := highFreq metrics * 1.5;
        patternSize := 1 + lowFreq metrics * 0.5;
        complexity := 1 + midFreq metrics * 2
      |}
   |}, snd beat).

(** A call of [processAudioData] as the caller observes it.  Its first
    statement applies [Array.from] to the argument and throws when that
    does; the rest of the body has no [throw] and applies array and number
    operations to the elements, as [processAudioData] above. *)
Definition call_processAudioData (audioData : argument) (now : Z)
  (st : detector) : completion (processed * detector) :=
  match Array_from audioData with
  | Throw e => Throw e
  | Normal elements => Normal (processAudioData elements now st)
  end.

(** Successive calls of the extractor, each with its snapshot and its clock
    reading: the result and the detector state after each call. *)
Fixpoint runExtractor (calls : list (list byte * Z)) (st : detector)
  : list (processed * detector) :=
  match calls with
  | [] => []
  | (audioData, now) :: rest =>
      let r := processAudioData audioData now st in
      r :: runExtractor rest (snd r)
  end.

End WithMath.

End AudioParse.

(** ** [src/components/MikeDropViz.jsx] *)

Module MikeDropViz.
Import JS.

Record vertex := {
  x : number;
  y : number;
  vx : number;
  vy : number;
  phase : number;
  hue : number;
  amplitude : number;
  frequency : number
}.

Record animationState := {
  isPlaying : bool;
  frame : number
}.

Record parameters := {
  flowSpeed : number;
  colorSpeed : number;
  waveIntensity : number;
  patternSize : number
}.

Record audioModulation := {
  speedMod : number;
  intensityMod : number;
  sizeMod : number
}.

Definition initialAnimationState : animationState :=
  {| isPlaying := false; frame := 0 |}.

Definition initialParameters : parameters :=
  {| flowSpeed := 1; colorSpeed := 0.5; waveIntensity := 0.7; patternSize := 1 |}.

Definition neutralModulation : audioModulation :=
  {| speedMod := 1; intensityMod := 1; sizeMod := 1 |}.

(** [arr.map((elt, i) => f(elt, i))]. *)
Definition mapi {A B : Type} (f : A -> nat -> B) (arr : list A) : list B :=
  map (fun p => f (snd p) (fst p)) (combine (seq 0 (length arr)) arr).

Record edgeStyle := {
  strokeHue : number;      (* the hue interpolated into the [hsla] string *)
  strokeOpacity : number;  (* the alpha interpolated into the [hsla] string *)
  strokeWidth : number
}.

(** [processAudio]: the modulation derived from one processed snapshot. *)
Definition processAudio (processedData : AudioParse.processed) : audioModulation :=
  let vp := AudioParse.visualParamsOf processedData in
  {| speedMod := 1 + (AudioParse.speed vp - 1) * 0.3;
     intensityMod := 1 + (AudioParse.intensity vp - 1) * 0.5;
     sizeMod := 1 + (AudioParse.patternSize vp - 1) * 0.3 |}.

(** [Math.sin], [Math.cos] and [Math.hypot] are left to the implementation
    by the language (they are only required to approximate the
    mathematical functions): they are parameters of the engine. *)
Section WithMath.
Variables Math_sin Math_cos : number -> number.
Variable Math_hypot : number -> number -> number.

(** The initial vertices; [random k] is the value of the [k]-th call of
    [Math.random()], five calls per vertex in the order of the fields. *)
Definition initialVertices (random : nat -> number) : list vertex :=
  map (fun i =>
         {| x := 400 + Math_cos (of_nat i * PI / 12) * 200;
            y := 300 + Math_sin (of_nat i * PI / 12) * 200;
            vx := (random (5 * i)%nat - 0.5) * 2;
            vy := (random (5 * i + 1)%nat - 0.5) * 2;
            phase := random (5 * i + 2)%nat * PI * 2;
            hue := of_nat i * 15;
            amplitude := 1 + random (5 * i + 3)%nat;
            frequency := 0.5 + random (5 * i + 4)%nat * 0.5 |})
      (seq 0 24).

Section Tick.
Variable st : animationState.
Variable p : parameters.
Variable a : audioModulation.

Definition effectiveSpeed : number := flowSpeed p * speedMod a.
Definition effectiveIntensity : number := waveIntensity p * intensityMod a.
Definition effectiveSize : number := patternSize p * sizeMod a.

Definition time : number := frame st * 0.02 * effectiveSpeed.
Definition waveTime : number := frame st * 0.01.

Definition centerX (i : nat) : number :=
  400 + Math_cos (time * 0.2 + of_nat i * PI / 12) * (200 * effectiveSize).
Definition centerY (i : nat) : number :=
  300 + Math_sin (time * 0.2 + of_nat i * PI / 12) * (200 * effectiveSize).

Definition flowX (v : vertex) : number :=
  Math_sin (time * frequency v + phase v) * 100 * amplitude v.
Definition flowY (v : vertex) : number :=
  Math_cos (time * 1.3 * frequency v + phase v) * 100 * amplitude v.

Definition waveX (v : vertex) : number :=
  if isPlaying st
  then Math_sin (waveTime + y v * 0.02) * 50 * effectiveIntensity
  else 0.
Definition waveY (v : vertex) : number :=
  if isPlaying st
  then Math_cos (waveTime + x v * 0.02) * 50 * effectiveIntensity
  else 0.

(** The callback of [prev.map]: it returns [{ ...vertex, x, y, phase, hue }]. *)
Definition updateVertex (v : vertex) (i : nat) : vertex :=
  {| x := centerX i + flowX v + waveX v;
     y := centerY i + flowY v + waveY v;
     vx := vx v;
     vy := vy v;
     phase := phase v + 0.02 * effectiveSpeed;
     hue := remainder (hue v + colorSpeed p) 360;
     amplitude := amplitude v;
     frequency := frequency v |}.

Definition updateVertices (prev : list vertex) : list vertex :=
  mapi updateVertex prev.

Definition nextAnimationState : animationState :=
  {| isPlaying := isPlaying st; frame := frame st + 1 |}.

End Tick.

(** The inputs of one motion tick: the animation state, the slider values
    and the audio modulation current at that tick. *)
Definition tickInput : Type := animationState * parameters * audioModulation.

Definition runTicks (inputs : list tickInput) (vertices : list vertex)
  : list vertex :=
  fold_left
    (fun vs '(st, p, a) => updateVertices st p a vs)
    inputs vertices.

Definition edgeOpacity (dist : number) : number :=
  Math_max 0 (Math_min 1 (1 - dist / 300)).

Definition getEdgeStyle (v1 v2 : vertex) : option edgeStyle :=
  let dist := Math_hypot (x v1 - x v2) (y v1 - y v2) in
  let opacity := edgeOpacity dist in
  if gtb opacity 0.1
  then Some {| strokeHue := (hue v1 + hue v2) / 2;
               strokeOpacity := opacity;
               strokeWidth := Math_max 1 (4 * opacity) |}
  else None.

(** The edge render loop: the [<line>] elements produced, each with the
    pair of indices of its key. *)
Definition renderEdges (vertices : list vertex) : list (nat * nat * edgeStyle) :=
  concat
    (mapi
       (fun v1 i =>
          concat
            (mapi
               (fun v2 j =>
                  if (i <? j)%nat
                  then match getEdgeStyle v1 v2 with
                       | Some edgeStyle => [ (i, j, edgeStyle) ]
                       | None => []
                       end
                  else [])
               vertices))
       vertices).

End WithMath.

(** *** The component: its state and its handlers

    The state of a mounted component: the four [useState] values of the
    animation, the two refs and the two [useState] values of the audio
    input, the calls of [setupAudio] that still await the microphone, and
    the module-level state of [audioParse.js] that the calls of
    [processAudioData] read and write; that state outlives the component,
    so a mount finds it as the mounts before it left it.  What happens to
    the component is
    handled one event at a time; a handler is the one of the latest render,
    so it reads the state that the previous event left, and it takes that
    state to the state it leaves. *)

(** An [AnalyserNode]; [createAnalyser()] returns one with the FFT size
    2048. *)
Record analyser := { fftSize : nat }.

Definition createAnalyser : analyser := {| fftSize := 2048 |}.

(** [analyser.frequencyBinCount]: half of the FFT size. *)
Definition frequencyBinCount (a : analyser) : nat := fftSize a / 2.

Inductive audioContext := NewAudioContext.

Record component := {
  vertices : list vertex;
  animation : animationState;              (* [animationState] *)
  params : parameters;                     (* [parameters] *)
  modulation : audioModulation;            (* [audioModulation] *)
  audioContextRef : option audioContext;   (* [audioContextRef.current] *)
  analyzerRef : option analyser;           (* [analyzerRef.current] *)
  isListening : bool;
  audioMetrics : option AudioParse.processed;
  pendingSetups : nat;                     (* calls of [setupAudio] at their [await] *)
  detectorState : AudioParse.detector      (* [lastBeatTime], [beatHistory] *)
}.

(** The statement of the [try] block of [setupAudio] that throws, if one
    does; the [catch] logs the error and leaves what has been assigned. *)
Inductive setupFailure :=
| GetUserMedia
| CreateAudioContext
| CreateAnalyser
| CreateMediaStreamSource
| Connect.

(** [setupAudio] from the point where [getUserMedia] settles: the rest of
    its body runs without interruption on the state of that moment. *)
Definition setupAudio (failure : option setupFailure) (c : component)
  : component :=
  match failure with
  | Some GetUserMedia | Some CreateAudioContext =>
      {| vertices := vertices c; animation := animation c; params := params c;
         modulation := modulation c;
         audioContextRef := audioContextRef c;
         analyzerRef := analyzerRef c;
         isListening := isListening c; audioMetrics := audioMetrics c;
         pendingSetups := pendingSetups c - 1;
         detectorState := detectorState c |}
  | Some CreateAnalyser =>
      {| vertices := vertices c; animation := animation c; params := params c;
         modulation := modulation c;
         audioContextRef := Some NewAudioContext;
         analyzerRef := analyzerRef c;
         isListening := isListening c; audioMetrics := audioMetrics c;
         pendingSetups := pendingSetups c - 1;
         detectorState := detectorState c |}
  | Some CreateMediaStreamSource | Some Connect =>
      {| vertices := vertices c; animation := animation c; params := params c;
         modulation := modulation c;
         audioContextRef := Some NewAudioContext;
         analyzerRef := Some createAnalyser;
         isListening := isListening c; audioMetrics := audioMetrics c;
         pendingSetups := pendingSetups c - 1;
         detectorState := detectorState c |}
  | None =>
      {| vertices := vertices c; animation := animation c; params := params c;
         modulation := modulation c;
         audioContextRef := Some NewAudioContext;
         analyzerRef := Some {| fftSize := 512 |};
         isListening := true; audioMetrics := audioMetrics c;
         pendingSetups := pendingSetups c - 1;
         detectorState := detectorState c |}
  end.

(** The click handler of the audio button.  When the component is not
    listening it calls [setupAudio], which changes nothing before
    [getUserMedia] settles; when it is listening it closes the audio
    context and resets the modulation. *)
Definition toggleAudio (c : component) : component :=
  if negb (isListening c)
  then
    {| vertices := vertices c; animation := animation c; params := params c;
       modulation := modulation c;
       audioContextRef := audioContextRef c;
       analyzerRef := analyzerRef c;
       isListening := isListening c; audioMetrics := audioMetrics c;
       pendingSetups := S (pendingSetups c);
       detectorState := detectorState c |}
  else
    {| vertices := vertices c; animation := animation c; params := params c;
       modulation := neutralModulation;
       audioContextRef := None;
       analyzerRef := analyzerRef c;
       isListening := false; audioMetrics := audioMetrics c;
       pendingSetups := pendingSetups c;
       detectorState := detectorState c |}.

(** The click handler of the effect button. *)
Definition togglePlaying (c : component) : component :=
  {| vertices := vertices c;
     animation := {| isPlaying := negb (isPlaying (animation c));
                     frame := frame (animation c) |};
     params := params c; modulation := modulation c;
     audioContextRef := audioContextRef c; analyzerRef := analyzerRef c;
     isListening := isListening c; audioMetrics := audioMetrics c;
     pendingSetups := pendingSetups c;
     detectorState := detectorState c |}.

(** The four sliders; [value] is [parseFloat(e.target.value)]. *)
Inductive slider := FlowSpeed | ColorSpeed | WaveIntensity | PatternSize.

Definition setParameter (s : slider) (value : number) (prev : parameters)
  : parameters :=
  match s with
  | FlowSpeed =>
      {| flowSpeed := value; colorSpeed := colorSpeed prev;
         waveIntensity := waveIntensity prev; patternSize := patternSize prev |}
  | ColorSpeed =>
      {| flowSpeed := flowSpeed prev; colorSpeed := value;
         waveIntensity := waveIntensity prev; patternSize := patternSize prev |}
  | WaveIntensity =>
      {| flowSpeed := flowSpeed prev; colorSpeed := colorSpeed prev;
         waveIntensity := value; patternSize := patternSize prev |}
  | PatternSize =>
      {| flowSpeed := flowSpeed prev; colorSpeed := colorSpeed prev;
         waveIntensity := waveIntensity prev; patternSize := value |}
  end.

Definition onSliderChange (s : slider) (value : number) (c : component)
  : component :=
  {| vertices := vertices c; animation := animation c;
     params := setParameter s value (params c);
     modulation := modulation c;
     audioContextRef := audioContextRef c; analyzerRef := analyzerRef c;
     isListening := isListening c; audioMetrics := audioMetrics c;
     pendingSetups := pendingSetups c;
     detectorState := detectorState c |}.

Section Component.
Variables Math_sin Math_cos : number -> number.
Variable Math_pow : number -> number -> number.

(** The component at its mount; [st] is the state of the beat detector at
    that moment. *)
Definition initialComponent (random : nat -> number) (st : AudioParse.detector)
  : component :=
  {| vertices := initialVertices Math_sin Math_cos random;
     animation := initialAnimationState;
     params := initialParameters;
     modulation := neutralModulation;
     audioContextRef := None;
     analyzerRef := None;
     isListening := false;
     audioMetrics := None;
     pendingSetups := 0;
     detectorState := st |}.

(** One run of the [processAudio] callback; [spectrum k] is the byte that
    [getByteFrequencyData] writes at the index [k] of the array, and [now]
    the clock reading of the call of [detectBeat]. *)
Definition processAudioCallback (spectrum : nat -> byte) (now : Z)
  (c : component) : component :=
  match analyzerRef c with
  | None => c
  | Some analyzer =>
      if negb (isListening c) then c
      else
        let dataArray := map spectrum (seq 0 (frequencyBinCount analyzer)) in
        let r := AudioParse.processAudioData Math_pow dataArray now
                   (detectorState c) in
        {| vertices := vertices c; animation := animation c; params := params c;
           modulation := processAudio (fst r);
           audioContextRef := audioContextRef c; analyzerRef := analyzerRef c;
           isListening := isListening c;
           audioMetrics := Some (fst r);
           pendingSetups := pendingSetups c;
           detectorState := snd r |}
  end.

(** One run of the [updateVertices] callback of the animation loop. *)
Definition animationFrame (c : component) : component :=
  {| vertices := updateVertices Math_sin Math_cos (animation c) (params c)
                   (modulation c) (vertices c);
     animation := nextAnimationState (animation c);
     params := params c; modulation := modulation c;
     audioContextRef := audioContextRef c; analyzerRef := analyzerRef c;
     isListening := isListening c; audioMetrics := audioMetrics c;
     pendingSetups := pendingSetups c;
     detectorState := detectorState c |}.

(** What happens to a mounted component: a frame of the animation loop, a
    frame of the audio loop, a click on one of the two buttons, the
    settling of [getUserMedia] in a call of [setupAudio] that awaits it
    (when there is none, nothing happens), or a move of a slider. *)
Inductive event :=
| AnimationFrame
| AudioFrame (spectrum : nat -> byte) (now : Z)
| ClickEffect
| ClickAudio
| SetupSettles (failure : option setupFailure)
| Slide (s : slider) (value : number).

Definition handle (c : component) (e : event) : component :=
  match e with
  | AnimationFrame => animationFrame c
  | AudioFrame spectrum now => processAudioCallback spectrum now c
  | ClickEffect => togglePlaying c
  | ClickAudio => toggleAudio c
  | SetupSettles failure =>
      match pendingSetups c with
      | O => c
      | S _ => setupAudio failure c
      end
  | Slide s value => onSliderChange s value c
  end.

Definition run (events : list event) (c : component) : component :=
  fold_left handle events c.

End Component.

End MikeDropViz.

(** ** A [Math] library to run the model on examples

    Stand-ins for the implementation's [Math.sin], [Math.cos], [Math.hypot]
    and [Math.pow], used only where a statement is evaluated on a concrete
    input; every theorem about the engine holds whatever these functions
    are. *)

Module ExampleMath.
Import JS.

(** [1 - r2/d1 * (1 - r2/d2 * (1 - ...))]: the alternating series of the
    sine and of the cosine in Horner form. *)
Definition alternating (r2 : number) (denominators : list number) : number :=
  fold_right (fun d acc => 1 - r2 / d * acc) 1 denominators.

Definition Math_sin (t : number) : number :=
  let r := remainder t (2 * PI) in
  r * alternating (r * r) [6; 20; 42; 72; 110; 156; 210; 272; 342; 420; 506; 600].

Definition Math_cos (t : number) : number :=
  let r := remainder t (2 * PI) in
  alternating (r * r) [2; 12; 30; 56; 90; 132; 182; 240; 306; 380; 462; 552].

Definition Math_hypot (dx dy : number) : number := sqrt (dx * dx + dy * dy).

(** The extractor calls [Math.pow] with the exponent 1.5 only. *)
Definition Math_pow (base exponent : number) : number := base * sqrt base.

End ExampleMath.

(** ** Binary64 numbers as integers

    A finite binary64 number is a multiple of [2 ^ -1074].  The definitions
    below describe the numbers, their order and the rounding of the
    primitive operations (as [SpecFloat] specifies them) by integers; they
    serve to state the facts about the arithmetic that the properties of
    the program rest on. *)

Module Binary64.
Local Open Scope Z_scope.

(** The location of the remainder [R] of a division by [B], relative to
    half of [B]. *)
Definition locZ (R B : Z) : location :=
  if R =? 0 then loc_Exact else loc_Inexact (2 * R ?= B).

(** The shift record [rec] holds the quotient [A / B] and the location of
    the remainder. *)
Definition enc (rec : shr_record) (A B : Z) : Prop :=
  shr_m rec = A / B /\ loc_of_shr_record rec = locZ (A mod B) B.

(** What [binary_round_aux] returns once the mantissa has been rounded to
    [m2] at the exponent [t]: the mantissa [2 ^ 53] moves to the next
    exponent, and exponents above 971 overflow. *)
Definition SF_of_rounded (sx : bool) (m2 t : Z) : spec_float :=
  if m2 =? 0 then S754_zero sx
  else if m2 <? 2 ^ 53
       then (if t <=? 971 then S754_finite sx (Z.to_pos m2) t else S754_infinity sx)
       else (if t + 1 <=? 971 then S754_finite sx (Z.to_pos (2 ^ 52)) (t + 1)
             else S754_infinity sx).

(** The mantissa [m] and the exponent [e] of a point of the grid of
    binary64 numbers: at most 53 bits, and exactly 53 above the least
    exponent. *)
Definition gridpt (m e : Z) : Prop :=
  0 <= m <= 2 ^ 53 /\ -1074 <= e /\ (e = -1074 \/ 2 ^ 52 <= m).

(** The value [m * 2 ^ e] in units of [2 ^ -1074]. *)
Definition gval (m e : Z) : Z := m * 2 ^ (e + 1074).

(** A rounding situation: the value [A * 2 ^ (t + 1074) / P] (in units of
    [2 ^ -1074]) has been rounded to the mantissa [m2] at the exponent [t],
    at most half a unit of [t] away. *)
Definition rounds (A P m2 t : Z) : Prop :=
  0 <= A /\ 0 < P /\ gridpt m2 t
  /\ (2 * m2 - 1) * P <= 2 * A <= (2 * m2 + 1) * P
  /\ (t = -1074 \/ 2 ^ 52 * P <= A).

(** The order of the numbers as an order of integers: the value in units
    of [2 ^ -1074], with the infinities at [2 ^ 2098] (NaN, which is not
    ordered, is given 0). *)
Definition ord (x : spec_float) : Z :=
  match x with
  | S754_zero _ => 0
  | S754_nan => 0
  | S754_infinity s => if s then - 2 ^ 2098 else 2 ^ 2098
  | S754_finite s m e => if s then - gval (Zpos m) e else gval (Zpos m) e
  end.

(** The finite numbers: the zeros and the numbers with a mantissa. *)
Definition fin (x : spec_float) : Prop :=
  match x with
  | S754_zero _ | S754_finite _ _ _ => True
  | _ => False
  end.

(** [r] is a result of rounding the value [N / Q] (in units of
    [2 ^ -1074]) to a binary64 number: a zero when the value is 0, and
    otherwise the outcome of a rounding situation for its absolute value,
    with its sign. *)
Definition approx (N Q : Z) (r : spec_float) : Prop :=
  (N = 0 /\ exists s, r = S754_zero s)
  \/ (N <> 0
      /\ exists A P m2 t,
           rounds A P m2 t
           /\ A * 2 ^ (t + 1074) * Q = Z.abs N * P
           /\ r = SF_of_rounded (N <? 0) m2 t).

(** The value of a primitive number in units of [2 ^ -1074] (see [ord]
    for the infinities and NaN). *)
Definition val (x : float) : Z := ord (Prim2SF x).

Definition finite (x : float) : Prop := fin (Prim2SF x).

(** [a <= x <= b], as the comparisons of the language decide it: [x] lies
    between [a] and [b], and none of the three is NaN. *)
Definition between (a b x : float) : Prop :=
  (a <=? x)%float = true /\ (x <=? b)%float = true.

(** [x < 0] is false: [x] is zero, positive or NaN. *)
Definition not_below_zero (x : float) : Prop := (x <? 0)%float = false.

End Binary64.

(** * Facts about binary64 arithmetic *)

Module Binary64Facts.
Import Binary64.
Local Open Scope Z_scope.

Lemma digits2_pos_bounds : forall p : positive,
  2 ^ (Zpos (digits2_pos p) - 1) <= Zpos p < 2 ^ Zpos (digits2_pos p).
Proof.
  induction p as [p IH | p IH |]; cbn [digits2_pos].
  - rewrite Pos2Z.inj_succ.
    replace (Z.succ (Zpos (digits2_pos p)) - 1) with (Z.succ (Zpos (digits2_pos p) - 1)) by lia.
    rewrite !Z.pow_succ_r by lia. lia.
  - rewrite Pos2Z.inj_succ.
    replace (Z.succ (Zpos (digits2_pos p)) - 1) with (Z.succ (Zpos (digits2_pos p) - 1)) by lia.
    rewrite !Z.pow_succ_r by lia. lia.
  - cbn. lia.
Qed.

Lemma Zdigits2_bounds : forall q : Z, 0 <= q ->
  2 ^ (Zdigits2 q - 1) <= q < 2 ^ Zdigits2 q.
Proof.
  intros [| p | p] Hq; [cbn; lia | apply digits2_pos_bounds | lia].
Qed.

Lemma Zdigits2_nonneg : forall q, 0 <= Zdigits2 q.
Proof. intros [| p | p]; cbn; lia. Qed.

Lemma loc_cases : forall m r s R B, 0 < B ->
  loc_of_shr_record (Build_shr_record m r s) = locZ R B <->
  (r = false /\ s = false /\ R = 0)
  \/ (r = false /\ s = true /\ R <> 0 /\ 2 * R < B)
  \/ (r = true /\ s = false /\ R <> 0 /\ 2 * R = B)
  \/ (r = true /\ s = true /\ R <> 0 /\ 2 * R > B).
Proof.
  intros m r s R B HB. unfold locZ.
  destruct (Z.eqb_spec R 0) as [HR0 | HR];
    destruct (Z.compare_spec (2 * R) B) as [Hc | Hc | Hc];
    destruct r, s; cbn [loc_of_shr_record]; split;
    try discriminate; try (intros _; lia); try (intros _; reflexivity);
    intros Hcases; exfalso; lia.
Qed.

Lemma shr_1_spec : forall m r s, 0 <= m ->
  shr_1 (Build_shr_record m r s) = Build_shr_record (m / 2) (Z.odd m) (r || s).
Proof.
  intros m r s Hm. rewrite <- Z.div2_div.
  destruct m as [| [p | p |] | p]; try lia; reflexivity.
Qed.

Lemma shr_1_enc : forall rec A B, 0 <= A -> 0 < B ->
  enc rec A B -> enc (shr_1 rec) A (2 * B).
Proof.
  intros [m r s] A B HA HB [Hm Hloc]. cbn [shr_m] in Hm.
  assert (Hdiv : A / (2 * B) = m / 2)
    by (rewrite Hm, Z.mul_comm, Z.div_div by lia; reflexivity).
  assert (Hmod : A mod (2 * B) = A mod B + B * (m mod 2))
    by (rewrite Hm, Z.mul_comm, Z.rem_mul_r by lia; reflexivity).
  pose proof (Z.mod_pos_bound A B HB) as HR.
  assert (Hm0 : 0 <= m) by (rewrite Hm; apply Z.div_pos; lia).
  unfold enc. rewrite shr_1_spec by exact Hm0. cbn [shr_m].
  split; [symmetry; exact Hdiv |].
  apply loc_cases in Hloc; [| exact HB]. apply loc_cases; [lia |].
  rewrite Hmod. rewrite Zmod_odd.
  destruct (Z.odd m), r, s; cbn [orb]; lia.
Qed.

Lemma iter_shr_1_enc : forall (p : positive) rec A B, 0 <= A -> 0 < B ->
  enc rec A B -> enc (iter_pos shr_1 p rec) A (B * 2 ^ Zpos p).
Proof.
  induction p as [p IH | p IH |]; intros rec A B HA HB Henc; cbn [iter_pos].
  - assert (Hpow : 2 ^ Zpos p~1 = 2 * (2 ^ Zpos p * 2 ^ Zpos p)).
    { replace (Zpos p~1) with (Z.succ (Zpos p + Zpos p)) by lia.
      rewrite Z.pow_succ_r, Z.pow_add_r by lia. reflexivity. }
    assert (Hp : 0 < 2 ^ Zpos p) by (apply Z.pow_pos_nonneg; lia).
    replace (B * 2 ^ Zpos p~1) with (2 * B * 2 ^ Zpos p * 2 ^ Zpos p) by (rewrite Hpow; ring).
    apply IH; [lia | nia |]. apply IH; [lia | lia |]. apply shr_1_enc; assumption.
  - assert (Hpow : 2 ^ Zpos p~0 = 2 ^ Zpos p * 2 ^ Zpos p).
    { replace (Zpos p~0) with (Zpos p + Zpos p) by lia.
      rewrite Z.pow_add_r by lia. reflexivity. }
    assert (Hp : 0 < 2 ^ Zpos p) by (apply Z.pow_pos_nonneg; lia).
    replace (B * 2 ^ Zpos p~0) with (B * 2 ^ Zpos p * 2 ^ Zpos p) by (rewrite Hpow; ring).
    apply IH; [lia | nia |]. apply IH; assumption.
  - rewrite Z.pow_1_r, Z.mul_comm. apply shr_1_enc; assumption.
Qed.

Lemma shr_enc : forall rec e n A B, 0 <= A -> 0 < B -> enc rec A B ->
  enc (fst (shr rec e n)) A (B * 2 ^ Z.max n 0)
  /\ snd (shr rec e n) = e + Z.max n 0.
Proof.
  intros rec e n A B HA HB Henc. destruct n as [| p | p]; cbn [shr fst snd].
  - change (Z.max 0 0) with 0. rewrite Z.pow_0_r, Z.mul_1_r, Z.add_0_r. auto.
  - rewrite Z.max_l by lia. split; [apply iter_shr_1_enc; assumption | reflexivity].
  - rewrite Z.max_r by lia. rewrite Z.pow_0_r, Z.mul_1_r, Z.add_0_r. auto.
Qed.

Lemma enc_of_loc : forall A B, 0 < B ->
  enc (shr_record_of_loc (A / B) (locZ (A mod B) B)) A B.
Proof.
  intros A B HB. unfold enc, locZ.
  destruct (A mod B =? 0); [split; reflexivity |].
  destruct (2 * (A mod B) ?= B); split; reflexivity.
Qed.

(** Rounding to nearest: at most half a unit away from [A / B]. *)
Lemma round_nearest_even_enc : forall rec A B, 0 <= A -> 0 < B -> enc rec A B ->
  let m2 := round_nearest_even (shr_m rec) (loc_of_shr_record rec) in
  (2 * m2 - 1) * B <= 2 * A <= (2 * m2 + 1) * B
  /\ A / B <= m2 <= A / B + 1.
Proof.
  intros [m r s] A B HA HB [Hm Hloc]. cbn [shr_m] in *.
  pose proof (Z.mod_pos_bound A B HB) as HR.
  pose proof (Z.div_mod A B ltac:(lia)) as HAB.
  apply loc_cases in Hloc; [| exact HB]. rewrite <- Hm in *.
  cbv zeta.
  destruct Hloc as [(-> & -> & H0) | [(-> & -> & H0 & H1) | [(-> & -> & H0 & H1) | (-> & -> & H0 & H1)]]];
    cbn [loc_of_shr_record round_nearest_even]; try destruct (Z.even m); nia.
Qed.

Lemma fexp_eq : forall e, fexp prec emax e = Z.max (e - 53) (-1074).
Proof. reflexivity. Qed.

Lemma Zdigits2_le : forall q k, 0 <= q -> 0 <= k -> q < 2 ^ k -> Zdigits2 q <= k.
Proof.
  intros q k Hq Hk Hlt. pose proof (Zdigits2_bounds q Hq) as [Hlo _].
  pose proof (Zdigits2_nonneg q).
  destruct (Z.le_gt_cases (Zdigits2 q) k) as [Hle | Hgt]; [exact Hle |].
  assert (2 ^ k <= 2 ^ (Zdigits2 q - 1)) by (apply Z.pow_le_mono_r; lia). lia.
Qed.

Lemma Zdigits2_ge : forall q k, 0 <= k -> 2 ^ k <= q -> k + 1 <= Zdigits2 q.
Proof.
  intros q k Hk Hle. assert (Hq : 0 <= q) by (pose proof (Z.pow_pos_nonneg 2 k); lia).
  pose proof (Zdigits2_bounds q Hq) as [_ Hhi]. pose proof (Zdigits2_nonneg q).
  destruct (Z.le_gt_cases (k + 1) (Zdigits2 q)) as [Hok | Hgt]; [exact Hok |].
  assert (2 ^ Zdigits2 q <= 2 ^ k) by (apply Z.pow_le_mono_r; lia). lia.
Qed.

Lemma binary_round_aux_spec : forall sx A B E, 0 <= A -> 0 < B ->
  let q := A / B in
  let t := fexp prec emax (Zdigits2 q + E) in
  E <= t ->
  exists m2,
    let P := B * 2 ^ (t - E) in
    (2 * m2 - 1) * P <= 2 * A <= (2 * m2 + 1) * P
    /\ 0 <= m2 <= 2 ^ 53
    /\ (t = -1074 \/ (2 ^ 52 <= m2 /\ 2 ^ 52 * P <= A))
    /\ binary_round_aux prec emax sx q E (locZ (A mod B) B) = SF_of_rounded sx m2 t.
Proof.
  intros sx A B E HA HB q t Ht.
  pose proof (enc_of_loc A B HB) as Henc0. fold q in Henc0.
  destruct (shr_enc _ E (t - E) A B HA HB Henc0) as [Henc1 He1].
  rewrite Z.max_l in Henc1, He1 by lia.
  set (P := B * 2 ^ (t - E)) in *.
  assert (H2n : 0 < 2 ^ (t - E)) by (apply Z.pow_pos_nonneg; lia).
  assert (HP : 0 < P) by (subst P; nia).
  unfold binary_round_aux, shr_fexp at 1. fold t.
  destruct (shr (shr_record_of_loc q (locZ (A mod B) B)) E (t - E)) as [rec1 e1] eqn:Hshr.
  cbn [fst snd] in Henc1, He1. replace (E + (t - E)) with t in He1 by lia. subst e1.
  destruct (round_nearest_even_enc rec1 A P HA HP Henc1) as [Hnear Hm2].
  set (m2 := round_nearest_even (shr_m rec1) (loc_of_shr_record rec1)) in *.
  exists m2. cbv zeta. fold P.
  (* size of the truncated mantissa *)
  assert (Hq0 : 0 <= q) by (apply Z.div_pos; lia).
  pose proof (Zdigits2_bounds q Hq0) as [Hqlo Hqhi]. pose proof (Zdigits2_nonneg q) as Hd0.
  assert (Hm1 : A / P = q / 2 ^ (t - E)) by (subst P q; rewrite Z.div_div by lia; reflexivity).
  assert (Hm1hi : A / P < 2 ^ 53).
  { rewrite Hm1. apply Z.div_lt_upper_bound; [lia |].
    rewrite <- Z.pow_add_r by lia.
    assert (2 ^ Zdigits2 q <= 2 ^ (t - E + 53)); [| lia].
    apply Z.pow_le_mono_r; [lia |]. subst t. rewrite fexp_eq in *. lia. }
  assert (Hm1lo : 0 <= A / P) by (apply Z.div_pos; lia).
  assert (Hnorm : t = -1074 \/ (2 ^ 52 <= m2 /\ 2 ^ 52 * P <= A)).
  { destruct (Z.eq_dec t (-1074)) as [Heq | Hne]; [left; exact Heq | right].
    assert (Hd : Zdigits2 q + E - 53 = t) by (subst t; rewrite fexp_eq in *; lia).
    assert (Hlo : 2 ^ 52 * 2 ^ (t - E) <= q).
    { rewrite <- Z.pow_add_r by lia. replace (52 + (t - E)) with (Zdigits2 q - 1) by lia.
      exact Hqlo. }
    assert (HAq : B * q <= A) by (subst q; apply Z.mul_div_le; lia).
    assert (2 ^ 52 * P <= A) by (subst P; nia).
    split; [| assumption].
    assert (2 ^ 52 <= A / P) by (apply Z.div_le_lower_bound; lia). lia. }
  split; [exact Hnear |]. split; [lia |]. split; [exact Hnorm |].
  (* the second normalisation *)
  unfold SF_of_rounded, shr_fexp.
  destruct (Z.eqb_spec m2 0) as [Hz | Hnz].
  - rewrite Hz. cbn [Zdigits2 shr_record_of_loc]. rewrite Z.add_0_l, fexp_eq.
    assert (Hn2 : Z.max (t - 53) (-1074) - t <= 0) by (subst t; rewrite fexp_eq; lia).
    destruct (Z.max (t - 53) (-1074) - t) as [| p | p]; try lia; reflexivity.
  - destruct (Z.ltb_spec m2 (2 ^ 53)) as [Hlt | Hge].
    + assert (Hd2 : Zdigits2 m2 <= 53) by (apply Zdigits2_le; lia).
      rewrite fexp_eq.
      assert (Hn2 : Z.max (Zdigits2 m2 + t - 53) (-1074) - t <= 0)
        by (subst t; rewrite fexp_eq; lia).
      cbn [shr_record_of_loc].
      destruct (Z.max (Zdigits2 m2 + t - 53) (-1074) - t) as [| p | p]; try lia;
        cbn [shr shr_m]; destruct m2 as [| p2 | p2]; try lia; reflexivity.
    + assert (Heq : m2 = 2 ^ 53) by lia. rewrite Heq.
      change (Zdigits2 (2 ^ 53)) with 54. rewrite fexp_eq.
      replace (Z.max (54 + t - 53) (-1074) - t) with 1
        by (subst t; rewrite fexp_eq; lia).
      cbn [shr_record_of_loc shr iter_pos]. change (shr_m (shr_1 _)) with (2 ^ 52).
      change (2 ^ 52) with (Zpos (Z.to_pos (2 ^ 52))) at 1.
      cbv iota beta. reflexivity.
Qed.

(** ** Values on the grid of binary64 numbers, in units of [2 ^ -1074] *)

Lemma pow2_add : forall a b, 0 <= a -> 0 <= b -> 2 ^ a * 2 ^ b = 2 ^ (a + b).
Proof. intros a b Ha Hb. rewrite Z.pow_add_r by lia. reflexivity. Qed.

Lemma pow2_gt0 : forall a, 0 <= a -> 0 < 2 ^ a.
Proof. intros a Ha. apply Z.pow_pos_nonneg; lia. Qed.

(** Linear arithmetic with the large powers of two kept abstract: [lia]
    and [nia] would expand [2 ^ 1074] and the like into their digits. *)
Ltac hide_pows :=
  repeat match goal with
  | |- context [Z.pow 2 (Zpos ?e)] =>
      match eval vm_compute in (Pos.leb 100 e) with true => idtac end;
      let p := fresh "p" in
      pose proof (pow2_gt0 (Zpos e) ltac:(discriminate));
      set (p := Z.pow 2 (Zpos e)) in *; clearbody p
  | H : context [Z.pow 2 (Zpos ?e)] |- _ =>
      match eval vm_compute in (Pos.leb 100 e) with true => idtac end;
      let p := fresh "p" in
      pose proof (pow2_gt0 (Zpos e) ltac:(discriminate));
      set (p := Z.pow 2 (Zpos e)) in *; clearbody p
  end.
Ltac zlia := hide_pows; lia.
Ltac znia := hide_pows; nia.

Lemma pow2_split : forall a b, 0 <= b <= a -> 2 ^ a = 2 ^ (a - b) * 2 ^ b.
Proof. intros a b H. rewrite pow2_add by lia. f_equal. lia. Qed.

Lemma valid_finite_gridpt : forall s m e,
  valid_binary (S754_finite s m e) = true ->
  gridpt (Zpos m) e /\ Zpos m < 2 ^ 53 /\ e <= 971.
Proof.
  intros s m e Hv. cbn [SpecFloat.valid_binary] in Hv. unfold bounded, canonical_mantissa in Hv.
  apply andb_true_iff in Hv. destruct Hv as [Hc Hb].
  apply Z.eqb_eq in Hc. apply Z.leb_le in Hb. rewrite fexp_eq in Hc.
  change (emax - prec) with 971 in Hb.
  pose proof (digits2_pos_bounds m) as [Hlo Hhi].
  set (d := Zpos (digits2_pos m)) in *.
  assert (Hd : d <= 53) by lia.
  assert (Hm : Zpos m < 2 ^ 53).
  { assert (2 ^ d <= 2 ^ 53) by (apply Z.pow_le_mono_r; lia). lia. }
  unfold gridpt. repeat split; try lia.
  destruct (Z.eq_dec e (-1074)) as [He | He]; [left; exact He | right].
  assert (d = 53) by lia. replace 52 with (d - 1) by lia. exact Hlo.
Qed.

(** Above a grid point [R], the next grid value is at least one unit of
    [R] away. *)
Lemma grid_above : forall mf ef m2 t,
  gridpt mf ef -> gridpt m2 t ->
  gval m2 t < gval mf ef -> gval m2 t + 2 ^ (t + 1074) <= gval mf ef.
Proof.
  intros mf ef m2 t (Hmf & Hef & Hnf) (Hm2 & Ht & Hn2) Hlt. unfold gval in *.
  pose proof (pow2_gt0 (t + 1074) ltac:(lia)) as Hu.
  destruct (Z.le_gt_cases t ef) as [Hle | Hgt].
  - rewrite (pow2_split (ef + 1074) (t + 1074)) in * by lia.
    pose proof (pow2_gt0 (ef + 1074 - (t + 1074)) ltac:(lia)) as Hk.
    set (u := 2 ^ (t + 1074)) in *. set (k := 2 ^ (ef + 1074 - (t + 1074))) in *.
    assert (Hc : m2 < mf * k) by nia.
    assert (Hc' : (m2 + 1) * u <= (mf * k) * u) by (apply Z.mul_le_mono_nonneg_r; lia).
    lia.
  - exfalso. destruct Hn2 as [Ht0 | Hm52]; [lia |].
    assert (H1 : 2 * 2 ^ (ef + 1074) <= 2 ^ (t + 1074)).
    { replace (2 * 2 ^ (ef + 1074)) with (2 ^ (ef + 1074 + 1))
        by (rewrite <- pow2_add by lia; rewrite Z.pow_1_r; ring).
      apply Z.pow_le_mono_r; lia. }
    pose proof (pow2_gt0 (ef + 1074) ltac:(lia)) as Hf.
    change (2 ^ 53) with (2 * 2 ^ 52) in Hmf. nia.
Qed.

(** Below [R], a grid value is at least one unit of [R] away, or it lies
    below the binade of [R]. *)
Lemma grid_below : forall mf ef m2 t,
  gridpt mf ef -> gridpt m2 t ->
  gval mf ef < gval m2 t ->
  gval mf ef + 2 ^ (t + 1074) <= gval m2 t
  \/ (-1074 < t /\ gval mf ef <= 2 ^ 52 * 2 ^ (t + 1074)).
Proof.
  intros mf ef m2 t (Hmf & Hef & Hnf) (Hm2 & Ht & Hn2) Hlt. unfold gval in *.
  pose proof (pow2_gt0 (t + 1074) ltac:(lia)) as Hu.
  destruct (Z.le_gt_cases t ef) as [Hle | Hgt].
  - left. rewrite (pow2_split (ef + 1074) (t + 1074)) in * by lia.
    pose proof (pow2_gt0 (ef + 1074 - (t + 1074)) ltac:(lia)) as Hk.
    set (u := 2 ^ (t + 1074)) in *. set (k := 2 ^ (ef + 1074 - (t + 1074))) in *.
    assert (Hc : mf * k < m2) by nia.
    assert (Hc' : (mf * k + 1) * u <= m2 * u) by (apply Z.mul_le_mono_nonneg_r; lia).
    lia.
  - right. split; [lia |].
    assert (H1 : 2 * 2 ^ (ef + 1074) <= 2 ^ (t + 1074)).
    { replace (2 * 2 ^ (ef + 1074)) with (2 ^ (ef + 1074 + 1))
        by (rewrite <- pow2_add by lia; rewrite Z.pow_1_r; ring).
      apply Z.pow_le_mono_r; lia. }
    pose proof (pow2_gt0 (ef + 1074) ltac:(lia)) as Hf.
    change (2 ^ 53) with (2 * 2 ^ 52) in Hmf. nia.
Qed.

Lemma rounds_nearest_above : forall A P m2 t mf ef,
  rounds A P m2 t -> gridpt mf ef ->
  gval m2 t < gval mf ef ->
  2 * A * 2 ^ (t + 1074) <= (gval mf ef + gval m2 t) * P.
Proof.
  intros A P m2 t mf ef (HA & HP & Hg & Hnear & Hnorm) Hf Hlt.
  pose proof (grid_above mf ef m2 t Hf Hg Hlt) as Hup.
  destruct Hg as (Hm2 & Ht & _). unfold gval in *.
  pose proof (pow2_gt0 (t + 1074) ltac:(lia)) as Hu. nia.
Qed.

Lemma rounds_nearest_below : forall A P m2 t mf ef,
  rounds A P m2 t -> gridpt mf ef ->
  gval mf ef < gval m2 t ->
  (gval mf ef + gval m2 t) * P <= 2 * A * 2 ^ (t + 1074).
Proof.
  intros A P m2 t mf ef (HA & HP & Hg & Hnear & Hnorm) Hf Hlt.
  destruct (grid_below mf ef m2 t Hf Hg Hlt) as [Hdown | [Ht1 Hsmall]].
  - destruct Hg as (Hm2 & Ht & _). unfold gval in *.
    pose proof (pow2_gt0 (t + 1074) ltac:(lia)) as Hu. nia.
  - destruct Hnorm as [Ht0 | HA52]; [lia |].
    destruct Hg as (Hm2 & Ht & _). unfold gval in *.
    pose proof (pow2_gt0 (t + 1074) ltac:(lia)) as Hu.
    set (u := 2 ^ (t + 1074)) in *. set (F := mf * 2 ^ (ef + 1074)) in *.
    destruct (Z.le_gt_cases m2 (2 ^ 52)) as [Hle | Hgt].
    + assert (H1 : F + m2 * u <= 2 * (2 ^ 52 * u)) by nia.
      assert (H2 : (F + m2 * u) * P <= 2 * (2 ^ 52 * u) * P)
        by (apply Z.mul_le_mono_nonneg_r; lia).
      assert (H3 : 2 ^ 52 * P * u <= A * u) by (apply Z.mul_le_mono_nonneg_r; lia).
      lia.
    + assert (H1 : F + m2 * u <= (2 * m2 - 1) * u) by nia.
      assert (H2 : (F + m2 * u) * P <= (2 * m2 - 1) * u * P)
        by (apply Z.mul_le_mono_nonneg_r; lia).
      assert (H3 : (2 * m2 - 1) * P * u <= 2 * A * u)
        by (apply Z.mul_le_mono_nonneg_r; lia).
      lia.
Qed.

(** Rounding is monotone: a smaller value is not rounded to a larger
    grid point. *)
Lemma rounds_mono : forall A1 P1 m1 t1 A2 P2 m2 t2,
  rounds A1 P1 m1 t1 -> rounds A2 P2 m2 t2 ->
  A1 * 2 ^ (t1 + 1074) * P2 < A2 * 2 ^ (t2 + 1074) * P1 ->
  gval m1 t1 <= gval m2 t2.
Proof.
  intros A1 P1 m1 t1 A2 P2 m2 t2 H1 H2 Hlt.
  destruct (Z.le_gt_cases (gval m1 t1) (gval m2 t2)) as [Hle | Hgt]; [exact Hle | exfalso].
  pose proof (rounds_nearest_below A1 P1 m1 t1 m2 t2 H1 ltac:(apply H2) Hgt) as Hb.
  pose proof (rounds_nearest_above A2 P2 m2 t2 m1 t1 H2 ltac:(apply H1) Hgt) as Ha.
  destruct H1 as (_ & HP1 & _). destruct H2 as (_ & HP2 & _).
  assert (Hx : (gval m2 t2 + gval m1 t1) * P1 * P2 <= 2 * A1 * 2 ^ (t1 + 1074) * P2) by nia.
  assert (Hy : 2 * A2 * 2 ^ (t2 + 1074) * P1 <= (gval m1 t1 + gval m2 t2) * P2 * P1) by nia.
  nia.
Qed.

Lemma binary_round_aux_rounds : forall sx A B E, 0 <= A -> 0 < B ->
  let t := fexp prec emax (Zdigits2 (A / B) + E) in
  E <= t ->
  exists m2,
    rounds A (B * 2 ^ (t - E)) m2 t
    /\ binary_round_aux prec emax sx (A / B) E (locZ (A mod B) B) = SF_of_rounded sx m2 t.
Proof.
  intros sx A B E HA HB t Ht.
  destruct (binary_round_aux_spec sx A B E HA HB Ht) as (m2 & Hnear & Hm2 & Hnorm & Heq).
  fold t in Hnear, Hnorm, Heq. cbv zeta in Hnear, Hnorm.
  exists m2. split; [| exact Heq].
  assert (Ht0 : -1074 <= t) by (subst t; rewrite fexp_eq; lia).
  pose proof (pow2_gt0 (t - E) ltac:(lia)).
  unfold rounds, gridpt. repeat split; try lia; try nia; tauto.
Qed.

(** ** The order of binary64 numbers as an order of integers *)

Lemma gval_pos : forall m e, 0 < gval (Zpos m) e \/ e + 1074 < 0.
Proof.
  intros m e. destruct (Z.le_gt_cases 0 (e + 1074)) as [H | H]; [left | right; lia].
  unfold gval. pose proof (pow2_gt0 (e + 1074) H). nia.
Qed.

Lemma valid_gval_bounds : forall s m e,
  valid_binary (S754_finite s m e) = true -> 0 < gval (Zpos m) e < 2 ^ 2098.
Proof.
  intros s m e Hv. apply valid_finite_gridpt in Hv.
  destruct Hv as ((Hm & He & _) & Hm53 & He971). unfold gval.
  pose proof (pow2_gt0 (e + 1074) ltac:(zlia)) as Hu. split; [znia |].
  assert (2 ^ (e + 1074) <= 2 ^ 2045) by (apply Z.pow_le_mono_r; zlia).
  change (2 ^ 2098) with (2 ^ 53 * 2 ^ 2045). znia.
Qed.

Lemma gval_compare : forall m1 e1 m2 e2,
  valid_binary (S754_finite false m1 e1) = true ->
  valid_binary (S754_finite false m2 e2) = true ->
  match e1 ?= e2 with
  | Lt => Lt
  | Gt => Gt
  | Eq => Pos.compare_cont Eq m1 m2
  end = (gval (Zpos m1) e1 ?= gval (Zpos m2) e2).
Proof.
  intros m1 e1 m2 e2 H1 H2.
  apply valid_finite_gridpt in H1, H2.
  destruct H1 as ((Hm1 & He1 & Hn1) & Hm1' & _), H2 as ((Hm2 & He2 & Hn2) & Hm2' & _).
  unfold gval. symmetry.
  destruct (Z.compare_spec e1 e2) as [Heq | Hlt | Hgt].
  - subst e2. pose proof (pow2_gt0 (e1 + 1074) ltac:(lia)) as Hu.
    change (Pos.compare_cont Eq m1 m2) with (Zpos m1 ?= Zpos m2).
    destruct (Z.compare_spec (Zpos m1) (Zpos m2)) as [H | H | H].
    + rewrite H. apply Z.compare_refl.
    + apply Z.compare_lt_iff. nia.
    + apply Z.compare_gt_iff. nia.
  - apply Z.compare_lt_iff. destruct Hn2 as [H | H]; [lia |].
    rewrite (pow2_split (e2 + 1074) (e1 + 1074)) by lia.
    pose proof (pow2_gt0 (e1 + 1074) ltac:(lia)) as Hu.
    assert (Hk : 2 <= 2 ^ (e2 + 1074 - (e1 + 1074))).
    { change 2 with (2 ^ 1) at 1. apply Z.pow_le_mono_r; lia. }
    set (u := 2 ^ (e1 + 1074)) in *. set (k := 2 ^ (e2 + 1074 - (e1 + 1074))) in *.
    change (2 ^ 53) with (2 * 2 ^ 52) in *.
    assert (Hc : Zpos m1 < Zpos m2 * k) by nia.
    assert (Hc' : Zpos m1 * u < Zpos m2 * k * u) by (apply Z.mul_lt_mono_pos_r; lia).
    lia.
  - apply Z.compare_gt_iff. destruct Hn1 as [H | H]; [lia |].
    rewrite (pow2_split (e1 + 1074) (e2 + 1074)) by lia.
    pose proof (pow2_gt0 (e2 + 1074) ltac:(lia)) as Hu.
    assert (Hk : 2 <= 2 ^ (e1 + 1074 - (e2 + 1074))).
    { change 2 with (2 ^ 1) at 1. apply Z.pow_le_mono_r; lia. }
    set (u := 2 ^ (e2 + 1074)) in *. set (k := 2 ^ (e1 + 1074 - (e2 + 1074))) in *.
    change (2 ^ 53) with (2 * 2 ^ 52) in *.
    assert (Hc : Zpos m2 < Zpos m1 * k) by nia.
    assert (Hc' : Zpos m2 * u < Zpos m1 * k * u) by (apply Z.mul_lt_mono_pos_r; lia).
    lia.
Qed.

Lemma SFcompare_ord : forall x y,
  valid_binary x = true -> valid_binary y = true ->
  x <> S754_nan -> y <> S754_nan ->
  SFcompare x y = Some (ord x ?= ord y).
Proof.
  intros x y Hx Hy Hxn Hyn.
  destruct x as [sx | sx | | sx mx ex]; try congruence;
    destruct y as [sy | sy | | sy my ey]; try congruence;
    cbn [SFcompare ord];
    try pose proof (valid_gval_bounds _ _ _ Hx) as Bx;
    try pose proof (valid_gval_bounds _ _ _ Hy) as By;
    try (destruct sx); try (destruct sy); f_equal; symmetry;
    try reflexivity;
    try (apply Z.compare_lt_iff; zlia);
    try (apply Z.compare_gt_iff; zlia).
  - pose proof (gval_compare mx ex my ey Hx Hy) as Hc.
    rewrite Z.compare_opp, Z.compare_antisym, <- Hc.
    destruct (ex ?= ey); reflexivity.
  - symmetry. apply (gval_compare mx ex my ey Hx Hy).
Qed.

Lemma SF_of_rounded_valid : forall sx m2 t, gridpt m2 t ->
  valid_binary (SF_of_rounded sx m2 t) = true /\ SF_of_rounded sx m2 t <> S754_nan.
Proof.
  intros sx m2 t (Hm2 & Ht & Hn). unfold SF_of_rounded.
  destruct (Z.eqb_spec m2 0) as [Hz | Hnz]; [split; [reflexivity | discriminate] |].
  destruct (Z.ltb_spec m2 (2 ^ 53)) as [Hlt | Hge].
  - destruct (Z.leb_spec t 971) as [Hle | Hgt]; [| split; [reflexivity | discriminate]].
    split; [| discriminate].
    cbn [SpecFloat.valid_binary]. unfold bounded, canonical_mantissa.
    apply andb_true_iff. split; [| apply Z.leb_le; exact Hle].
    apply Z.eqb_eq. rewrite fexp_eq.
    change (Zpos (digits2_pos (Z.to_pos m2))) with (Zdigits2 (Zpos (Z.to_pos m2))).
    rewrite Z2Pos.id by lia.
    assert (Hd : Zdigits2 m2 <= 53) by (apply Zdigits2_le; lia).
    destruct Hn as [Ht0 | Hm52]; [lia |].
    assert (53 <= Zdigits2 m2) by (apply (Zdigits2_ge m2 52); lia). lia.
  - destruct (Z.leb_spec (t + 1) 971) as [Hle | Hgt]; [| split; [reflexivity | discriminate]].
    split; [| discriminate].
    cbn [SpecFloat.valid_binary]. unfold bounded, canonical_mantissa.
    apply andb_true_iff. split; [| apply Z.leb_le; exact Hle].
    apply Z.eqb_eq. rewrite fexp_eq.
    change (Zpos (digits2_pos (Z.to_pos (2 ^ 52)))) with 53. lia.
Qed.

Lemma ord_SF_of_rounded : forall sx m2 t, gridpt m2 t ->
  ord (SF_of_rounded sx m2 t)
  = if sx then - Z.min (gval m2 t) (2 ^ 2098) else Z.min (gval m2 t) (2 ^ 2098).
Proof.
  intros sx m2 t (Hm2 & Ht & Hn). unfold SF_of_rounded, gval.
  pose proof (pow2_gt0 (t + 1074) ltac:(zlia)) as Hu.
  destruct (Z.eqb_spec m2 0) as [Hz | Hnz].
  - subst m2. cbn [ord]. rewrite Z.mul_0_l. destruct sx; reflexivity.
  - destruct (Z.ltb_spec m2 (2 ^ 53)) as [Hlt | Hge].
    + destruct (Z.leb_spec t 971) as [Hle | Hgt]; cbn [ord].
      * unfold gval. rewrite Z2Pos.id by zlia.
        assert (2 ^ (t + 1074) <= 2 ^ 2045) by (apply Z.pow_le_mono_r; zlia).
        change (2 ^ 2098) with (2 ^ 53 * 2 ^ 2045).
        rewrite Z.min_l by znia. reflexivity.
      * destruct Hn as [Ht0 | Hm52]; [zlia |].
        assert (2 ^ 2046 <= 2 ^ (t + 1074)) by (apply Z.pow_le_mono_r; zlia).
        change (2 ^ 2098) with (2 ^ 52 * 2 ^ 2046).
        rewrite Z.min_r by znia. reflexivity.
    + assert (Heq : m2 = 2 ^ 53) by zlia. subst m2.
      destruct (Z.leb_spec (t + 1) 971) as [Hle | Hgt]; cbn [ord].
      * unfold gval. change (Zpos (Z.to_pos (2 ^ 52))) with (2 ^ 52).
        replace (t + 1 + 1074) with (t + 1074 + 1) by zlia.
        rewrite <- pow2_add, Z.pow_1_r by zlia.
        assert (2 * 2 ^ (t + 1074) <= 2 ^ 2045).
        { replace (2 * 2 ^ (t + 1074)) with (2 ^ (t + 1074 + 1))
            by (rewrite <- pow2_add by zlia; rewrite Z.pow_1_r; ring).
          apply Z.pow_le_mono_r; zlia. }
        change (2 ^ 2098) with (2 ^ 53 * 2 ^ 2045). change (2 ^ 53) with (2 ^ 52 * 2).
        rewrite Z.min_l by znia. destruct sx; ring.
      * assert (2 ^ 2045 <= 2 ^ (t + 1074)) by (apply Z.pow_le_mono_r; zlia).
        change (2 ^ 2098) with (2 ^ 53 * 2 ^ 2045).
        rewrite Z.min_r by znia. reflexivity.
Qed.

(** ** The operations on finite numbers as rounding situations *)

Lemma SFmul_rounds : forall sx mx ex sy my ey,
  valid_binary (S754_finite sx mx ex) = true ->
  valid_binary (S754_finite sy my ey) = true ->
  exists m2 t,
    ex + ey <= t
    /\ rounds (Zpos mx * Zpos my) (2 ^ (t - (ex + ey))) m2 t
    /\ SFmul prec emax (S754_finite sx mx ex) (S754_finite sy my ey)
       = SF_of_rounded (xorb sx sy) m2 t.
Proof.
  intros sx mx ex sy my ey Hx Hy.
  apply valid_finite_gridpt in Hx, Hy.
  destruct Hx as ((Hmx & Hex & Hnx) & _), Hy as ((Hmy & Hey & Hny) & _).
  set (A := Zpos mx * Zpos my). set (E := ex + ey).
  assert (HA : 0 <= A) by (subst A; lia).
  assert (Ht : E <= fexp prec emax (Zdigits2 (A / 1) + E)).
  { rewrite Z.div_1_r, fexp_eq.
    destruct Hnx as [Hx0 | Hx52]; [destruct Hny as [Hy0 | Hy52] |].
    - subst E. lia.
    - assert (53 <= Zdigits2 A) by (apply (Zdigits2_ge A 52); subst A; nia). lia.
    - assert (53 <= Zdigits2 A) by (apply (Zdigits2_ge A 52); subst A; nia). lia. }
  destruct (binary_round_aux_rounds (xorb sx sy) A 1 E HA ltac:(lia) Ht) as (m2 & Hr & Heq).
  exists m2, (fexp prec emax (Zdigits2 (A / 1) + E)).
  split; [exact Ht |]. rewrite Z.mul_1_l in Hr. split; [exact Hr |].
  rewrite Z.div_1_r, Z.mod_1_r in Heq. rewrite Z.div_1_r.
  cbn [SFmul]. exact Heq.
Qed.

Lemma new_location_locZ : forall nb k, 0 < nb -> 0 <= k < nb ->
  new_location nb k = locZ k nb.
Proof.
  intros nb k Hnb Hk. unfold new_location, new_location_even, new_location_odd, locZ.
  destruct (Z.even nb) eqn:Heven; destruct (Z.eqb_spec k 0) as [Hz | Hnz];
    try reflexivity.
  f_equal.
  assert (Hodd : Z.odd nb = true) by (rewrite <- Z.negb_even, Heven; reflexivity).
  apply Z.odd_spec in Hodd. destruct Hodd as [h Hh].
  destruct (Z.compare_spec (2 * k + 1) nb) as [H | H | H]; symmetry.
  - apply Z.compare_lt_iff. lia.
  - apply Z.compare_lt_iff. lia.
  - apply Z.compare_gt_iff. lia.
Qed.

Lemma SFdiv_rounds : forall sx mx ex sy my ey,
  valid_binary (S754_finite sx mx ex) = true ->
  valid_binary (S754_finite sy my ey) = true ->
  exists A P m2 t,
    rounds A P m2 t
    /\ A * 2 ^ (t + 1074) * gval (Zpos my) ey = gval (Zpos mx) ex * 2 ^ 1074 * P
    /\ SFdiv prec emax (S754_finite sx mx ex) (S754_finite sy my ey)
       = SF_of_rounded (xorb sx sy) m2 t.
Proof.
  intros sx mx ex sy my ey Hx Hy.
  apply valid_finite_gridpt in Hx, Hy.
  destruct Hx as ((Hmx & Hex & Hnx) & Hmx53 & _), Hy as ((Hmy & Hey & Hny) & Hmy53 & _).
  cbn [SFdiv]. unfold SFdiv_core_binary.
  set (d1 := Zdigits2 (Zpos mx)). set (d2 := Zdigits2 (Zpos my)).
  set (e' := Z.min (fexp prec emax (d1 + ex - (d2 + ey))) (ex - ey)).
  set (s := ex - ey - e').
  assert (Hs : 0 <= s) by (subst s e'; zlia).
  set (m' := match s with Zpos _ => Z.shiftl (Zpos mx) s | Z0 => Zpos mx | Zneg _ => 0 end).
  assert (Hm' : m' = Zpos mx * 2 ^ s).
  { subst m'. generalize s Hs. intros [| p | p] Hp; try zlia.
    rewrite Z.shiftl_mul_pow2 by zlia. reflexivity. }
  pose proof (pow2_gt0 s Hs) as H2s.
  assert (Hm'0 : 0 <= m') by znia.
  pose proof (Z.div_eucl_eq m' (Zpos my) ltac:(zlia)) as Heucl.
  pose proof (Z.mod_pos_bound m' (Zpos my) ltac:(zlia)) as Hrem.
  unfold Z.modulo in Hrem.
  assert (Hq : fst (Z.div_eucl m' (Zpos my)) = m' / Zpos my) by reflexivity.
  assert (Hr : snd (Z.div_eucl m' (Zpos my)) = m' mod Zpos my) by reflexivity.
  destruct (Z.div_eucl m' (Zpos my)) as [q r]. cbn [fst snd] in Hq, Hr.
  rewrite new_location_locZ by zlia. subst q r.
  (* enough digits in the quotient *)
  pose proof (Zdigits2_bounds (Zpos mx) ltac:(zlia)) as [Hd1lo Hd1hi]. fold d1 in Hd1lo, Hd1hi.
  pose proof (Zdigits2_bounds (Zpos my) ltac:(zlia)) as [Hd2lo Hd2hi]. fold d2 in Hd2lo, Hd2hi.
  assert (Hd1 : 1 <= d1) by (subst d1; cbn; zlia).
  assert (Hd2 : 1 <= d2) by (subst d2; cbn; zlia).
  assert (Ht : e' <= fexp prec emax (Zdigits2 (m' / Zpos my) + e')).
  { rewrite fexp_eq. destruct (Z.le_gt_cases e' (-1074)) as [Hlow | Hhigh]; [zlia |].
    assert (Hphi : e' <= d1 + ex - (d2 + ey) - 53) by (subst e'; rewrite fexp_eq in *; zlia).
    assert (Hs53 : d2 - d1 + 53 <= s) by (subst s; zlia).
    assert (Hq52 : 2 ^ 52 <= m' / Zpos my).
    { apply Z.div_le_lower_bound; [zlia |].
      assert (H1 : 2 ^ (52 + d2) <= 2 ^ (d1 - 1 + s)) by (apply Z.pow_le_mono_r; zlia).
      rewrite <- !pow2_add in H1 by zlia.
      pose proof (pow2_gt0 (d1 - 1) ltac:(zlia)). znia. }
    assert (53 <= Zdigits2 (m' / Zpos my)) by (apply (Zdigits2_ge _ 52); zlia). zlia. }
  destruct (binary_round_aux_rounds (xorb sx sy) m' (Zpos my) e' Hm'0 ltac:(zlia) Ht)
    as (m2 & Hrounds & Heq).
  set (t := fexp prec emax (Zdigits2 (m' / Zpos my) + e')) in *.
  exists m', (Zpos my * 2 ^ (t - e')), m2, t.
  split; [exact Hrounds |]. split; [| exact Heq].
  rewrite Hm'. unfold gval.
  assert (Ht0 : -1074 <= t) by (subst t; rewrite fexp_eq; zlia).
  assert (Hpow : 2 ^ s * 2 ^ (t + 1074) * 2 ^ (ey + 1074)
                 = 2 ^ (ex + 1074) * 2 ^ 1074 * 2 ^ (t - e')).
  { rewrite !pow2_add by zlia. f_equal. subst s. zlia. }
  transitivity (Zpos mx * Zpos my * (2 ^ s * 2 ^ (t + 1074) * 2 ^ (ey + 1074))); [ring |].
  rewrite Hpow. ring.
Qed.

Lemma ord_eq_finite : forall x s m e,
  valid_binary x = true -> x <> S754_nan ->
  valid_binary (S754_finite s m e) = true ->
  ord x = ord (S754_finite s m e) ->
  x = S754_finite s m e.
Proof.
  intros x s m e Hx Hxn Hy Hord.
  pose proof (valid_gval_bounds s m e Hy) as By. cbn [ord] in Hord.
  destruct x as [sx | sx | | sx mx ex]; try congruence; cbn [ord] in Hord.
  - destruct s; zlia.
  - destruct sx, s; zlia.
  - pose proof (valid_gval_bounds sx mx ex Hx) as Bx.
    assert (Hs : sx = s) by (destruct sx, s; try reflexivity; zlia).
    subst sx.
    assert (Hg : gval (Zpos mx) ex = gval (Zpos m) e) by (destruct s; zlia).
    pose proof (gval_compare mx ex m e Hx Hy) as Hc.
    rewrite Hg, Z.compare_refl in Hc.
    destruct (Z.compare_spec ex e) as [He | He | He]; try discriminate.
    apply Pos.compare_eq in Hc. congruence.
Qed.

(** A rounding situation whose value is a grid point rounds to it. *)
Lemma rounds_exact : forall A P m2 t mf ef,
  rounds A P m2 t -> gridpt mf ef ->
  A * 2 ^ (t + 1074) = gval mf ef * P ->
  gval m2 t = gval mf ef.
Proof.
  intros A P m2 t mf ef Hr Hf Hval.
  destruct (Z.lt_total (gval m2 t) (gval mf ef)) as [Hlt | [Heq | Hgt]]; [| exact Heq |].
  - pose proof (rounds_nearest_above A P m2 t mf ef Hr Hf Hlt).
    destruct Hr as (_ & HP & _). nia.
  - pose proof (rounds_nearest_below A P m2 t mf ef Hr Hf Hgt).
    destruct Hr as (_ & HP & _). nia.
Qed.

(** A value that is at least a grid point is rounded to at least that
    grid point, and dually. *)
Lemma rounds_ge : forall A P m2 t mf ef,
  rounds A P m2 t -> gridpt mf ef ->
  gval mf ef * P <= A * 2 ^ (t + 1074) ->
  gval mf ef <= gval m2 t.
Proof.
  intros A P m2 t mf ef Hr Hf Hval.
  destruct (Z.le_gt_cases (gval mf ef) (gval m2 t)) as [Hle | Hgt]; [exact Hle |].
  pose proof (rounds_nearest_above A P m2 t mf ef Hr Hf Hgt).
  destruct Hr as (_ & HP & _). nia.
Qed.

Lemma rounds_le : forall A P m2 t mf ef,
  rounds A P m2 t -> gridpt mf ef ->
  A * 2 ^ (t + 1074) <= gval mf ef * P ->
  gval m2 t <= gval mf ef.
Proof.
  intros A P m2 t mf ef Hr Hf Hval.
  destruct (Z.le_gt_cases (gval m2 t) (gval mf ef)) as [Hle | Hgt]; [exact Hle |].
  pose proof (rounds_nearest_below A P m2 t mf ef Hr Hf Hgt).
  destruct Hr as (_ & HP & _). nia.
Qed.

Lemma Pos_iter_xO : forall (d m : positive),
  Zpos (Pos.iter xO m d) = Zpos m * 2 ^ Zpos d.
Proof.
  intros d m. induction d as [| d IH] using Pos.peano_ind.
  - cbn. lia.
  - rewrite Pos.iter_succ, Pos2Z.inj_xO, IH, Pos2Z.inj_succ, Z.pow_succ_r by lia. ring.
Qed.

Lemma shl_align_spec : forall mx ex ex',
  snd (shl_align mx ex ex') = Z.min ex ex'
  /\ Zpos (fst (shl_align mx ex ex')) = Zpos mx * 2 ^ (ex - Z.min ex ex').
Proof.
  intros mx ex ex'. unfold shl_align.
  destruct (ex' - ex) as [| d | d] eqn:Hd; cbn [fst snd].
  - rewrite Z.min_l by lia. rewrite Z.sub_diag, Z.pow_0_r. lia.
  - rewrite Z.min_l by lia. rewrite Z.sub_diag, Z.pow_0_r. lia.
  - rewrite Z.min_r by lia. split; [reflexivity |].
    rewrite Pos_iter_xO. f_equal. f_equal. lia.
Qed.

Lemma Zdigits2_mul_pow2 : forall m k, 0 < m -> 0 <= k ->
  Zdigits2 (m * 2 ^ k) = Zdigits2 m + k.
Proof.
  intros m k Hm Hk. pose proof (Zdigits2_bounds m ltac:(lia)) as [Hlo Hhi].
  pose proof (pow2_gt0 k Hk) as H2k.
  assert (Hd : 1 <= Zdigits2 m) by (destruct m; cbn; lia).
  apply Z.le_antisymm.
  - apply Zdigits2_le; [nia | lia |]. rewrite <- pow2_add by lia. nia.
  - replace (Zdigits2 m + k) with ((Zdigits2 m - 1 + k) + 1) by lia.
    apply Zdigits2_ge; [lia |]. rewrite <- pow2_add by lia. nia.
Qed.

Lemma binary_round_rounds : forall sx mx ex, -1074 <= ex ->
  exists A P m2 t,
    rounds A P m2 t
    /\ A * 2 ^ (t + 1074) = gval (Zpos mx) ex * P
    /\ binary_round prec emax sx mx ex = SF_of_rounded sx m2 t.
Proof.
  intros sx mx ex Hex. unfold binary_round.
  set (phi := fexp prec emax (Zpos (digits2_pos mx) + ex)).
  destruct (shl_align_spec mx ex phi) as [Hez Hmz].
  destruct (shl_align mx ex phi) as [mz ez]. cbn [fst snd] in Hez, Hmz. subst ez.
  set (ez := Z.min ex phi) in *.
  assert (Hdig : Zdigits2 (Zpos mz) + ez = Zpos (digits2_pos mx) + ex).
  { rewrite Hmz, Zdigits2_mul_pow2 by lia. cbn [Zdigits2]. lia. }
  assert (Ht : ez <= fexp prec emax (Zdigits2 (Zpos mz / 1) + ez)).
  { rewrite Z.div_1_r, Hdig. fold phi. subst ez. lia. }
  destruct (binary_round_aux_rounds sx (Zpos mz) 1 ez ltac:(lia) ltac:(lia) Ht)
    as (m2 & Hr & Heq).
  rewrite Z.mod_1_r in Heq. rewrite ?Z.div_1_r in Hr, Ht, Heq.
  rewrite ?Hdig in Hr, Ht, Heq.
  fold phi in Hr, Ht, Heq. change (locZ 0 1) with loc_Exact in Heq.
  rewrite Z.mul_1_l in Hr.
  exists (Zpos mz), (2 ^ (phi - ez)), m2, phi.
  split; [exact Hr |]. split; [| exact Heq].
  assert (Hphi : -1074 <= phi) by (subst phi; rewrite fexp_eq; lia).
  rewrite Hmz. unfold gval.
  assert (Hpow : 2 ^ (ex - ez) * 2 ^ (phi + 1074) = 2 ^ (ex + 1074) * 2 ^ (phi - ez)).
  { rewrite !pow2_add by lia. f_equal. lia. }
  rewrite <- !Z.mul_assoc, Hpow. reflexivity.
Qed.

(** The difference of two finite numbers, rounded. *)
Lemma SFsub_rounds : forall sx mx ex sy my ey,
  valid_binary (S754_finite sx mx ex) = true ->
  valid_binary (S754_finite sy my ey) = true ->
  let D := ord (S754_finite sx mx ex) - ord (S754_finite sy my ey) in
  (D = 0 -> SFsub prec emax (S754_finite sx mx ex) (S754_finite sy my ey) = S754_zero false)
  /\ (D <> 0 ->
      exists A P m2 t,
        rounds A P m2 t
        /\ A * 2 ^ (t + 1074) = Z.abs D * P
        /\ SFsub prec emax (S754_finite sx mx ex) (S754_finite sy my ey)
           = SF_of_rounded (D <? 0) m2 t).
Proof.
  intros sx mx ex sy my ey Hx Hy D.
  apply valid_finite_gridpt in Hx, Hy.
  destruct Hx as ((_ & Hex & _) & _), Hy as ((_ & Hey & _) & _).
  cbn [SFsub]. set (ez := Z.min ex ey).
  destruct (shl_align_spec mx ex ez) as [_ Hmx]. destruct (shl_align_spec my ey ez) as [_ Hmy].
  replace (Z.min ex ez) with ez in Hmx by (subst ez; lia).
  replace (Z.min ey ez) with ez in Hmy by (subst ez; lia).
  set (S := cond_Zopp sx (Zpos (fst (shl_align mx ex ez)))
            - cond_Zopp sy (Zpos (fst (shl_align my ey ez)))).
  assert (Hez : -1074 <= ez) by (subst ez; lia).
  pose proof (pow2_gt0 (ez + 1074) ltac:(lia)) as Hu.
  assert (HD : D = S * 2 ^ (ez + 1074)).
  { subst D S. cbn [ord]. unfold gval. rewrite Hmx, Hmy.
    rewrite (pow2_split (ex + 1074) (ez + 1074)) by lia.
    rewrite (pow2_split (ey + 1074) (ez + 1074)) by lia.
    replace (ex + 1074 - (ez + 1074)) with (ex - ez) by lia.
    replace (ey + 1074 - (ez + 1074)) with (ey - ez) by lia.
    destruct sx, sy; cbn [cond_Zopp]; ring. }
  split.
  - intros HD0. assert (HS : S = 0) by nia. rewrite HS. reflexivity.
  - intros HDn. destruct S as [| p | p] eqn:HS; [lia | |].
    + cbn [binary_normalize].
      destruct (binary_round_rounds false p ez Hez) as (A & P & m2 & t & Hr & Hval & Heq).
      exists A, P, m2, t. split; [exact Hr |].
      assert (HDpos : 0 < D) by nia.
      assert (Hlt : (D <? 0) = false) by lia. rewrite Hlt.
      split; [| exact Heq]. rewrite Hval, Z.abs_eq by lia. unfold gval. rewrite HD. reflexivity.
    + cbn [binary_normalize].
      destruct (binary_round_rounds true p ez Hez) as (A & P & m2 & t & Hr & Hval & Heq).
      exists A, P, m2, t. split; [exact Hr |].
      assert (HDneg : D < 0) by nia.
      assert (Hlt : (D <? 0) = true) by lia. rewrite Hlt.
      split; [| exact Heq]. rewrite Hval, Z.abs_neq by lia. unfold gval. rewrite HD.
      rewrite <- Z.mul_opp_l. reflexivity.
Qed.

Lemma rounds_gval_nonneg : forall A P m2 t, rounds A P m2 t -> 0 <= gval m2 t.
Proof.
  intros A P m2 t (_ & _ & (Hm & Ht & _) & _). unfold gval.
  pose proof (pow2_gt0 (t + 1074) ltac:(lia)). nia.
Qed.

(** Division by a positive number is monotone in the dividend. *)
Lemma SFdiv_mono : forall mx ex mc ec my ey,
  valid_binary (S754_finite false mx ex) = true ->
  valid_binary (S754_finite false mc ec) = true ->
  valid_binary (S754_finite false my ey) = true ->
  gval (Zpos mx) ex <= gval (Zpos mc) ec ->
  ord (SFdiv prec emax (S754_finite false mx ex) (S754_finite false my ey))
  <= ord (SFdiv prec emax (S754_finite false mc ec) (S754_finite false my ey)).
Proof.
  intros mx ex mc ec my ey Hx Hc Hy Hle.
  destruct (Z.eq_dec (gval (Zpos mx) ex) (gval (Zpos mc) ec)) as [Heq | Hne].
  - assert (Hxc : S754_finite false mx ex = S754_finite false mc ec)
      by (apply ord_eq_finite; [assumption | discriminate | assumption | exact Heq]).
    rewrite Hxc. zlia.
  - destruct (SFdiv_rounds false mx ex false my ey Hx Hy) as (A1 & P1 & m1 & t1 & Hr1 & Hv1 & ->).
    destruct (SFdiv_rounds false mc ec false my ey Hc Hy) as (A2 & P2 & m2 & t2 & Hr2 & Hv2 & ->).
    cbn [xorb]. rewrite !ord_SF_of_rounded by (apply Hr1 || apply Hr2).
    pose proof (valid_gval_bounds _ _ _ Hy) as By.
    pose proof Hr1 as (_ & HP1 & _). pose proof Hr2 as (_ & HP2 & _).
    pose proof (pow2_gt0 1074 ltac:(zlia)) as H1074.
    assert (Hlt : A1 * 2 ^ (t1 + 1074) * P2 < A2 * 2 ^ (t2 + 1074) * P1).
    { apply (Z.mul_lt_mono_pos_r (gval (Zpos my) ey)); [zlia |].
      replace (A1 * 2 ^ (t1 + 1074) * P2 * gval (Zpos my) ey)
        with (A1 * 2 ^ (t1 + 1074) * gval (Zpos my) ey * P2) by ring.
      replace (A2 * 2 ^ (t2 + 1074) * P1 * gval (Zpos my) ey)
        with (A2 * 2 ^ (t2 + 1074) * gval (Zpos my) ey * P1) by ring.
      rewrite Hv1, Hv2.
      assert (Hxc : gval (Zpos mx) ex < gval (Zpos mc) ec) by zlia.
      set (K := 2 ^ 1074) in *.
      assert (HK : 0 < K * P1 * P2)
        by (apply Z.mul_pos_pos; [apply Z.mul_pos_pos |]; assumption).
      replace (gval (Zpos mx) ex * K * P1 * P2) with (gval (Zpos mx) ex * (K * P1 * P2)) by ring.
      replace (gval (Zpos mc) ec * K * P2 * P1) with (gval (Zpos mc) ec * (K * P1 * P2)) by ring.
      apply Z.mul_lt_mono_pos_r; assumption. }
    pose proof (rounds_mono _ _ _ _ _ _ _ _ Hr1 Hr2 Hlt). zlia.
Qed.

(** Subtraction is antitone in the number subtracted. *)
Lemma SFsub_anti : forall sx mx ex s1 m1 e1 s2 m2 e2,
  valid_binary (S754_finite sx mx ex) = true ->
  valid_binary (S754_finite s1 m1 e1) = true ->
  valid_binary (S754_finite s2 m2 e2) = true ->
  ord (S754_finite s1 m1 e1) <= ord (S754_finite s2 m2 e2) ->
  ord (SFsub prec emax (S754_finite sx mx ex) (S754_finite s2 m2 e2))
  <= ord (SFsub prec emax (S754_finite sx mx ex) (S754_finite s1 m1 e1)).
Proof.
  intros sx mx ex s1 m1 e1 s2 m2 e2 Hx H1 H2 Hle.
  destruct (Z.eq_dec (ord (S754_finite s1 m1 e1)) (ord (S754_finite s2 m2 e2))) as [Heq | Hne].
  - assert (H12 : S754_finite s1 m1 e1 = S754_finite s2 m2 e2)
      by (apply ord_eq_finite; [assumption | discriminate | assumption | exact Heq]).
    rewrite H12. zlia.
  - destruct (SFsub_rounds sx mx ex s1 m1 e1 Hx H1) as [Hz1 Hn1].
    destruct (SFsub_rounds sx mx ex s2 m2 e2 Hx H2) as [Hz2 Hn2].
    set (D1 := ord (S754_finite sx mx ex) - ord (S754_finite s1 m1 e1)) in *.
    set (D2 := ord (S754_finite sx mx ex) - ord (S754_finite s2 m2 e2)) in *.
    assert (HD : D2 < D1) by (subst D1 D2; zlia).
    destruct (Z.eq_dec D1 0) as [HD1 | HD1]; destruct (Z.eq_dec D2 0) as [HD2 | HD2]; try zlia.
    + rewrite (Hz1 HD1).
      destruct (Hn2 HD2) as (A2 & P2 & r2 & t2 & Hr2 & Hv2 & ->).
      rewrite ord_SF_of_rounded by apply Hr2.
      pose proof (rounds_gval_nonneg _ _ _ _ Hr2).
      assert (Hs : (D2 <? 0) = true) by zlia. rewrite Hs. cbn [ord]. zlia.
    + rewrite (Hz2 HD2).
      destruct (Hn1 HD1) as (A1 & P1 & r1 & t1 & Hr1 & Hv1 & ->).
      rewrite ord_SF_of_rounded by apply Hr1.
      pose proof (rounds_gval_nonneg _ _ _ _ Hr1).
      assert (Hs : (D1 <? 0) = false) by zlia. rewrite Hs. cbn [ord]. zlia.
    + destruct (Hn1 HD1) as (A1 & P1 & r1 & t1 & Hr1 & Hv1 & ->).
      destruct (Hn2 HD2) as (A2 & P2 & r2 & t2 & Hr2 & Hv2 & ->).
      rewrite !ord_SF_of_rounded by (apply Hr1 || apply Hr2).
      pose proof (rounds_gval_nonneg _ _ _ _ Hr1). pose proof (rounds_gval_nonneg _ _ _ _ Hr2).
      pose proof Hr1 as (_ & HP1 & _). pose proof Hr2 as (_ & HP2 & _).
      destruct (Z.ltb_spec D1 0) as [Hneg1 | Hpos1]; destruct (Z.ltb_spec D2 0) as [Hneg2 | Hpos2];
        try zlia.
      * (* both negative: |D1| < |D2| *)
        assert (Hlt : A1 * 2 ^ (t1 + 1074) * P2 < A2 * 2 ^ (t2 + 1074) * P1).
        { rewrite Hv1, Hv2. rewrite !Z.abs_neq by zlia. znia. }
        pose proof (rounds_mono _ _ _ _ _ _ _ _ Hr1 Hr2 Hlt). zlia.
      * (* both positive: D2 < D1 *)
        assert (Hlt : A2 * 2 ^ (t2 + 1074) * P1 < A1 * 2 ^ (t1 + 1074) * P2).
        { rewrite Hv1, Hv2. rewrite !Z.abs_eq by zlia. znia. }
        pose proof (rounds_mono _ _ _ _ _ _ _ _ Hr2 Hr1 Hlt). zlia.
Qed.

Lemma ord_bounds : forall x, valid_binary x = true -> - 2 ^ 2098 <= ord x <= 2 ^ 2098.
Proof.
  intros [s | s | | s m e] Hv; cbn [ord]; try (destruct s); try zlia.
  - pose proof (valid_gval_bounds _ _ _ Hv). zlia.
  - pose proof (valid_gval_bounds _ _ _ Hv). zlia.
Qed.

(** Below a number whose mantissa is not the least of its binade, the
    numbers are at most its predecessor. *)
Lemma gval_lt_pred : forall m e mc ec,
  valid_binary (S754_finite false m e) = true ->
  valid_binary (S754_finite false mc ec) = true ->
  2 ^ 52 < Zpos mc ->
  gval (Zpos m) e < gval (Zpos mc) ec ->
  gval (Zpos m) e <= gval (Zpos mc - 1) ec.
Proof.
  intros m e mc ec Hv Hc Hmc Hlt.
  apply valid_finite_gridpt in Hv, Hc. destruct Hv as (Hg & _), Hc as (Hgc & _).
  pose proof Hgc as (_ & Hec & _).
  pose proof (pow2_gt0 (ec + 1074) ltac:(lia)) as Hu.
  destruct (grid_below _ _ _ _ Hg Hgc Hlt) as [H | [_ H]]; unfold gval in *; nia.
Qed.

(** ** Consequences for the primitive operations *)

Local Open Scope float_scope.

Lemma Prim2SF_not_nan_valid : forall x s m e,
  Prim2SF x = S754_finite s m e -> valid_binary (S754_finite s m e) = true.
Proof. intros x s m e Hx. rewrite <- Hx. apply Prim2SF_valid. Qed.

(** Dividing by one changes nothing. *)
Lemma div_one : forall x : float, x / 1 = x.
Proof.
  intros x. apply Prim2SF_inj. rewrite div_spec.
  change (Prim2SF 1) with (S754_finite false 4503599627370496 (-52)).
  destruct (Prim2SF x) as [s | s | | s m e] eqn:Hx;
    try reflexivity; try (destruct s; reflexivity).
  pose proof (Prim2SF_not_nan_valid x s m e Hx) as Hv.
  destruct (SFdiv_rounds s m e false 4503599627370496 (-52) Hv eq_refl)
    as (A & P & m2 & t & Hr & Hval & Heq).
  unfold SF64div. rewrite Heq. rewrite xorb_false_r.
  pose proof Hr as (_ & HP & Hg & _).
  destruct (SF_of_rounded_valid s m2 t Hg) as [Hrv Hrn].
  apply ord_eq_finite; try assumption.
  rewrite ord_SF_of_rounded by exact Hg.
  assert (Hgv : gval m2 t = gval (Zpos m) e).
  { apply (rounds_exact A P m2 t (Zpos m) e Hr); [apply valid_finite_gridpt in Hv; apply Hv |].
    change (gval 4503599627370496 (-52)) with (2 ^ 1074)%Z in Hval.
    pose proof (pow2_gt0 1074 ltac:(zlia)). znia. }
  pose proof (valid_gval_bounds s m e Hv) as Bv.
  rewrite Hgv, Z.min_l by zlia. reflexivity.
Qed.

(** Adding to [+0] changes nothing, except that [0 + -0] is [+0]. *)
Lemma add_zero_l : forall x : float, 0 + x = x \/ (x = neg_zero /\ 0 + x = 0).
Proof.
  intros x. pose proof (add_spec 0 x) as Hadd.
  change (Prim2SF 0) with (S754_zero false) in Hadd.
  destruct (Prim2SF x) as [[|] | sg | | sg m e] eqn:Hs; cbn in Hadd.
  - right. split; apply Prim2SF_inj; [rewrite Hs | rewrite Hadd]; reflexivity.
  - left. apply Prim2SF_inj. congruence.
  - left. apply Prim2SF_inj. congruence.
  - left. apply Prim2SF_inj. congruence.
  - left. apply Prim2SF_inj. congruence.
Qed.

(** The comparison [x <? y] on numbers that are not NaN. *)
Lemma ltb_ord : forall x y : float,
  Prim2SF x <> S754_nan -> Prim2SF y <> S754_nan ->
  (x <? y) = (ord (Prim2SF x) <? ord (Prim2SF y))%Z.
Proof.
  intros x y Hx Hy. rewrite ltb_spec. unfold SFltb.
  rewrite SFcompare_ord by (try apply Prim2SF_valid; assumption).
  unfold Z.ltb. reflexivity.
Qed.

(** One and a half times a number that is not negative is not below it. *)
Lemma mul_three_halves_not_below : forall x : float,
  (x <? 0) = false -> (x * 1.5 <? x) = false.
Proof.
  intros x Hpos. rewrite ltb_spec in Hpos |- *. rewrite mul_spec.
  change (Prim2SF 0) with (S754_zero false) in Hpos.
  change (Prim2SF 1.5) with (S754_finite false 6755399441055744 (-52)).
  destruct (Prim2SF x) as [s | s | | s m e] eqn:Hx;
    try reflexivity; try (destruct s; try discriminate; reflexivity).
  destruct s; [discriminate |].
  pose proof (Prim2SF_not_nan_valid x false m e Hx) as Hv.
  destruct (SFmul_rounds false m e false 6755399441055744 (-52) Hv eq_refl)
    as (m2 & t & Ht & Hr & Heq).
  unfold SF64mul. rewrite Heq. cbn [xorb].
  pose proof Hr as (_ & HP & Hg & _).
  destruct (SF_of_rounded_valid false m2 t Hg) as [Hrv Hrn].
  unfold SFltb. rewrite SFcompare_ord by (try assumption; discriminate).
  rewrite ord_SF_of_rounded by exact Hg. cbn [ord].
  pose proof (valid_gval_bounds false m e Hv) as Bv.
  assert (Hge : (gval (Zpos m) e <= gval m2 t)%Z).
  { apply (rounds_ge _ _ _ _ _ _ Hr); [apply valid_finite_gridpt in Hv; apply Hv |].
    unfold gval. apply valid_finite_gridpt in Hv. destruct Hv as ((_ & He & _) & _).
    destruct Hg as (_ & Ht0 & _).
    assert (Hpow : (2 ^ (e + 1074) * 2 ^ (t - (e + -52)) = 2 ^ 52 * 2 ^ (t + 1074))%Z).
    { rewrite !pow2_add by zlia. f_equal. zlia. }
    pose proof (pow2_gt0 (t + 1074) ltac:(zlia)).
    transitivity (Zpos m * (2 ^ (e + 1074) * 2 ^ (t - (e + -52))))%Z; [zlia |].
    rewrite Hpow. change (2 ^ 52)%Z with 4503599627370496%Z. znia. }
  destruct (Z.compare_spec (Z.min (gval m2 t) (2 ^ 2098)) (gval (Zpos m) e)) as [H | H | H];
    try reflexivity.
  zlia.
Qed.

(** The sign of a rounded result is the sign it is given. *)
Lemma binary_round_aux_sign : forall sx m e l,
  match binary_round_aux prec emax sx m e l with
  | S754_zero s | S754_infinity s | S754_finite s _ _ => s = sx
  | S754_nan => True
  end.
Proof.
  intros sx m e l. unfold binary_round_aux.
  destruct (shr_fexp prec emax m e l) as [mrs e1].
  destruct (shr_fexp prec emax _ e1 loc_Exact) as [mrs' e2].
  destruct (shr_m mrs') as [| p | p]; try reflexivity.
  destruct (e2 <=? emax - prec)%Z; reflexivity.
Qed.

Lemma binary_normalize_sign : forall m e, (0 <= m)%Z ->
  match binary_normalize prec emax m e false with
  | S754_zero s | S754_infinity s | S754_finite s _ _ => s = false
  | S754_nan => True
  end.
Proof.
  intros [| p | p] e Hm; try lia; [reflexivity |].
  cbn [binary_normalize]. unfold binary_round.
  destruct (shl_align p e _) as [mz ez]. apply binary_round_aux_sign.
Qed.

Lemma add_not_below_zero : forall a b : float,
  (a <? 0) = false -> (b <? 0) = false -> (a + b <? 0) = false.
Proof.
  intros a b Ha Hb. rewrite ltb_spec in *. rewrite add_spec.
  change (Prim2SF 0) with (S754_zero false) in *.
  destruct (Prim2SF a) as [sa | sa | | sa ma ea]; destruct (Prim2SF b) as [sb | sb | | sb mb eb];
    try (destruct sa); try (destruct sb); try discriminate; try reflexivity.
  unfold SF64add. cbn [SFadd cond_Zopp].
  match goal with |- SFltb (binary_normalize _ _ ?m ?e _) _ = _ =>
    pose proof (binary_normalize_sign m e ltac:(lia)) as Hs;
    destruct (binary_normalize prec emax m e false) as [s | s | | s m' e']
  end; try subst s; reflexivity.
Qed.

Lemma div_of_uint63_not_below_zero : forall (a : float) (k : PrimInt63.int),
  (a <? 0) = false -> (a / of_uint63 k <? 0) = false.
Proof.
  intros a k Ha. rewrite ltb_spec in *. rewrite div_spec, of_uint63_spec.
  change (Prim2SF 0) with (S754_zero false) in *.
  pose proof (binary_normalize_sign (Uint63Axioms.to_Z k) 0
                ltac:(apply Uint63.to_Z_bounded)) as Hk.
  destruct (binary_normalize prec emax (Uint63Axioms.to_Z k) 0 false) as [sb | sb | | sb mb eb];
    try subst sb;
    destruct (Prim2SF a) as [sa | sa | | sa ma ea];
    try (destruct sa); try discriminate; try reflexivity.
  unfold SF64div. cbn [SFdiv xorb].
  destruct (SFdiv_core_binary prec emax (Zpos ma) ea (Zpos mb) eb) as [[mz ez] lz].
  pose proof (binary_round_aux_sign false mz ez lz) as Hs.
  destruct (binary_round_aux prec emax false mz ez lz) as [s | s | | s m' e'];
    try subst s; reflexivity.
Qed.

Lemma div_finite_rounded : forall (x y : float) sx mx ex sy my ey,
  Prim2SF x = S754_finite sx mx ex -> Prim2SF y = S754_finite sy my ey ->
  exists m2 t, gridpt m2 t /\ Prim2SF (x / y) = SF_of_rounded (xorb sx sy) m2 t.
Proof.
  intros x y sx mx ex sy my ey Hx Hy. rewrite div_spec, Hx, Hy.
  destruct (SFdiv_rounds sx mx ex sy my ey (Prim2SF_not_nan_valid _ _ _ _ Hx)
              (Prim2SF_not_nan_valid _ _ _ _ Hy)) as (A & P & m2 & t & Hr & _ & Heq).
  exists m2, t. split; [apply Hr | exact Heq].
Qed.

Lemma div_mono : forall (x c y : float) mx ex mc ec my ey,
  Prim2SF x = S754_finite false mx ex ->
  Prim2SF c = S754_finite false mc ec ->
  Prim2SF y = S754_finite false my ey ->
  (ord (Prim2SF x) <= ord (Prim2SF c))%Z ->
  (ord (Prim2SF (x / y)) <= ord (Prim2SF (c / y)))%Z.
Proof.
  intros x c y mx ex mc ec my ey Hx Hc Hy Hle.
  rewrite !div_spec. rewrite Hx, Hc, Hy in *. cbn [ord] in Hle.
  apply SFdiv_mono; try assumption.
  - apply (Prim2SF_not_nan_valid x). exact Hx.
  - apply (Prim2SF_not_nan_valid c). exact Hc.
  - apply (Prim2SF_not_nan_valid y). exact Hy.
Qed.

(** [1 - q] against [1 - c] for a positive finite [c]. *)
Lemma one_minus_le : forall (q c : float) mc ec,
  Prim2SF c = S754_finite false mc ec ->
  Prim2SF q <> S754_nan ->
  (ord (Prim2SF c) <= ord (Prim2SF q))%Z ->
  (ord (Prim2SF (1 - q)) <= ord (Prim2SF (1 - c)))%Z.
Proof.
  intros q c mc ec Hc Hq Hle.
  pose proof (Prim2SF_valid (1 - c)) as Hvc. pose proof (Prim2SF_valid q) as Hvq.
  pose proof (Prim2SF_not_nan_valid c _ _ _ Hc) as Hvc0.
  pose proof (valid_gval_bounds _ _ _ Hvc0) as Bc.
  rewrite sub_spec in Hvc. pose proof (ord_bounds _ Hvc) as Bo.
  rewrite (sub_spec 1 q), (sub_spec 1 c). rewrite Hc in *. cbn [ord] in Hle.
  change (Prim2SF 1) with (S754_finite false 4503599627370496 (-52)) in *.
  destruct (Prim2SF q) as [s | s | | s m e]; try congruence; cbn [ord] in Hle.
  - exfalso. destruct Bc as [Bc _]. clear - Hle Bc. lia.
  - destruct s; [exfalso; destruct Bc as [Bc _]; clear - Hle Bc; lia |].
    change (SF64sub _ (S754_infinity false)) with (S754_infinity true).
    cbn [ord]. destruct Bo as [Bo _]. exact Bo.
  - apply SFsub_anti; try assumption; reflexivity.
Qed.

Lemma one_minus_ge : forall (q c : float) sc mc ec,
  Prim2SF c = S754_finite sc mc ec ->
  Prim2SF q <> S754_nan ->
  (ord (Prim2SF q) <= ord (Prim2SF c))%Z ->
  (ord (Prim2SF (1 - c)) <= ord (Prim2SF 1))%Z ->
  (ord (Prim2SF (1 - c)) <= ord (Prim2SF (1 - q)))%Z.
Proof.
  intros q c sc mc ec Hc Hq Hle Hone.
  pose proof (Prim2SF_valid (1 - c)) as Hvc. pose proof (Prim2SF_valid q) as Hvq.
  pose proof (Prim2SF_not_nan_valid c _ _ _ Hc) as Hvc0.
  pose proof (ord_bounds _ Hvc0) as Bc.
  pose proof (valid_gval_bounds _ _ _ Hvc0) as Bc'.
  rewrite sub_spec in Hvc. pose proof (ord_bounds _ Hvc) as Bo.
  rewrite (sub_spec 1 c) in Hone. rewrite (sub_spec 1 q), (sub_spec 1 c). rewrite Hc in *.
  change (Prim2SF 1) with (S754_finite false 4503599627370496 (-52)) in *.
  destruct (Prim2SF q) as [s | s | | s m e]; try congruence.
  - destruct s; exact Hone.
  - destruct s.
    + change (SF64sub _ (S754_infinity true)) with (S754_infinity false).
      cbn [ord]. destruct Bo as [_ Bo]. exact Bo.
    + exfalso. cbn [ord] in Hle. clear - Hle Bc'. destruct sc; zlia.
  - apply SFsub_anti; try assumption; reflexivity.
Qed.

Lemma Prim2SF_nan_eq : forall x : float, Prim2SF x = S754_nan -> x = nan.
Proof. intros x Hx. rewrite <- (SF2Prim_Prim2SF x), Hx. reflexivity. Qed.

Lemma is_nan_false : forall x : float, Prim2SF x <> S754_nan -> is_nan x = false.
Proof.
  intros x Hx. unfold is_nan. rewrite eqb_spec. unfold SFeqb.
  rewrite SFcompare_ord by (try apply Prim2SF_valid; assumption).
  rewrite Z.compare_refl. reflexivity.
Qed.

Lemma ltb_true_of_ord : forall x y : float,
  Prim2SF x <> S754_nan ->
  (0 <= ord (Prim2SF x) < ord (Prim2SF y))%Z -> (x <? y) = true.
Proof.
  intros x y Hx Hlt.
  assert (Hy : Prim2SF y <> S754_nan) by (intros Hy; rewrite Hy in Hlt; cbn in Hlt; lia).
  rewrite ltb_ord by assumption. apply Z.ltb_lt. lia.
Qed.

Lemma ltb_false_of_ord : forall x y : float,
  Prim2SF x <> S754_nan ->
  (ord (Prim2SF y) <= ord (Prim2SF x))%Z -> (x <? y) = false.
Proof.
  intros x y Hx Hle.
  destruct (Prim2SF y) as [s | s | | s m e] eqn:Hy;
    try (rewrite ltb_ord by (try assumption; rewrite Hy; discriminate);
         rewrite Hy; apply Z.ltb_ge; exact Hle).
  rewrite ltb_spec, Hy. destruct (Prim2SF x); reflexivity.
Qed.

(** Adding [+0] changes nothing, except that [-0 + 0] is [+0]. *)
Lemma add_zero_r : forall s : float,
  s + 0 = s \/ (s = neg_zero /\ s + 0 = 0).
Proof.
  intros s. pose proof (add_spec s 0) as Hadd.
  change (Prim2SF 0) with (S754_zero false) in Hadd.
  destruct (Prim2SF s) as [[|] | sg | | sg m e] eqn:Hs; cbn in Hadd.
  - right. split; apply Prim2SF_inj; [rewrite Hs | rewrite Hadd]; reflexivity.
  - left. apply Prim2SF_inj. congruence.
  - left. apply Prim2SF_inj. congruence.
  - left. apply Prim2SF_inj. congruence.
  - left. apply Prim2SF_inj. congruence.
Qed.

End Binary64Facts.

(** * The order of binary64 numbers and the monotonicity of the operations *)

Module Binary64Order.
Import Binary64 Binary64Facts.
Local Open Scope Z_scope.

(** Closed facts about constants are settled by evaluation. *)
Ltac finite_constant := unfold finite; vm_compute; exact I.
Ltac constant_val := unfold val; vm_compute; first [reflexivity | discriminate].
Ltac constant_lt := unfold val; vm_compute; reflexivity.

Lemma approx_self : forall x, valid_binary x = true -> fin x -> approx (ord x) 1 x.
Proof.
  intros [s | s | | s m e] Hv Hf; try destruct Hf.
  - left. split; [reflexivity | eauto].
  - right. pose proof (valid_gval_bounds s m e Hv) as Bv.
    pose proof (valid_finite_gridpt s m e Hv) as (Hg & Hm & He).
    split; [cbn [ord]; destruct s; lia |].
    exists (Zpos m), 1, (Zpos m), e. split; [| split].
    + destruct Hg as (Hm0 & He0 & Hn). unfold rounds, gridpt. repeat split; try lia.
    + cbn [ord]. unfold gval in *. destruct s; [rewrite Z.abs_neq by lia | rewrite Z.abs_eq by lia]; ring.
    + unfold SF_of_rounded.
      assert (Hs : (ord (S754_finite s m e) <? 0) = s) by (cbn [ord]; destruct s; lia).
      rewrite Hs.
      destruct (Z.eqb_spec (Zpos m) 0); [lia |].
      destruct (Z.ltb_spec (Zpos m) (2 ^ 53)); [| lia].
      destruct (Z.leb_spec e 971); [| lia]. reflexivity.
Qed.

Lemma approx_valid : forall N Q r, approx N Q r ->
  valid_binary r = true /\ r <> S754_nan /\ (r = S754_nan -> False).
Proof.
  intros N Q r [[_ [s ->]] | [_ (A & P & m2 & t & Hr & _ & ->)]].
  - repeat split; discriminate.
  - destruct (SF_of_rounded_valid (N <? 0) m2 t ltac:(apply Hr)) as [Hv Hn].
    repeat split; assumption.
Qed.

Lemma approx_sign : forall N Q r, approx N Q r ->
  (0 <= N -> 0 <= ord r) /\ (N <= 0 -> ord r <= 0).
Proof.
  intros N Q r [[_ [s ->]] | [HN (A & P & m2 & t & Hr & _ & ->)]].
  - cbn [ord]. lia.
  - rewrite ord_SF_of_rounded by apply Hr.
    pose proof (rounds_gval_nonneg _ _ _ _ Hr).
    destruct (Z.ltb_spec N 0); lia.
Qed.

(** Rounding is monotone. *)
Lemma approx_mono : forall N1 Q1 r1 N2 Q2 r2,
  0 < Q1 -> 0 < Q2 ->
  approx N1 Q1 r1 -> approx N2 Q2 r2 ->
  N1 * Q2 < N2 * Q1 ->
  ord r1 <= ord r2.
Proof.
  intros N1 Q1 r1 N2 Q2 r2 HQ1 HQ2 H1 H2 Hlt.
  pose proof (approx_sign _ _ _ H1) as [Hp1 Hn1].
  pose proof (approx_sign _ _ _ H2) as [Hp2 Hn2].
  destruct (Z.lt_trichotomy N1 0) as [Hneg1 | [Hz1 | Hpos1]];
    destruct (Z.lt_trichotomy N2 0) as [Hneg2 | [Hz2 | Hpos2]];
    try (specialize (Hp2 ltac:(zlia)); specialize (Hn1 ltac:(zlia)); zlia);
    try (exfalso; znia).
  - (* both negative *)
    destruct H1 as [[HN _] | [_ (A1 & P1 & m1 & t1 & Hr1 & Hv1 & ->)]]; [zlia |].
    destruct H2 as [[HN _] | [_ (A2 & P2 & m2 & t2 & Hr2 & Hv2 & ->)]]; [zlia |].
    rewrite !ord_SF_of_rounded by (apply Hr1 || apply Hr2).
    assert (Hs1 : (N1 <? 0) = true) by zlia. assert (Hs2 : (N2 <? 0) = true) by zlia.
    rewrite Hs1, Hs2. rewrite Z.abs_neq in Hv1, Hv2 by zlia.
    pose proof Hr1 as (_ & HP1 & _). pose proof Hr2 as (_ & HP2 & _).
    assert (Hc : A2 * 2 ^ (t2 + 1074) * P1 < A1 * 2 ^ (t1 + 1074) * P2).
    { apply (Z.mul_lt_mono_pos_r (Q1 * Q2)); [znia |].
      replace (A2 * 2 ^ (t2 + 1074) * P1 * (Q1 * Q2))
        with ((A2 * 2 ^ (t2 + 1074) * Q2) * (P1 * Q1)) by ring.
      replace (A1 * 2 ^ (t1 + 1074) * P2 * (Q1 * Q2))
        with ((A1 * 2 ^ (t1 + 1074) * Q1) * (P2 * Q2)) by ring.
      rewrite Hv1, Hv2.
      replace (- N2 * P2 * (P1 * Q1)) with ((- (N2 * Q1)) * (P1 * P2)) by ring.
      replace (- N1 * P1 * (P2 * Q2)) with ((- (N1 * Q2)) * (P1 * P2)) by ring.
      apply Z.mul_lt_mono_pos_r; [znia | zlia]. }
    pose proof (rounds_mono _ _ _ _ _ _ _ _ Hr2 Hr1 Hc). zlia.
  - (* both positive *)
    destruct H1 as [[HN _] | [_ (A1 & P1 & m1 & t1 & Hr1 & Hv1 & ->)]]; [zlia |].
    destruct H2 as [[HN _] | [_ (A2 & P2 & m2 & t2 & Hr2 & Hv2 & ->)]]; [zlia |].
    rewrite !ord_SF_of_rounded by (apply Hr1 || apply Hr2).
    assert (Hs1 : (N1 <? 0) = false) by zlia. assert (Hs2 : (N2 <? 0) = false) by zlia.
    rewrite Hs1, Hs2. rewrite Z.abs_eq in Hv1, Hv2 by zlia.
    pose proof Hr1 as (_ & HP1 & _). pose proof Hr2 as (_ & HP2 & _).
    assert (Hc : A1 * 2 ^ (t1 + 1074) * P2 < A2 * 2 ^ (t2 + 1074) * P1).
    { apply (Z.mul_lt_mono_pos_r (Q1 * Q2)); [znia |].
      replace (A2 * 2 ^ (t2 + 1074) * P1 * (Q1 * Q2))
        with ((A2 * 2 ^ (t2 + 1074) * Q2) * (P1 * Q1)) by ring.
      replace (A1 * 2 ^ (t1 + 1074) * P2 * (Q1 * Q2))
        with ((A1 * 2 ^ (t1 + 1074) * Q1) * (P2 * Q2)) by ring.
      rewrite Hv1, Hv2.
      replace (N2 * P2 * (P1 * Q1)) with ((N2 * Q1) * (P1 * P2)) by ring.
      replace (N1 * P1 * (P2 * Q2)) with ((N1 * Q2) * (P1 * P2)) by ring.
      apply Z.mul_lt_mono_pos_r; [znia | zlia]. }
    pose proof (rounds_mono _ _ _ _ _ _ _ _ Hr1 Hr2 Hc). zlia.
Qed.

(** A value that is a number is rounded to it. *)
Lemma approx_exact : forall N Q r y,
  0 < Q -> approx N Q r -> valid_binary y = true -> fin y ->
  N = ord y * Q -> ord r = ord y.
Proof.
  intros N Q r y HQ Hr Hv Hf HN.
  destruct y as [s | s | | s m e]; try destruct Hf.
  - cbn [ord] in *. destruct Hr as [[_ [s' ->]] | [Hnz _]]; [reflexivity | zlia].
  - pose proof (valid_gval_bounds s m e Hv) as Bv.
    pose proof (valid_finite_gridpt s m e Hv) as (Hg & Hm & He).
    destruct Hr as [[Hz _] | [_ (A & P & m2 & t & Hr & Hval & ->)]].
    + exfalso. cbn [ord] in HN. destruct s; znia.
    + rewrite ord_SF_of_rounded by apply Hr.
      pose proof Hr as (_ & HP & _).
      assert (Habs : Z.abs N = gval (Zpos m) e * Q).
      { rewrite HN. cbn [ord]. destruct s; [rewrite Z.abs_neq by znia | rewrite Z.abs_eq by znia]; ring. }
      assert (Hex : A * 2 ^ (t + 1074) = gval (Zpos m) e * P).
      { apply (Z.mul_reg_r _ _ Q); [zlia |]. rewrite Hval, Habs. ring. }
      rewrite (rounds_exact A P m2 t (Zpos m) e Hr Hg Hex).
      assert (Hs : (N <? 0) = s) by (rewrite HN; cbn [ord]; destruct s; [apply Z.ltb_lt | apply Z.ltb_ge]; znia).
      rewrite Hs, Z.min_l by zlia. reflexivity.
Qed.

Lemma approx_le : forall N Q r y,
  0 < Q -> approx N Q r -> valid_binary y = true -> fin y ->
  N <= ord y * Q -> ord r <= ord y.
Proof.
  intros N Q r y HQ Hr Hv Hf HN.
  destruct (Z.eq_dec N (ord y * Q)) as [Heq | Hne].
  - rewrite (approx_exact N Q r y HQ Hr Hv Hf Heq). lia.
  - apply (approx_mono N Q r (ord y) 1 y HQ ltac:(lia) Hr (approx_self y Hv Hf)). lia.
Qed.

Lemma approx_ge : forall N Q r y,
  0 < Q -> approx N Q r -> valid_binary y = true -> fin y ->
  ord y * Q <= N -> ord y <= ord r.
Proof.
  intros N Q r y HQ Hr Hv Hf HN.
  destruct (Z.eq_dec N (ord y * Q)) as [Heq | Hne].
  - rewrite (approx_exact N Q r y HQ Hr Hv Hf Heq). lia.
  - apply (approx_mono (ord y) 1 y N Q r ltac:(lia) HQ (approx_self y Hv Hf) Hr). lia.
Qed.

(** Two finite numbers of the same value are the same, or two zeros. *)
Lemma fin_ord_eq : forall x y,
  valid_binary x = true -> valid_binary y = true -> fin x -> fin y ->
  ord x = ord y ->
  x = y \/ (exists s1 s2, x = S754_zero s1 /\ y = S754_zero s2).
Proof.
  intros x y Hx Hy Hfx Hfy Hord.
  destruct y as [s | s | | s m e]; try destruct Hfy.
  - destruct x as [s' | s' | | s' m' e']; try destruct Hfx.
    + right. eauto.
    + pose proof (valid_gval_bounds s' m' e' Hx). cbn [ord] in Hord. destruct s'; lia.
  - left. apply ord_eq_finite; try assumption.
    destruct x; try destruct Hfx; discriminate.
Qed.

(** *** The four operations on finite numbers *)

Lemma valid_opp : forall s m e,
  valid_binary (S754_finite s m e) = true -> valid_binary (S754_finite (negb s) m e) = true.
Proof. intros s m e H. exact H. Qed.

Lemma SFsub_approx : forall x y,
  valid_binary x = true -> valid_binary y = true -> fin x -> fin y ->
  approx (ord x - ord y) 1 (SFsub prec emax x y).
Proof.
  intros x y Hx Hy Hfx Hfy.
  destruct x as [sx | sx | | sx mx ex]; try destruct Hfx;
    destruct y as [sy | sy | | sy my ey]; try destruct Hfy.
  - left. split; [reflexivity |]. destruct sx, sy; cbn; eauto.
  - replace (ord (S754_zero sx) - ord (S754_finite sy my ey))
      with (ord (S754_finite (negb sy) my ey)) by (cbn [ord]; destruct sy; cbn [negb]; lia).
    apply (approx_self (S754_finite (negb sy) my ey)); [exact Hy | exact I].
  - replace (ord (S754_finite sx mx ex) - ord (S754_zero sy))
      with (ord (S754_finite sx mx ex)) by (cbn [ord]; lia).
    apply (approx_self (S754_finite sx mx ex)); [exact Hx | exact I].
  - destruct (SFsub_rounds sx mx ex sy my ey Hx Hy) as [Hz Hn].
    destruct (Z.eq_dec (ord (S754_finite sx mx ex) - ord (S754_finite sy my ey)) 0) as [H0 | H0].
    + left. split; [exact H0 |]. rewrite (Hz H0). eauto.
    + right. split; [exact H0 |].
      destruct (Hn H0) as (A & P & m2 & t & Hr & Hv & Heq).
      exists A, P, m2, t. split; [exact Hr |]. split; [rewrite Z.mul_1_r; exact Hv | exact Heq].
Qed.

Lemma SFadd_sub_opp : forall sx mx ex sy my ey,
  SFadd prec emax (S754_finite sx mx ex) (S754_finite sy my ey)
  = SFsub prec emax (S754_finite sx mx ex) (S754_finite (negb sy) my ey).
Proof.
  intros. cbn [SFadd SFsub]. f_equal. destruct sy; cbn [negb cond_Zopp]; lia.
Qed.

Lemma SFadd_approx : forall x y,
  valid_binary x = true -> valid_binary y = true -> fin x -> fin y ->
  approx (ord x + ord y) 1 (SFadd prec emax x y).
Proof.
  intros x y Hx Hy Hfx Hfy.
  destruct x as [sx | sx | | sx mx ex]; try destruct Hfx;
    destruct y as [sy | sy | | sy my ey]; try destruct Hfy.
  - left. split; [reflexivity |]. destruct sx, sy; cbn; eauto.
  - replace (ord (S754_zero sx) + ord (S754_finite sy my ey))
      with (ord (S754_finite sy my ey)) by (cbn [ord]; lia).
    apply (approx_self (S754_finite sy my ey)); [exact Hy | exact I].
  - replace (ord (S754_finite sx mx ex) + ord (S754_zero sy))
      with (ord (S754_finite sx mx ex)) by (cbn [ord]; lia).
    apply (approx_self (S754_finite sx mx ex)); [exact Hx | exact I].
  - rewrite SFadd_sub_opp.
    replace (ord (S754_finite sx mx ex) + ord (S754_finite sy my ey))
      with (ord (S754_finite sx mx ex) - ord (S754_finite (negb sy) my ey))
      by (cbn [ord]; destruct sy; cbn [negb]; lia).
    apply SFsub_approx; try assumption; exact I.
Qed.

Lemma SFmul_approx : forall x y,
  valid_binary x = true -> valid_binary y = true -> fin x -> fin y ->
  approx (ord x * ord y) (2 ^ 1074) (SFmul prec emax x y).
Proof.
  intros x y Hx Hy Hfx Hfy.
  destruct x as [sx | sx | | sx mx ex]; try destruct Hfx;
    destruct y as [sy | sy | | sy my ey]; try destruct Hfy.
  1-3: left; split; [cbn [ord]; zlia | cbn; eauto].
  pose proof (valid_gval_bounds _ _ _ Hx) as Bx. pose proof (valid_gval_bounds _ _ _ Hy) as By.
  destruct (SFmul_rounds sx mx ex sy my ey Hx Hy) as (m2 & t & Ht & Hr & Heq).
  right. split; [cbn [ord]; destruct sx, sy; znia |].
  exists (Zpos mx * Zpos my), (2 ^ (t - (ex + ey))), m2, t.
  split; [exact Hr |].
  apply valid_finite_gridpt in Hx, Hy.
  destruct Hx as ((_ & Hex & _) & _), Hy as ((_ & Hey & _) & _).
  pose proof Hr as (_ & _ & (_ & Ht0 & _) & _).
  split.
  - assert (Habs : Z.abs (ord (S754_finite sx mx ex) * ord (S754_finite sy my ey))
                   = gval (Zpos mx) ex * gval (Zpos my) ey).
    { cbn [ord]. destruct sx, sy; [rewrite Z.abs_eq by znia | rewrite Z.abs_neq by znia
                                  | rewrite Z.abs_neq by znia | rewrite Z.abs_eq by znia]; ring. }
    rewrite Habs. unfold gval.
    assert (Hpow : 2 ^ (t + 1074) * 2 ^ 1074
                   = 2 ^ (ex + 1074) * 2 ^ (ey + 1074) * 2 ^ (t - (ex + ey))).
    { rewrite !pow2_add by zlia. f_equal. zlia. }
    transitivity (Zpos mx * Zpos my * (2 ^ (t + 1074) * 2 ^ 1074)); [ring |].
    rewrite Hpow. ring.
  - rewrite Heq. f_equal. cbn [ord]. destruct sx, sy; cbn [xorb]; symmetry;
      [apply Z.ltb_ge | apply Z.ltb_lt | apply Z.ltb_lt | apply Z.ltb_ge]; znia.
Qed.

(** Division by a positive finite number. *)
Lemma SFdiv_approx : forall x my ey,
  valid_binary x = true -> valid_binary (S754_finite false my ey) = true -> fin x ->
  approx (ord x * 2 ^ 1074) (gval (Zpos my) ey) (SFdiv prec emax x (S754_finite false my ey)).
Proof.
  intros x my ey Hx Hy Hfx.
  pose proof (pow2_gt0 1074 ltac:(zlia)) as H1074.
  destruct x as [sx | sx | | sx mx ex]; try destruct Hfx.
  - left. split; [cbn [ord]; zlia | cbn; eauto].
  - pose proof (valid_gval_bounds _ _ _ Hx) as Bx.
    destruct (SFdiv_rounds sx mx ex false my ey Hx Hy) as (A & P & m2 & t & Hr & Hv & Heq).
    right. split; [cbn [ord]; destruct sx; znia |].
    exists A, P, m2, t. split; [exact Hr |]. split.
    + rewrite Hv. cbn [ord]. destruct sx; [rewrite Z.abs_neq by znia | rewrite Z.abs_eq by znia]; ring.
    + rewrite Heq, xorb_false_r. f_equal. cbn [ord]. destruct sx; symmetry;
        [apply Z.ltb_lt | apply Z.ltb_ge]; znia.
Qed.


(** *** Values and comparisons of primitive numbers *)

Lemma not_nan_of_finite : forall x : float, finite x -> Prim2SF x <> S754_nan.
Proof. unfold finite. intros x Hf Hn. rewrite Hn in Hf. exact Hf. Qed.

Lemma leb_val : forall x y : float,
  (x <=? y)%float = true
  <-> Prim2SF x <> S754_nan /\ Prim2SF y <> S754_nan /\ val x <= val y.
Proof.
  intros x y. rewrite leb_spec. unfold SFleb, val.
  destruct (Prim2SF x) as [sx | sx | | sx mx ex] eqn:Hx.
  3: { cbn. split; [discriminate | intros (H & _); congruence]. }
  all: destruct (Prim2SF y) as [sy | sy | | sy my ey] eqn:Hy.
  all: try (cbn [SFcompare]; split; [discriminate | intros (_ & H & _); congruence]).
  all: rewrite <- Hx, <- Hy.
  all: rewrite SFcompare_ord by (try apply Prim2SF_valid; rewrite ?Hx, ?Hy; discriminate).
  all: destruct (Z.compare_spec (ord (Prim2SF x)) (ord (Prim2SF y))) as [H | H | H].
  all: split; try discriminate; try (intros (_ & _ & H'); lia).
  all: intros _; rewrite Hx, Hy; repeat split; try discriminate.
  all: rewrite <- Hx, <- Hy; lia.
Qed.

Lemma ltb_val : forall x y : float,
  (x <? y)%float = true
  <-> Prim2SF x <> S754_nan /\ Prim2SF y <> S754_nan /\ val x < val y.
Proof.
  intros x y. rewrite ltb_spec. unfold SFltb, val.
  destruct (Prim2SF x) as [sx | sx | | sx mx ex] eqn:Hx.
  3: { cbn. split; [discriminate | intros (H & _); congruence]. }
  all: destruct (Prim2SF y) as [sy | sy | | sy my ey] eqn:Hy.
  all: try (cbn [SFcompare]; split; [discriminate | intros (_ & H & _); congruence]).
  all: rewrite <- Hx, <- Hy.
  all: rewrite SFcompare_ord by (try apply Prim2SF_valid; rewrite ?Hx, ?Hy; discriminate).
  all: destruct (Z.compare_spec (ord (Prim2SF x)) (ord (Prim2SF y))) as [H | H | H].
  all: split; try discriminate; try (intros (_ & _ & H'); lia).
  all: intros _; rewrite Hx, Hy; repeat split; try discriminate.
  all: rewrite <- Hx, <- Hy; lia.
Qed.

Lemma val_bounds_of_finite : forall x : float,
  finite x -> - 2 ^ 2098 < val x < 2 ^ 2098.
Proof.
  intros x Hf. unfold finite, val in *. pose proof (Prim2SF_valid x) as Hv.
  destruct (Prim2SF x) as [s | s | | s m e]; try destruct Hf; cbn [ord].
  - split; [apply Z.opp_neg_pos |]; apply pow2_gt0; zlia.
  - pose proof (valid_gval_bounds s m e Hv). destruct s; zlia.
Qed.

Lemma finite_of_val_bounds : forall x : float,
  Prim2SF x <> S754_nan -> - 2 ^ 2098 < val x < 2 ^ 2098 -> finite x.
Proof.
  intros x Hn Hb. unfold finite, val in *.
  destruct (Prim2SF x) as [s | s | | s m e]; try exact I; try congruence.
  cbn [ord] in Hb. destruct s; zlia.
Qed.

Lemma between_val : forall a b x : float,
  between a b x -> Prim2SF x <> S754_nan /\ val a <= val x <= val b.
Proof.
  intros a b x [Ha Hb]. apply leb_val in Ha, Hb. tauto.
Qed.

Lemma between_finite : forall a b x : float,
  finite a -> finite b -> between a b x -> finite x.
Proof.
  intros a b x Ha Hb Hx. apply between_val in Hx. destruct Hx as [Hn Hx].
  apply val_bounds_of_finite in Ha, Hb.
  apply finite_of_val_bounds; [exact Hn | zlia].
Qed.

Lemma between_of_val : forall a b x : float,
  Prim2SF a <> S754_nan -> Prim2SF b <> S754_nan -> Prim2SF x <> S754_nan ->
  val a <= val x <= val b -> between a b x.
Proof.
  intros a b x Ha Hb Hx Hv. split; apply leb_val; tauto.
Qed.

(** *** The operations of primitive numbers *)

Lemma add_approx : forall x y : float, finite x -> finite y ->
  approx (val x + val y) 1 (Prim2SF (x + y)).
Proof.
  intros x y Hx Hy. rewrite add_spec. apply SFadd_approx; try apply Prim2SF_valid; assumption.
Qed.

Lemma sub_approx : forall x y : float, finite x -> finite y ->
  approx (val x - val y) 1 (Prim2SF (x - y)).
Proof.
  intros x y Hx Hy. rewrite sub_spec. apply SFsub_approx; try apply Prim2SF_valid; assumption.
Qed.

Lemma mul_approx : forall x y : float, finite x -> finite y ->
  approx (val x * val y) (2 ^ 1074) (Prim2SF (x * y)).
Proof.
  intros x y Hx Hy. rewrite mul_spec. apply SFmul_approx; try apply Prim2SF_valid; assumption.
Qed.

Lemma pos_finite_cases : forall y : float, finite y -> 0 < val y ->
  exists m e, Prim2SF y = S754_finite false m e /\ val y = gval (Zpos m) e.
Proof.
  intros y Hf Hpos. unfold finite, val in *. pose proof (Prim2SF_valid y) as Hv.
  destruct (Prim2SF y) as [s | s | | s m e]; try destruct Hf; cbn [ord] in *; [lia |].
  pose proof (valid_gval_bounds s m e Hv). destruct s; [lia |]. eauto.
Qed.

Lemma div_approx : forall x y : float, finite x -> finite y -> 0 < val y ->
  approx (val x * 2 ^ 1074) (val y) (Prim2SF (x / y)).
Proof.
  intros x y Hx Hy Hpos. destruct (pos_finite_cases y Hy Hpos) as (m & e & Hy' & Hval).
  pose proof (Prim2SF_valid y) as Hv.
  rewrite div_spec, Hval. rewrite Hy' in *.
  apply SFdiv_approx; try apply Prim2SF_valid; assumption.
Qed.

(** The operations are monotone. *)
Lemma add_val_mono_l : forall x1 x2 y : float, finite x1 -> finite x2 -> finite y ->
  val x1 <= val x2 -> val (x1 + y) <= val (x2 + y).
Proof.
  intros x1 x2 y H1 H2 Hy Hle.
  destruct (Z.eq_dec (val x1) (val x2)) as [Heq | Hne].
  - destruct (fin_ord_eq _ _ (Prim2SF_valid x1) (Prim2SF_valid x2) H1 H2 Heq)
      as [Hsame | (s1 & s2 & Hz1 & Hz2)].
    + apply Prim2SF_inj in Hsame. subst x2. lia.
    + unfold val, finite in *. rewrite !add_spec, Hz1, Hz2.
      destruct (Prim2SF y) as [s | s | | s m e]; try destruct Hy; destruct s1, s2, s; cbn; lia.
  - apply (approx_mono _ 1 _ _ 1 _ ltac:(lia) ltac:(lia)
             (add_approx x1 y H1 Hy) (add_approx x2 y H2 Hy)). lia.
Qed.

Lemma add_val_mono_r : forall x y1 y2 : float, finite x -> finite y1 -> finite y2 ->
  val y1 <= val y2 -> val (x + y1) <= val (x + y2).
Proof.
  intros x y1 y2 Hx H1 H2 Hle.
  destruct (Z.eq_dec (val y1) (val y2)) as [Heq | Hne].
  - destruct (fin_ord_eq _ _ (Prim2SF_valid y1) (Prim2SF_valid y2) H1 H2 Heq)
      as [Hsame | (s1 & s2 & Hz1 & Hz2)].
    + apply Prim2SF_inj in Hsame. subst y2. lia.
    + unfold val, finite in *. rewrite !add_spec, Hz1, Hz2.
      destruct (Prim2SF x) as [s | s | | s m e]; try destruct Hx; destruct s1, s2, s; cbn; lia.
  - apply (approx_mono _ 1 _ _ 1 _ ltac:(lia) ltac:(lia)
             (add_approx x y1 Hx H1) (add_approx x y2 Hx H2)). lia.
Qed.

Lemma sub_val_mono_l : forall x1 x2 y : float, finite x1 -> finite x2 -> finite y ->
  val x1 <= val x2 -> val (x1 - y) <= val (x2 - y).
Proof.
  intros x1 x2 y H1 H2 Hy Hle.
  destruct (Z.eq_dec (val x1) (val x2)) as [Heq | Hne].
  - destruct (fin_ord_eq _ _ (Prim2SF_valid x1) (Prim2SF_valid x2) H1 H2 Heq)
      as [Hsame | (s1 & s2 & Hz1 & Hz2)].
    + apply Prim2SF_inj in Hsame. subst x2. lia.
    + unfold val, finite in *. rewrite !sub_spec, Hz1, Hz2.
      destruct (Prim2SF y) as [s | s | | s m e]; try destruct Hy; destruct s1, s2, s; cbn; lia.
  - apply (approx_mono _ 1 _ _ 1 _ ltac:(lia) ltac:(lia)
             (sub_approx x1 y H1 Hy) (sub_approx x2 y H2 Hy)). lia.
Qed.

Lemma sub_val_anti_r : forall x y1 y2 : float, finite x -> finite y1 -> finite y2 ->
  val y1 <= val y2 -> val (x - y2) <= val (x - y1).
Proof.
  intros x y1 y2 Hx H1 H2 Hle.
  destruct (Z.eq_dec (val y1) (val y2)) as [Heq | Hne].
  - destruct (fin_ord_eq _ _ (Prim2SF_valid y1) (Prim2SF_valid y2) H1 H2 Heq)
      as [Hsame | (s1 & s2 & Hz1 & Hz2)].
    + apply Prim2SF_inj in Hsame. subst y2. lia.
    + unfold val, finite in *. rewrite !sub_spec, Hz1, Hz2.
      destruct (Prim2SF x) as [s | s | | s m e]; try destruct Hx; destruct s1, s2, s; cbn; lia.
  - apply (approx_mono _ 1 _ _ 1 _ ltac:(lia) ltac:(lia)
             (sub_approx x y2 Hx H2) (sub_approx x y1 Hx H1)). lia.
Qed.

Lemma mul_zero_val_r : forall x y : float, finite x -> finite y -> val y = 0 -> val (x * y) = 0.
Proof.
  intros x y Hx Hy H0. pose proof (mul_approx x y Hx Hy) as Ha. rewrite H0, Z.mul_0_r in Ha.
  destruct Ha as [[_ [s Hs]] | [Hn _]]; [| lia]. unfold val. rewrite Hs. reflexivity.
Qed.

Lemma mul_zero_val_l : forall x y : float, finite x -> finite y -> val x = 0 -> val (x * y) = 0.
Proof.
  intros x y Hx Hy H0. pose proof (mul_approx x y Hx Hy) as Ha. rewrite H0, Z.mul_0_l in Ha.
  destruct Ha as [[_ [s Hs]] | [Hn _]]; [| lia]. unfold val. rewrite Hs. reflexivity.
Qed.

Lemma mul_val_mono_l : forall x1 x2 y : float, finite x1 -> finite x2 -> finite y ->
  0 <= val y -> val x1 <= val x2 -> val (x1 * y) <= val (x2 * y).
Proof.
  intros x1 x2 y H1 H2 Hy Hpos Hle.
  destruct (Z.eq_dec (val y) 0) as [Hy0 | Hy0].
  { rewrite !mul_zero_val_r by assumption. lia. }
  destruct (Z.eq_dec (val x1) (val x2)) as [Heq | Hne].
  - destruct (fin_ord_eq _ _ (Prim2SF_valid x1) (Prim2SF_valid x2) H1 H2 Heq)
      as [Hsame | (s1 & s2 & Hz1 & Hz2)].
    + apply Prim2SF_inj in Hsame. subst x2. lia.
    + rewrite !mul_zero_val_l; try assumption; try lia; unfold val; rewrite ?Hz1, ?Hz2; reflexivity.
  - pose proof (pow2_gt0 1074 ltac:(lia)).
    apply (approx_mono _ (2 ^ 1074) _ _ (2 ^ 1074) _ ltac:(lia) ltac:(lia)
             (mul_approx x1 y H1 Hy) (mul_approx x2 y H2 Hy)).
    apply Z.mul_lt_mono_pos_r; [lia |]. apply Z.mul_lt_mono_pos_r; lia.
Qed.

Lemma mul_val_mono_r : forall x y1 y2 : float, finite x -> finite y1 -> finite y2 ->
  0 <= val x -> val y1 <= val y2 -> val (x * y1) <= val (x * y2).
Proof.
  intros x y1 y2 Hx H1 H2 Hpos Hle.
  destruct (Z.eq_dec (val x) 0) as [Hx0 | Hx0].
  { rewrite !mul_zero_val_l by assumption. lia. }
  destruct (Z.eq_dec (val y1) (val y2)) as [Heq | Hne].
  - destruct (fin_ord_eq _ _ (Prim2SF_valid y1) (Prim2SF_valid y2) H1 H2 Heq)
      as [Hsame | (s1 & s2 & Hz1 & Hz2)].
    + apply Prim2SF_inj in Hsame. subst y2. lia.
    + rewrite !mul_zero_val_r; try assumption; try lia; unfold val; rewrite ?Hz1, ?Hz2; reflexivity.
  - pose proof (pow2_gt0 1074 ltac:(lia)).
    apply (approx_mono _ (2 ^ 1074) _ _ (2 ^ 1074) _ ltac:(lia) ltac:(lia)
             (mul_approx x y1 Hx H1) (mul_approx x y2 Hx H2)).
    apply Z.mul_lt_mono_pos_r; [lia |]. apply Z.mul_lt_mono_pos_l; lia.
Qed.

Lemma div_val_mono_l : forall x1 x2 y : float, finite x1 -> finite x2 -> finite y ->
  0 < val y -> val x1 <= val x2 -> val (x1 / y) <= val (x2 / y).
Proof.
  intros x1 x2 y H1 H2 Hy Hpos Hle.
  destruct (Z.eq_dec (val x1) (val x2)) as [Heq | Hne].
  - destruct (fin_ord_eq _ _ (Prim2SF_valid x1) (Prim2SF_valid x2) H1 H2 Heq)
      as [Hsame | (s1 & s2 & Hz1 & Hz2)].
    + apply Prim2SF_inj in Hsame. subst x2. lia.
    + destruct (pos_finite_cases y Hy Hpos) as (m & e & Hy' & _).
      unfold val. rewrite !div_spec, Hz1, Hz2, Hy'. cbn. lia.
  - pose proof (pow2_gt0 1074 ltac:(lia)).
    apply (approx_mono _ (val y) _ _ (val y) _ Hpos Hpos
             (div_approx x1 y H1 Hy Hpos) (div_approx x2 y H2 Hy Hpos)).
    apply Z.mul_lt_mono_pos_r; [lia |]. apply Z.mul_lt_mono_pos_r; lia.
Qed.

Lemma result_not_nan : forall N Q (x : float), approx N Q (Prim2SF x) -> Prim2SF x <> S754_nan.
Proof. intros N Q x H. apply (approx_valid _ _ _ H). Qed.

(** *** Intervals *)

Lemma add_between : forall a b c d x y : float,
  finite a -> finite b -> finite c -> finite d ->
  between a b x -> between c d y ->
  between (a + c) (b + d) (x + y).
Proof.
  intros a b c d x y Ha Hb Hc Hd Hx Hy.
  pose proof (between_finite _ _ _ Ha Hb Hx) as Hfx.
  pose proof (between_finite _ _ _ Hc Hd Hy) as Hfy.
  apply between_val in Hx, Hy. destruct Hx as [_ Hx], Hy as [_ Hy].
  apply between_of_val; try (eapply result_not_nan; apply add_approx; assumption).
  pose proof (add_val_mono_l a x c Ha Hfx Hc ltac:(lia)).
  pose proof (add_val_mono_r x c y Hfx Hc Hfy ltac:(lia)).
  pose proof (add_val_mono_l x b y Hfx Hb Hfy ltac:(lia)).
  pose proof (add_val_mono_r b y d Hb Hfy Hd ltac:(lia)).
  lia.
Qed.

Lemma sub_between : forall a b c d x y : float,
  finite a -> finite b -> finite c -> finite d ->
  between a b x -> between c d y ->
  between (a - d) (b - c) (x - y).
Proof.
  intros a b c d x y Ha Hb Hc Hd Hx Hy.
  pose proof (between_finite _ _ _ Ha Hb Hx) as Hfx.
  pose proof (between_finite _ _ _ Hc Hd Hy) as Hfy.
  apply between_val in Hx, Hy. destruct Hx as [_ Hx], Hy as [_ Hy].
  apply between_of_val; try (eapply result_not_nan; apply sub_approx; assumption).
  pose proof (sub_val_mono_l a x d Ha Hfx Hd ltac:(lia)).
  pose proof (sub_val_anti_r x y d Hfx Hfy Hd ltac:(lia)).
  pose proof (sub_val_mono_l x b y Hfx Hb Hfy ltac:(lia)).
  pose proof (sub_val_anti_r b c y Hb Hc Hfy ltac:(lia)).
  lia.
Qed.

(** Products of numbers that are not negative. *)
Lemma mul_between : forall a b c d x y : float,
  finite a -> finite b -> finite c -> finite d ->
  0 <= val a -> 0 <= val c ->
  between a b x -> between c d y ->
  between (a * c) (b * d) (x * y).
Proof.
  intros a b c d x y Ha Hb Hc Hd Ha0 Hc0 Hx Hy.
  pose proof (between_finite _ _ _ Ha Hb Hx) as Hfx.
  pose proof (between_finite _ _ _ Hc Hd Hy) as Hfy.
  apply between_val in Hx, Hy. destruct Hx as [_ Hx], Hy as [_ Hy].
  apply between_of_val; try (eapply result_not_nan; apply mul_approx; assumption).
  pose proof (mul_val_mono_l a x c Ha Hfx Hc ltac:(lia) ltac:(lia)).
  pose proof (mul_val_mono_r x c y Hfx Hc Hfy ltac:(lia) ltac:(lia)).
  pose proof (mul_val_mono_l x b y Hfx Hb Hfy ltac:(lia) ltac:(lia)).
  pose proof (mul_val_mono_r b y d Hb Hfy Hd ltac:(lia) ltac:(lia)).
  lia.
Qed.

(** A product with a constant that is not negative. *)
Lemma mul_between_l : forall a b x k : float,
  finite a -> finite b -> finite k -> 0 <= val k ->
  between a b x -> between (a * k) (b * k) (x * k).
Proof.
  intros a b x k Ha Hb Hk Hk0 Hx.
  pose proof (between_finite _ _ _ Ha Hb Hx) as Hfx.
  apply between_val in Hx. destruct Hx as [_ Hx].
  apply between_of_val; try (eapply result_not_nan; apply mul_approx; assumption).
  pose proof (mul_val_mono_l a x k Ha Hfx Hk Hk0 ltac:(lia)).
  pose proof (mul_val_mono_l x b k Hfx Hb Hk Hk0 ltac:(lia)).
  lia.
Qed.

(** A quotient by a positive constant. *)
Lemma div_between : forall a b x k : float,
  finite a -> finite b -> finite k -> 0 < val k ->
  between a b x -> between (a / k) (b / k) (x / k).
Proof.
  intros a b x k Ha Hb Hk Hk0 Hx.
  pose proof (between_finite _ _ _ Ha Hb Hx) as Hfx.
  apply between_val in Hx. destruct Hx as [_ Hx].
  apply between_of_val; try (eapply result_not_nan; apply div_approx; assumption).
  pose proof (div_val_mono_l a x k Ha Hfx Hk Hk0 ltac:(lia)).
  pose proof (div_val_mono_l x b k Hfx Hb Hk Hk0 ltac:(lia)).
  lia.
Qed.

Lemma between_refl : forall x : float, Prim2SF x <> S754_nan -> between x x x.
Proof. intros x Hn. apply between_of_val; try assumption. lia. Qed.


(** *** Exact results *)

(** A mantissa below [2 ^ 53] at an exponent in range is a number. *)
Lemma repr_exists : forall r e, 0 <= r < 2 ^ 53 -> -1074 <= e <= 971 ->
  exists y, valid_binary y = true /\ fin y /\ ord y = r * 2 ^ (e + 1074).
Proof.
  intros r e Hr He.
  destruct (Z.eq_dec r 0) as [-> | Hr0].
  { exists (S754_zero false). repeat split. }
  set (d := Zdigits2 r).
  pose proof (Zdigits2_bounds r ltac:(zlia)) as [Hlo Hhi]. fold d in Hlo, Hhi.
  assert (Hd1 : 1 <= d) by (subst d; destruct r; cbn; zlia).
  assert (Hd53 : d <= 53).
  { destruct (Z.le_gt_cases d 53) as [H | H]; [exact H | exfalso].
    assert (2 ^ 53 <= 2 ^ (d - 1)) by (apply Z.pow_le_mono_r; zlia). zlia. }
  set (k := Z.min (53 - d) (e + 1074)).
  assert (Hk : 0 <= k) by (subst k; zlia).
  pose proof (pow2_gt0 k Hk) as H2k.
  assert (Hlt : r * 2 ^ k < 2 ^ 53).
  { assert (2 ^ k <= 2 ^ (53 - d)) by (apply Z.pow_le_mono_r; subst k; zlia).
    assert (2 ^ d * 2 ^ (53 - d) = 2 ^ 53) by (rewrite pow2_add by zlia; f_equal; zlia).
    znia. }
  assert (Hg : gridpt (r * 2 ^ k) (e - k)).
  { unfold gridpt. split; [| split].
    - split; [znia | zlia].
    - subst k. zlia.
    - destruct (Z.le_gt_cases (53 - d) (e + 1074)) as [H | H].
      + right. replace k with (53 - d) by (subst k; zlia).
        assert (2 ^ (d - 1) * 2 ^ (53 - d) = 2 ^ 52) by (rewrite pow2_add by zlia; f_equal; zlia).
        pose proof (pow2_gt0 (53 - d) ltac:(zlia)). znia.
      + left. subst k. zlia. }
  exists (SF_of_rounded false (r * 2 ^ k) (e - k)).
  destruct (SF_of_rounded_valid false _ _ Hg) as [Hv _]. split; [exact Hv |].
  split.
  - unfold SF_of_rounded.
    destruct (Z.eqb_spec (r * 2 ^ k) 0); [exact I |].
    destruct (Z.ltb_spec (r * 2 ^ k) (2 ^ 53)); [| zlia].
    destruct (Z.leb_spec (e - k) 971); [exact I | zlia].
  - rewrite ord_SF_of_rounded by exact Hg. unfold gval.
    assert (Hpow : 2 ^ k * 2 ^ (e - k + 1074) = 2 ^ (e + 1074))
      by (rewrite pow2_add by zlia; f_equal; zlia).
    rewrite <- Z.mul_assoc, Hpow.
    assert (2 ^ (e + 1074) <= 2 ^ 2045) by (apply Z.pow_le_mono_r; zlia).
    pose proof (pow2_gt0 (e + 1074) ltac:(zlia)).
    rewrite Z.min_l; [reflexivity |].
    change (2 ^ 2098) with (2 ^ 53 * 2 ^ 2045). znia.
Qed.

(** The integers up to [2 ^ 53] are numbers. *)
Lemma repr_exists_int : forall n, 0 <= n <= 2 ^ 53 ->
  exists y, valid_binary y = true /\ fin y /\ ord y = n * 2 ^ 1074.
Proof.
  intros n Hn. destruct (Z.eq_dec n (2 ^ 53)) as [-> | Hne].
  - destruct (repr_exists (2 ^ 52) 1 ltac:(lia) ltac:(lia)) as (y & Hv & Hf & Hy).
    exists y. split; [exact Hv |]. split; [exact Hf |]. rewrite Hy. reflexivity.
  - apply (repr_exists n 0); lia.
Qed.

Lemma binary_normalize_approx : forall m e, -1074 <= e ->
  approx (m * 2 ^ (e + 1074)) 1 (binary_normalize prec emax m e false).
Proof.
  intros m e He. pose proof (pow2_gt0 (e + 1074) ltac:(lia)) as Hu.
  destruct m as [| p | p]; cbn [binary_normalize].
  - left. split; [reflexivity | eauto].
  - destruct (binary_round_rounds false p e He) as (A & P & m2 & t & Hr & Hv & Heq).
    right. split; [nia |]. exists A, P, m2, t. split; [exact Hr |]. split.
    + rewrite Z.mul_1_r, Hv. unfold gval. rewrite Z.abs_eq by nia. reflexivity.
    + rewrite Heq. f_equal. symmetry. apply Z.ltb_ge. nia.
  - destruct (binary_round_rounds true p e He) as (A & P & m2 & t & Hr & Hv & Heq).
    right. split; [nia |]. exists A, P, m2, t. split; [exact Hr |]. split.
    + rewrite Z.mul_1_r, Hv. unfold gval. rewrite Z.abs_neq by nia.
      rewrite <- Z.mul_opp_l. reflexivity.
    + rewrite Heq. f_equal. symmetry. apply Z.ltb_lt. nia.
Qed.

Lemma finite_of_approx : forall N Q (x : float),
  approx N Q (Prim2SF x) -> - 2 ^ 2098 < val x < 2 ^ 2098 -> finite x.
Proof.
  intros N Q x Ha Hb. apply finite_of_val_bounds; [| exact Hb]. apply (approx_valid _ _ _ Ha).
Qed.

(** The conversion of an integer up to [2 ^ 53] is exact. *)
Lemma of_uint63_val : forall n : Z, 0 <= n <= 2 ^ 53 ->
  finite (of_uint63 (Uint63.of_Z n)) /\ val (of_uint63 (Uint63.of_Z n)) = n * 2 ^ 1074.
Proof.
  intros n Hn.
  assert (Hto : Uint63Axioms.to_Z (Uint63.of_Z n) = n).
  { rewrite Uint63.of_Z_spec. apply Z.mod_small. change Uint63.wB with (2 ^ 63).
    assert (2 ^ 53 < 2 ^ 63) by (apply Z.pow_lt_mono_r; zlia). zlia. }
  pose proof (binary_normalize_approx n 0 ltac:(zlia)) as Ha.
  rewrite <- Hto in Ha at 2. rewrite <- of_uint63_spec in Ha.
  destruct (repr_exists_int n Hn) as (y & Hv & Hf & Hy).
  pose proof (approx_exact _ 1 _ y ltac:(zlia) Ha Hv Hf
                ltac:(change (0 + 1074) with 1074; zlia)) as He.
  fold (val (of_uint63 (Uint63.of_Z n))) in He.
  assert (Hval : val (of_uint63 (Uint63.of_Z n)) = n * 2 ^ 1074) by zlia.
  split; [| exact Hval].
  apply (finite_of_approx _ _ _ Ha). rewrite Hval.
  change (2 ^ 2098) with (2 ^ 1024 * 2 ^ 1074).
  pose proof (pow2_gt0 1074 ltac:(zlia)).
  assert (2 ^ 53 < 2 ^ 1024) by (apply Z.pow_lt_mono_r; zlia). znia.
Qed.

(** Two finite numbers of the same value that is not zero are equal. *)
Lemma val_inj : forall x y : float, finite x -> finite y ->
  val x = val y -> val x <> 0 -> x = y.
Proof.
  intros x y Hx Hy Heq Hnz.
  destruct (fin_ord_eq _ _ (Prim2SF_valid x) (Prim2SF_valid y) Hx Hy Heq)
    as [Hsame | (s1 & s2 & Hz1 & Hz2)].
  - apply Prim2SF_inj. exact Hsame.
  - exfalso. unfold val in Hnz. rewrite Hz1 in Hnz. apply Hnz. reflexivity.
Qed.


(** *** The neighbours of a number *)

(** Below a number whose mantissa is not the least of its binade, the
    finite numbers are at most its predecessor. *)
Lemma val_lt_pred : forall (x c p : float) (mc : positive) (ec : Z),
  Prim2SF c = S754_finite false mc ec -> 2 ^ 52 < Zpos mc ->
  Prim2SF p = S754_finite false (mc - 1) ec ->
  finite x -> val x < val c -> val x <= val p.
Proof.
  intros x c p mc ec Hc Hmc Hp Hf Hlt.
  pose proof (Prim2SF_valid x) as Hvx. pose proof (Prim2SF_valid c) as Hvc.
  pose proof (Prim2SF_valid p) as Hvp.
  unfold val, finite in *. rewrite Hc in *. rewrite Hp in *.
  pose proof (valid_gval_bounds _ _ _ Hvp) as Bp. cbn [ord] in *.
  destruct (Prim2SF x) as [s | s | | s m e]; try destruct Hf; cbn [ord] in *; [lia |].
  pose proof (valid_gval_bounds _ _ _ Hvx) as Bx.
  destruct s; [lia |].
  pose proof (gval_lt_pred m e mc ec Hvx Hvc Hmc Hlt) as Hle.
  replace (Zpos (mc - 1)) with (Zpos mc - 1) by lia. exact Hle.
Qed.

(** Below a power of two, the finite numbers are at most its predecessor,
    which lies in the binade below. *)
Lemma val_lt_pred_pow2 : forall (x c p : float) (ec : Z),
  Prim2SF c = S754_finite false 4503599627370496 ec -> -1074 < ec ->
  Prim2SF p = S754_finite false 9007199254740991 (ec - 1) ->
  finite x -> val x < val c -> val x <= val p.
Proof.
  intros x c p ec Hc Hec Hp Hf Hlt.
  pose proof (Prim2SF_valid x) as Hvx.
  unfold val, finite in *. rewrite Hc in *. rewrite Hp in *. cbn [ord] in *.
  pose proof (pow2_gt0 (ec - 1 + 1074) ltac:(zlia)) as Hu.
  assert (Hsplit : 2 ^ (ec + 1074) = 2 * 2 ^ (ec - 1 + 1074)).
  { replace (ec + 1074) with (ec - 1 + 1074 + 1) by zlia.
    rewrite <- pow2_add, Z.pow_1_r by zlia. ring. }
  unfold gval in *. rewrite Hsplit in Hlt.
  destruct (Prim2SF x) as [s | s | | s m e]; try destruct Hf; cbn [ord] in *; [znia |].
  pose proof (valid_gval_bounds _ _ _ Hvx) as Bx.
  destruct s; [unfold gval in *; znia |].
  apply valid_finite_gridpt in Hvx. destruct Hvx as ((_ & He & Hn) & Hm & _).
  unfold gval in *.
  destruct (Z.le_gt_cases e (ec - 1)) as [Hle | Hgt].
  - assert (2 ^ (e + 1074) <= 2 ^ (ec - 1 + 1074)) by (apply Z.pow_le_mono_r; zlia).
    pose proof (pow2_gt0 (e + 1074) ltac:(zlia)). znia.
  - exfalso. destruct Hn as [H | H]; [zlia |].
    assert (2 ^ (ec + 1074) <= 2 ^ (e + 1074)) by (apply Z.pow_le_mono_r; zlia).
    rewrite Hsplit in *. change (2 ^ 52) with 4503599627370496 in H. znia.
Qed.

(** Every finite number is at least the least finite number. *)
Lemma val_max_bounds : forall x : float, finite x ->
  val (- 0x1.fffffffffffffp+1023) <= val x <= val 0x1.fffffffffffffp+1023.
Proof.
  intros x Hf. unfold finite, val in *. pose proof (Prim2SF_valid x) as Hv.
  replace (ord (Prim2SF 0x1.fffffffffffffp+1023)) with ((2 ^ 53 - 1) * 2 ^ 2045)
    by (vm_compute; reflexivity).
  replace (ord (Prim2SF (- 0x1.fffffffffffffp+1023))) with (- ((2 ^ 53 - 1) * 2 ^ 2045))
    by (vm_compute; reflexivity).
  pose proof (pow2_gt0 2045 ltac:(zlia)) as H2045.
  destruct (Prim2SF x) as [s | s | | s m e]; try destruct Hf; cbn [ord].
  - znia.
  - pose proof (valid_gval_bounds s m e Hv) as Bv.
    apply valid_finite_gridpt in Hv. destruct Hv as ((_ & He & _) & Hm & He').
    unfold gval in *.
    assert (2 ^ (e + 1074) <= 2 ^ 2045) by (apply Z.pow_le_mono_r; zlia).
    pose proof (pow2_gt0 (e + 1074) ltac:(zlia)). destruct s; znia.
Qed.

(** A quotient by a constant whose quotients of the extreme finite numbers
    are finite is finite. *)
Lemma div_finite : forall x k : float, finite x -> finite k -> 0 < val k ->
  finite (- 0x1.fffffffffffffp+1023 / k) -> finite (0x1.fffffffffffffp+1023 / k) ->
  finite (x / k).
Proof.
  intros x k Hx Hk Hpos Hlo Hhi.
  pose proof (val_max_bounds x Hx) as [Hb1 Hb2].
  assert (Hfmax : finite 0x1.fffffffffffffp+1023) by (unfold finite; vm_compute; exact I).
  assert (Hfmin : finite (- 0x1.fffffffffffffp+1023)) by (unfold finite; vm_compute; exact I).
  pose proof (div_val_mono_l _ _ k Hfmin Hx Hk Hpos Hb1).
  pose proof (div_val_mono_l _ _ k Hx Hfmax Hk Hpos Hb2).
  apply val_bounds_of_finite in Hlo, Hhi.
  apply (finite_of_approx _ _ _ (div_approx x k Hx Hk Hpos)). zlia.
Qed.

End Binary64Order.
(** * Properties of the beat detector *)

Module DetectorFacts.
Import JS AudioParse.

Lemma pushEnergy_length : forall history energy,
  (length (pushEnergy history energy) <= Nat.max 8 (length history))%nat.
Proof.
  intros history energy. unfold pushEnergy.
  destruct (Nat.ltb_spec 8 (length (history ++ [energy]))) as [Hlt | Hle].
  - destruct history as [| h0 history']; cbn [app tl length] in *;
      rewrite ?length_app in *; cbn [length] in *; lia.
  - lia.
Qed.

Lemma pushEnergy_bounded : forall history energy,
  (length history <= 8)%nat -> (length (pushEnergy history energy) <= 8)%nat.
Proof.
  intros history energy Hlen.
  pose proof (pushEnergy_length history energy). lia.
Qed.

Lemma detectBeat_history : forall data now st,
  beatHistory (snd (detectBeat data now st))
  = pushEnergy (beatHistory st) (averageRange data 0 10).
Proof.
  intros data now st. unfold detectBeat.
  destruct (gtb _ _ && _); reflexivity.
Qed.

Lemma runDetector_bounded : forall calls st,
  (length (beatHistory st) <= 8)%nat ->
  Forall (fun r => (length (beatHistory (snd r)) <= 8)%nat) (runDetector calls st).
Proof.
  induction calls as [| [data now] rest IH]; intros st Hst; simpl.
  - constructor.
  - assert (Hnext : (length (beatHistory (snd (detectBeat data now st))) <= 8)%nat)
      by (rewrite detectBeat_history; apply pushEnergy_bounded; exact Hst).
    constructor; [exact Hnext | apply IH; exact Hnext].
Qed.

(** What a call returns and stores, by the two conditions of the test. *)
Lemma detectBeat_cases : forall data now st,
  let currentEnergy := averageRange data 0 10 in
  let history := pushEnergy (beatHistory st) currentEnergy in
  let avgEnergy := sum history / of_nat (length history) in
  let r := detectBeat data now st in
  (fst r = true <->
   gtb currentEnergy (avgEnergy * 1.5) = true /\ (now - lastBeatTime st > 250)%Z)
  /\ lastBeatTime (snd r) = (if fst r then now else lastBeatTime st).
Proof.
  intros data now st. cbv zeta. unfold detectBeat.
  destruct (gtb (averageRange data 0 10) _) eqn:Hspike;
    destruct (Z.ltb_spec 250 (now - lastBeatTime st)) as [Hlate | Hearly];
    simpl; (split; [| reflexivity]).
  - split; [intros _; split; [reflexivity | lia] | reflexivity].
  - split; [discriminate | intros [_ Hl]; lia].
  - split; [discriminate | intros [Hs _]; discriminate].
  - split; [discriminate | intros [Hs _]; discriminate].
Qed.

(** C1. A call of the detector pushes the current energy (the mean of
    bins 0..10) on the history and takes the rolling mean over the new
    history; it reports a beat exactly when the current energy exceeds 1.5
    times that mean and more than 250 ms have passed since the last beat.
    When it reports a beat it stores [now] as the time of the last beat,
    and otherwise it leaves the stored time as it was. *)
Theorem detectBeat_reports_beat_iff : forall data now st,
  let currentEnergy := averageRange data 0 10 in
  let history := pushEnergy (beatHistory st) currentEnergy in
  let avgEnergy := sum history / of_nat (length history) in
  let r := detectBeat data now st in
  beatHistory (snd r) = history
  /\ (fst r = true <->
      gtb currentEnergy (avgEnergy * 1.5) = true /\ (now - lastBeatTime st > 250)%Z)
  /\ lastBeatTime (snd r) = (if fst r then now else lastBeatTime st).
Proof.
  intros data now st. cbv zeta.
  split; [apply detectBeat_history | apply detectBeat_cases].
Qed.

(** C3. Starting from the empty history of process start, the history has
    at most 8 entries after every call, whatever the calls; a push on a
    full history drops the oldest entry and appends the new one, and a push
    on a history of at most 7 entries only appends. *)
Theorem beatHistory_never_exceeds_8 : forall calls,
  Forall (fun r => (length (beatHistory (snd r)) <= 8)%nat)
         (runDetector calls initialDetector)
  /\ (forall e1 e2 e3 e4 e5 e6 e7 e8 energy,
        pushEnergy [e1; e2; e3; e4; e5; e6; e7; e8] energy
        = [e2; e3; e4; e5; e6; e7; e8; energy])
  /\ (forall history energy,
        pushEnergy (firstn 7 history) energy = firstn 7 history ++ [energy]).
Proof.
  intros calls. split; [| split].
  - apply runDetector_bounded. simpl. lia.
  - reflexivity.
  - intros history energy. unfold pushEnergy.
    destruct (Nat.ltb_spec 8 (length (firstn 7 history ++ [energy]))) as [Hlt | Hle];
      [| reflexivity].
    rewrite length_app, length_firstn in Hlt. cbn [length] in Hlt. lia.
Qed.

Lemma detectBeat_true : forall data now st,
  fst (detectBeat data now st) = true ->
  (now - lastBeatTime st > 250)%Z /\ lastBeatTime (snd (detectBeat data now st)) = now.
Proof.
  intros data now st Hbeat.
  destruct (detectBeat_cases data now st) as (Hiff & Hlast).
  rewrite Hbeat in Hlast. apply Hiff in Hbeat. tauto.
Qed.

(** The stored time of the last beat never moves back. *)
Lemma detectBeat_lastBeatTime_mono : forall data now st,
  (lastBeatTime st <= lastBeatTime (snd (detectBeat data now st)))%Z.
Proof.
  intros data now st.
  destruct (detectBeat_cases data now st) as (Hiff & Hlast).
  rewrite Hlast. destruct (fst (detectBeat data now st)) eqn:Hbeat; [| lia].
  destruct Hiff as [Hspike _]. specialize (Hspike eq_refl). lia.
Qed.

(** Every beat reported from a state whose stored time is at least [t]
    comes more than 250 ms after [t]. *)
Lemma runDetector_beat_after : forall calls st t j data now stj,
  (t <= lastBeatTime st)%Z ->
  nth_error calls j = Some (data, now) ->
  nth_error (runDetector calls st) j = Some (true, stj) ->
  (now - t > 250)%Z.
Proof.
  induction calls as [| [data0 now0] rest IH]; intros st t j data now stj Ht Hcall Hres.
  - destruct j; discriminate.
  - destruct j as [| j']; simpl in Hcall, Hres.
    + injection Hcall as -> ->.
      assert (Hbeat : fst (detectBeat data now st) = true)
        by (injection Hres as Hr; rewrite Hr; reflexivity).
      apply detectBeat_true in Hbeat. lia.
    + eapply IH; [| exact Hcall | exact Hres].
      pose proof (detectBeat_lastBeatTime_mono data0 now0 st). lia.
Qed.

Lemma runDetector_debounce : forall calls st i j di ni dj nj sti stj,
  (i < j)%nat ->
  nth_error calls i = Some (di, ni) ->
  nth_error calls j = Some (dj, nj) ->
  nth_error (runDetector calls st) i = Some (true, sti) ->
  nth_error (runDetector calls st) j = Some (true, stj) ->
  (nj - ni > 250)%Z.
Proof.
  induction calls as [| [data0 now0] rest IH];
    intros st i j di ni dj nj sti stj Hij Hci Hcj Hri Hrj.
  - destruct i; discriminate.
  - destruct j as [| j']; [lia |].
    destruct i as [| i']; simpl in Hci, Hcj, Hri, Hrj.
    + injection Hci as -> ->.
      assert (Hbeat : fst (detectBeat di ni st) = true)
        by (injection Hri as Hr; rewrite Hr; reflexivity).
      apply detectBeat_true in Hbeat. destruct Hbeat as [_ Hlast].
      eapply runDetector_beat_after; [| exact Hcj | exact Hrj].
      rewrite Hlast. lia.
    + eapply IH; [| exact Hci | exact Hcj | exact Hri | exact Hrj]. lia.
Qed.

(** C4. In a sequence of calls with non-decreasing clock readings, two
    calls that both report a beat are more than 250 ms apart, whatever the
    data of the calls (so also when every call sees an energy spike).  The
    order of the clock readings is not used: the stored time of the last
    beat only ever grows. *)
Theorem beats_are_debounced : forall calls st i j di ni dj nj sti stj,
  Sorted Z.le (map snd calls) ->
  (i < j)%nat ->
  nth_error calls i = Some (di, ni) ->
  nth_error calls j = Some (dj, nj) ->
  nth_error (runDetector calls st) i = Some (true, sti) ->
  nth_error (runDetector calls st) j = Some (true, stj) ->
  (nj - ni > 250)%Z.
Proof.
  intros calls st i j di ni dj nj sti stj _.
  apply runDetector_debounce.
Qed.

(** Four calls at 0, 1000, 1100 and 2000 ms with energies 0, 1, 0, 1: the
    second and the fourth report a beat. *)
Lemma beats_are_debounced_witness : (2000 - 1000 > 250)%Z.
Proof.
  eapply (beats_are_debounced
            [([0], 0%Z); ([1], 1000%Z); ([0], 1100%Z); ([1], 2000%Z)]
            initialDetector 1 3).
  - repeat constructor; discriminate.
  - lia.
  - reflexivity.
  - reflexivity.
  - vm_compute. reflexivity.
  - vm_compute. reflexivity.
Defined.

Lemma sum_not_below_zero : forall (arr : list number),
  Forall (fun val => (val <? 0) = false) arr -> (sum arr <? 0) = false.
Proof.
  intros arr Hall. unfold sum.
  assert (Hgen : forall acc : number,
             (acc <? 0) = false ->
             (fold_left (fun sum val => sum + val) arr acc <? 0) = false).
  { induction Hall as [| val arr' Hval Harr' IH]; intros acc Hacc.
    - exact Hacc.
    - cbn [fold_left]. apply IH. apply Binary64Facts.add_not_below_zero; assumption. }
  apply Hgen. reflexivity.
Qed.

Lemma averageRange_not_below_zero : forall (data : list number) (start stop : nat),
  Forall (fun val => (val <? 0) = false) data ->
  (averageRange data start stop <? 0) = false.
Proof.
  intros data start stop Hall. unfold averageRange, slice, of_nat.
  apply Binary64Facts.div_of_uint63_not_below_zero, sum_not_below_zero.
  assert (Hskip : Forall (fun val => (val <? 0) = false) (skipn start data)).
  { rewrite <- (firstn_skipn start data) in Hall. apply Forall_app in Hall. apply Hall. }
  rewrite <- (firstn_skipn (stop + 1 - start) (skipn start data)) in Hskip.
  apply Forall_app in Hskip. apply Hskip.
Qed.

(** C10. The first call after process start reports no beat, whatever the
    clock reading, on every snapshot whose values are all non-negative:
    the history then holds the current energy alone, the rolling mean is
    that energy, and an energy that is not negative is not above one and a
    half times itself. *)
Theorem first_call_reports_no_beat : forall (data : list number) (now : Z),
  Forall (fun val => (val <? 0) = false) data ->
  let currentEnergy := averageRange data 0 10 in
  beatHistory (snd (detectBeat data now initialDetector)) = [currentEnergy]
  /\ sum [currentEnergy] / of_nat 1 = 0 + currentEnergy
  /\ gtb currentEnergy ((0 + currentEnergy) * 1.5) = false
  /\ fst (detectBeat data now initialDetector) = false.
Proof.
  intros data now Hall. cbv zeta.
  pose proof (averageRange_not_below_zero data 0 10 Hall) as Henergy.
  set (currentEnergy := averageRange data 0 10) in *.
  assert (Havg : sum [currentEnergy] / of_nat 1 = 0 + currentEnergy).
  { change (of_nat 1) with 1. apply Binary64Facts.div_one. }
  assert (Hno : gtb currentEnergy ((0 + currentEnergy) * 1.5) = false).
  { unfold gtb.
    destruct (Binary64Facts.add_zero_l currentEnergy) as [-> | [-> ->]];
      [apply Binary64Facts.mul_three_halves_not_below; exact Henergy | reflexivity]. }
  split; [rewrite detectBeat_history; reflexivity |].
  split; [exact Havg |]. split; [exact Hno |].
  unfold detectBeat. fold currentEnergy.
  change (pushEnergy (beatHistory initialDetector) currentEnergy) with [currentEnergy].
  change (length [currentEnergy]) with 1%nat.
  rewrite Havg, Hno. reflexivity.
Qed.

(** A first call on an all-ones snapshot, 5 s after the epoch. *)
Lemma first_call_reports_no_beat_witness :
  fst (detectBeat (repeat 1 256) 5000 initialDetector) = false.
Proof.
  apply (first_call_reports_no_beat (repeat 1 256) 5000).
  apply Forall_forall. intros val Hin. apply repeat_spec in Hin. subst val. reflexivity.
Defined.

End DetectorFacts.

(** * Properties of the motion engine *)

Module MotionFacts.
Import JS MikeDropViz Binary64 Binary64Facts.

Section WithMath.
Variables Math_sin Math_cos : number -> number.

Lemma map_mapi_unchanged : forall (A B C : Type) (g : B -> C) (g' : A -> C)
    (f : A -> nat -> B) (arr : list A),
  (forall elt i, g (f elt i) = g' elt) ->
  map g (mapi f arr) = map g' arr.
Proof.
  intros A B C g g' f arr Hg. unfold mapi. generalize 0%nat as start.
  induction arr as [| elt arr' IH]; intros start; [reflexivity |].
  cbn [length seq combine map fst snd]. rewrite Hg. f_equal. apply IH.
Qed.

Lemma length_mapi : forall (A B : Type) (f : A -> nat -> B) (arr : list A),
  length (mapi f arr) = length arr.
Proof.
  intros A B f arr.
  rewrite <- (length_map (fun _ => tt) (mapi f arr)), <- (length_map (fun _ => tt) arr).
  f_equal. apply map_mapi_unchanged. reflexivity.
Qed.

Lemma updateVertices_frame : forall st p a prev,
  let next := updateVertices Math_sin Math_cos st p a prev in
  length next = length prev
  /\ map vx next = map vx prev
  /\ map vy next = map vy prev
  /\ map amplitude next = map amplitude prev
  /\ map frequency next = map frequency prev.
Proof.
  intros st p a prev. cbv zeta. unfold updateVertices.
  repeat split; try apply length_mapi; apply map_mapi_unchanged; reflexivity.
Qed.

(** C9. A motion tick keeps the number of vertices and leaves the velocity
    components, the amplitude and the frequency of every vertex as they
    were (of the fields of a vertex only x, y, phase and hue are
    reassigned); so after any number of ticks, under any inputs, there are
    still the 24 vertices of startup, with the velocities, amplitudes and
    frequencies drawn at startup. *)
Theorem tick_preserves_velocity_amplitude_frequency :
  forall (st : animationState) (p : parameters) (a : audioModulation)
         (prev : list vertex) (inputs : list tickInput) (random : nat -> number),
  let next := updateVertices Math_sin Math_cos st p a prev in
  let start := initialVertices Math_sin Math_cos random in
  let final := runTicks Math_sin Math_cos inputs start in
  (length next = length prev
   /\ map vx next = map vx prev
   /\ map vy next = map vy prev
   /\ map amplitude next = map amplitude prev
   /\ map frequency next = map frequency prev)
  /\ (length final = 24%nat
      /\ map vx final = map vx start
      /\ map vy final = map vy start
      /\ map amplitude final = map amplitude start
      /\ map frequency final = map frequency start).
Proof.
  intros st p a prev inputs random. cbv zeta. split.
  - apply updateVertices_frame.
  - change 24%nat with (length (initialVertices Math_sin Math_cos random)).
    generalize (initialVertices Math_sin Math_cos random) as start.
    induction inputs as [| [[st0 p0] a0] rest IH]; intros start; [repeat split |].
    cbn [runTicks fold_left].
    destruct (updateVertices_frame st0 p0 a0 start) as (Hl & Hvx & Hvy & Ha & Hf).
    rewrite <- Hl, <- Hvx, <- Hvy, <- Ha, <- Hf. apply IH.
Qed.

(** C7. While the effect is not playing, the wave terms of a tick are
    exactly 0 for every vertex; the new position is the sum of the ring
    centre and the flow term (plus that zero, which changes nothing but the
    sign of a negative zero), and it is the same whatever the wave
    intensity, the intensity modulation and the current position of the
    vertex are. *)
Theorem wave_offset_zero_when_not_playing :
  forall (frame0 : number) (p : parameters) (a : audioModulation)
         (v : vertex) (i : nat),
  let st := {| isPlaying := false; frame := frame0 |} in
  let v' := updateVertex Math_sin Math_cos st p a v i in
  let sx := centerX Math_cos st p a i + flowX Math_sin st p a v in
  let sy := centerY Math_sin st p a i + flowY Math_cos st p a v in
  (waveX Math_sin st p a v = 0 /\ waveY Math_cos st p a v = 0)
  /\ (x v' = sx + 0 /\ y v' = sy + 0)
  /\ ((x v' = sx \/ (sx = neg_zero /\ x v' = 0))
      /\ (y v' = sy \/ (sy = neg_zero /\ y v' = 0)))
  /\ (forall waveIntensity' intensityMod' x' y',
        let p' := {| flowSpeed := flowSpeed p; colorSpeed := colorSpeed p;
                     waveIntensity := waveIntensity'; patternSize := patternSize p |} in
        let a' := {| speedMod := speedMod a; intensityMod := intensityMod';
                     sizeMod := sizeMod a |} in
        let w := {| x := x'; y := y'; vx := vx v; vy := vy v; phase := phase v;
                    hue := hue v; amplitude := amplitude v;
                    frequency := frequency v |} in
        updateVertex Math_sin Math_cos st p' a' w i = v').
Proof.
  intros frame0 p a v i. cbv zeta.
  split; [split; reflexivity |].
  split; [split; reflexivity |].
  split; [split; apply Binary64Facts.add_zero_r |].
  reflexivity.
Qed.

Lemma nth_error_mapi : forall (A B : Type) (f : A -> nat -> B) (arr : list A) (i : nat),
  nth_error (mapi f arr) i = option_map (fun elt => f elt i) (nth_error arr i).
Proof.
  intros A B f arr. unfold mapi.
  assert (Hgen : forall start i,
             nth_error (map (fun p => f (snd p) (fst p))
                            (combine (seq start (length arr)) arr)) i
             = option_map (fun elt => f elt (start + i)%nat) (nth_error arr i)).
  { induction arr as [| elt arr' IH]; intros start i.
    - destruct i; reflexivity.
    - destruct i as [| i']; cbn [length seq combine map nth_error fst snd option_map].
      + rewrite Nat.add_0_r. reflexivity.
      + rewrite IH. rewrite Nat.add_succ_comm. reflexivity. }
  intros i. apply (Hgen 0%nat i).
Qed.

(** One hue update on the grid of half degrees, checked on each of the
    720 x 4 cases by evaluation. *)
Lemma hue_step_half_degrees : forall k j : nat,
  (k < 720)%nat -> (1 <= j <= 4)%nat ->
  remainder (of_nat k / 2 + of_nat j / 2) 360 = of_nat ((k + j) mod 720) / 2.
Proof.
  assert (Hall : forallb
            (fun k => forallb
               (fun j => Leibniz.eqb (remainder (of_nat k / 2 + of_nat j / 2) 360)
                                     (of_nat ((k + j) mod 720) / 2))
               (seq 1 4))
            (seq 0 720) = true) by (vm_compute; reflexivity).
  intros k j Hk Hj. rewrite forallb_forall in Hall.
  specialize (Hall k). rewrite in_seq in Hall. specialize (Hall (conj (Nat.le_0_l k) Hk)).
  rewrite forallb_forall in Hall. specialize (Hall j). rewrite in_seq in Hall.
  apply Leibniz.eqb_spec. apply Hall. lia.
Qed.

(** When the initial hue and the colour speed are multiples of 0.5 (the
    initial hues [i * 15] are, and so are the default colour speed 0.5 and
    the slider positions 0.5, 1, 1.5 and 2), no addition rounds: with
    [h = k / 2] and [c = j / 2] the hue after [N] ticks is the number
    [((k + N * j) mod 720) / 2]. *)
Lemma hue_after_ticks_half_degrees :
  forall (inputs : list tickInput) (vertices : list vertex) (i : nat) (v : vertex)
         (k j : nat),
  Forall (fun input => colorSpeed (snd (fst input)) = of_nat j / 2) inputs ->
  (1 <= j <= 4)%nat ->
  (k < 720)%nat ->
  nth_error vertices i = Some v ->
  hue v = of_nat k / 2 ->
  option_map hue (nth_error (runTicks Math_sin Math_cos inputs vertices) i)
  = Some (of_nat ((k + length inputs * j) mod 720) / 2).
Proof.
  induction inputs as [| [[st p] a] rest IH];
    intros vertices i v k j Hspeed Hj Hk Hv Hhue.
  - cbn [runTicks fold_left length]. rewrite Hv. cbn [option_map].
    rewrite Nat.mul_0_l, Nat.add_0_r, Nat.mod_small by exact Hk.
    rewrite Hhue. reflexivity.
  - inversion Hspeed as [| input rest' Hc Hrest]; subst. cbn [fst snd] in Hc.
    cbn [runTicks fold_left].
    change (fold_left _ rest ?vs) with (runTicks Math_sin Math_cos rest vs).
    rewrite (IH _ i (updateVertex Math_sin Math_cos st p a v i) ((k + j) mod 720)%nat j);
      try assumption.
    + f_equal. f_equal. f_equal. cbn [length].
      rewrite Nat.Div0.add_mod_idemp_l. f_equal. lia.
    + apply Nat.mod_upper_bound. discriminate.
    + unfold updateVertices. rewrite nth_error_mapi, Hv. reflexivity.
    + cbn [updateVertex hue]. rewrite Hhue, Hc. apply hue_step_half_degrees; assumption.
Qed.

End WithMath.

Section Edges.
Variable Math_hypot : number -> number -> number.

Lemma in_mapi : forall (A B : Type) (f : A -> nat -> B) (arr : list A) (b : B),
  In b (mapi f arr) <-> exists i elt, nth_error arr i = Some elt /\ b = f elt i.
Proof.
  intros A B f arr b. split.
  - intros Hin. apply In_nth_error in Hin. destruct Hin as [i Hi].
    rewrite nth_error_mapi in Hi.
    destruct (nth_error arr i) as [elt |] eqn:Helt; [| discriminate].
    exists i, elt. split; [exact Helt | injection Hi as <-; reflexivity].
  - intros (i & elt & Helt & ->). apply (nth_error_In _ i).
    rewrite nth_error_mapi, Helt. reflexivity.
Qed.

(** The lines of the render loop are those of the pairs [i < j] for which
    [getEdgeStyle] returns a style. *)
Lemma renderEdges_spec : forall vertices i j style,
  In (i, j, style) (renderEdges Math_hypot vertices)
  <-> exists v1 v2,
        (i < j)%nat
        /\ nth_error vertices i = Some v1
        /\ nth_error vertices j = Some v2
        /\ getEdgeStyle Math_hypot v1 v2 = Some style.
Proof.
  intros vertices i j style. unfold renderEdges. rewrite in_concat. split.
  - intros (row & Hrow & Hin). apply in_mapi in Hrow.
    destruct Hrow as (i' & v1 & Hv1 & ->). rewrite in_concat in Hin.
    destruct Hin as (cell & Hcell & Hin). apply in_mapi in Hcell.
    destruct Hcell as (j' & v2 & Hv2 & ->).
    destruct (Nat.ltb_spec i' j') as [Hlt | Hge]; [| destruct Hin].
    destruct (getEdgeStyle Math_hypot v1 v2) as [style' |] eqn:Hstyle; [| destruct Hin].
    destruct Hin as [Heq | []]. injection Heq as -> -> ->.
    exists v1, v2. auto.
  - intros (v1 & v2 & Hlt & Hv1 & Hv2 & Hstyle).
    eexists. split.
    + apply in_mapi. exists i, v1. split; [exact Hv1 | reflexivity].
    + rewrite in_concat. eexists. split.
      * apply in_mapi. exists j, v2. split; [exact Hv2 | reflexivity].
      * apply Nat.ltb_lt in Hlt. rewrite Hlt, Hstyle. left. reflexivity.
Qed.

Lemma Math_min_one : forall o : float, Prim2SF o <> S754_nan ->
  Math_min 1 o = if 1 <? o then 1 else o.
Proof.
  intros o Hn. unfold Math_min. change (is_nan 1) with false.
  rewrite (is_nan_false o Hn). cbn [orb]. change (get_sign 1) with false.
  destruct (1 <? o); [reflexivity |]. destruct (o <? 1); reflexivity.
Qed.

Lemma Math_max_zero : forall m : float, Prim2SF m <> S754_nan ->
  Math_max 0 m = if 0 <? m then m else 0.
Proof.
  intros m Hn. unfold Math_max. change (is_nan 0) with false.
  rewrite (is_nan_false m Hn). cbn [orb]. change (get_sign 0) with false.
  destruct (0 <? m); [reflexivity |]. destruct (m <? 0); reflexivity.
Qed.

(** Clamping to [0, 1] does not change whether a number is above 0.1. *)
Lemma clamp_above_tenth : forall o : float,
  (0.1 <? Math_max 0 (Math_min 1 o)) = (0.1 <? o).
Proof.
  intros o.
  destruct (Prim2SF o) as [s | s | | s m e] eqn:Ho.
  3: { apply Prim2SF_nan_eq in Ho. subst o. reflexivity. }
  all: assert (Hn : Prim2SF o <> S754_nan) by (rewrite Ho; discriminate); clear Ho.
  all: assert (H1n : Prim2SF 1 <> S754_nan) by discriminate.
  all: assert (H0n : Prim2SF 0 <> S754_nan) by discriminate.
  all: assert (Htn : Prim2SF 0.1 <> S754_nan) by discriminate.
  all: assert (Hc : (0 < ord (Prim2SF 0.1) < ord (Prim2SF 1))%Z)
         by (split; apply Z.ltb_lt; vm_compute; reflexivity).
  all: assert (H0 : ord (Prim2SF 0) = 0%Z) by reflexivity.
  all: rewrite (Math_min_one o Hn), (ltb_ord 1 o) by assumption.
  all: destruct (Z.ltb_spec (ord (Prim2SF 1)) (ord (Prim2SF o))) as [Hgt | Hle].
  all: try (change (Math_max 0 1) with 1; change (0.1 <? 1) with true; symmetry;
            apply ltb_true_of_ord; [assumption | lia]).
  all: rewrite (Math_max_zero o Hn), (ltb_ord 0 o), H0 by assumption.
  all: destruct (Z.ltb_spec 0 (ord (Prim2SF o))) as [Hpos | Hneg]; [reflexivity |].
  all: change (0.1 <? 0) with false; symmetry.
  all: apply ltb_false_of_ord; [assumption | lia].
Qed.

(** [1 - d / 300] is above 0.1 exactly for the numbers [d] below 270. *)
Lemma one_minus_over_300_above_tenth : forall d : float,
  (0.1 <? 1 - d / 300) = (d <? 270).
Proof.
  intros d.
  destruct (Prim2SF d) as [s | s | | s m e] eqn:Hd.
  1-3: rewrite <- (SF2Prim_Prim2SF d), Hd; try destruct s; reflexivity.
  pose proof (Prim2SF_not_nan_valid d _ _ _ Hd) as Hv.
  assert (Hdn : Prim2SF d <> S754_nan) by (rewrite Hd; discriminate).
  assert (Htn : Prim2SF 0.1 <> S754_nan) by discriminate.
  assert (H300 : Prim2SF 300 = S754_finite false 5277655813324800 (-44)) by reflexivity.
  assert (H270 : Prim2SF 270 = S754_finite false 4749890231992320 (-44)) by reflexivity.
  assert (Hp270 : Prim2SF 0x1.0dfffffffffffp+8
                  = S754_finite false 4749890231992319 (-44)) by reflexivity.
  assert (Ht0 : (0 < ord (Prim2SF 0.1))%Z) by (apply Z.ltb_lt; vm_compute; reflexivity).
  destruct (div_finite_rounded d 300 _ _ _ _ _ _ Hd H300) as (m2 & t & Hg & Hq).
  rewrite xorb_false_r in Hq.
  assert (Hqn : Prim2SF (d / 300) <> S754_nan)
    by (rewrite Hq; apply SF_of_rounded_valid; exact Hg).
  pose proof (valid_gval_bounds _ _ _ Hv) as Bd.
  (* the two quotients and differences at the threshold *)
  assert (Hlo : exists mc ec, Prim2SF (0x1.0dfffffffffffp+8 / 300) = S754_finite false mc ec)
    by (vm_compute; eauto).
  destruct Hlo as (mlo & elo & Hlo).
  assert (Hhi : exists mc ec, Prim2SF (270 / 300) = S754_finite false mc ec)
    by (vm_compute; eauto).
  destruct Hhi as (mhi & ehi & Hhi).
  assert (Hlo1 : (ord (Prim2SF (1 - 0x1.0dfffffffffffp+8 / 300)) <= ord (Prim2SF 1))%Z)
    by (apply Z.leb_le; vm_compute; reflexivity).
  assert (Hlo2 : (ord (Prim2SF 0.1) < ord (Prim2SF (1 - 0x1.0dfffffffffffp+8 / 300)))%Z)
    by (apply Z.ltb_lt; vm_compute; reflexivity).
  assert (Hhi2 : (ord (Prim2SF (1 - 270 / 300)) <= ord (Prim2SF 0.1))%Z)
    by (apply Z.leb_le; vm_compute; reflexivity).
  assert (Hlo0 : (0 <= ord (Prim2SF (0x1.0dfffffffffffp+8 / 300)))%Z)
    by (apply Z.leb_le; vm_compute; reflexivity).
  assert (Below : (ord (Prim2SF (d / 300)) <= ord (Prim2SF (0x1.0dfffffffffffp+8 / 300)))%Z ->
                  (0.1 <? 1 - d / 300) = true).
  { intros Hle. apply ltb_true_of_ord; [exact Htn |].
    pose proof (one_minus_ge (d / 300) _ _ _ _ Hlo Hqn Hle Hlo1). zlia. }
  assert (Above : (ord (Prim2SF (270 / 300)) <= ord (Prim2SF (d / 300)))%Z ->
                  (0.1 <? 1 - d / 300) = false).
  { intros Hle. apply ltb_false_of_ord; [exact Htn |].
    pose proof (one_minus_le (d / 300) _ _ _ Hhi Hqn Hle). zlia. }
  destruct s.
  - (* negative distances *)
    rewrite (ltb_ord d 270), Hd, H270 by (try assumption; rewrite H270; discriminate).
    cbn [ord].
    assert (Hlt : (- gval (Zpos m) e <? gval 4749890231992320 (-44))%Z = true)
      by (apply Z.ltb_lt; assert (0 < gval 4749890231992320 (-44))%Z
            by (apply Z.ltb_lt; vm_compute; reflexivity); zlia).
    rewrite Hlt. apply Below.
    rewrite Hq, ord_SF_of_rounded by exact Hg.
    assert (0 <= gval m2 t)%Z.
    { destruct Hg as (Hm2 & Ht & _). unfold gval.
      pose proof (pow2_gt0 (t + 1074) ltac:(zlia)). znia. }
    zlia.
  - rewrite (ltb_ord d 270), Hd, H270 by (try assumption; rewrite H270; discriminate).
    cbn [ord].
    destruct (Z.ltb_spec (gval (Zpos m) e) (gval 4749890231992320 (-44))) as [Hlt | Hge].
    + apply Below.
      apply (div_mono d 0x1.0dfffffffffffp+8 300 _ _ _ _ _ _ Hd Hp270 H300).
      rewrite Hd, Hp270. cbn [ord].
      apply (gval_lt_pred m e 4749890231992320 (-44)); [exact Hv | reflexivity | | exact Hlt].
      apply Z.ltb_lt. reflexivity.
    + apply Above.
      apply (div_mono 270 d 300 _ _ _ _ _ _ H270 Hd H300).
      rewrite Hd, H270. cbn [ord]. exact Hge.
Qed.

(** The opacity of an edge is above 0.1 exactly below the distance 270. *)
Lemma edgeOpacity_above_tenth : forall dist : float,
  gtb (edgeOpacity dist) 0.1 = (dist <? 270).
Proof.
  intros dist. unfold gtb, edgeOpacity.
  rewrite clamp_above_tenth. apply one_minus_over_300_above_tenth.
Qed.

(** C2 (as amended). The render loop draws a line for a pair of vertices
    [i < j] exactly when [getEdgeStyle] returns a style for it, and it does
    so exactly when the distance of the two vertices is below 270 (the
    opacity [clamp(1 - dist/300)] must exceed 0.1), not below 300.  At the
    distance 300 the opacity is 0 and no line is drawn; at the distance 0
    the opacity is 1 and the stroke width is 4. *)
Theorem edge_drawn_iff_distance_below_270 :
  forall (vertices : list vertex) (i j : nat) (v1 v2 : vertex),
  let dist := Math_hypot (x v1 - x v2) (y v1 - y v2) in
  (forall style,
     In (i, j, style) (renderEdges Math_hypot vertices)
     <-> exists w1 w2,
           (i < j)%nat
           /\ nth_error vertices i = Some w1
           /\ nth_error vertices j = Some w2
           /\ getEdgeStyle Math_hypot w1 w2 = Some style)
  /\ ((exists style, getEdgeStyle Math_hypot v1 v2 = Some style)
      <-> (dist <? 270) = true)
  /\ (getEdgeStyle Math_hypot v1 v2
      = if dist <? 270
        then Some {| strokeHue := (hue v1 + hue v2) / 2;
                     strokeOpacity := edgeOpacity dist;
                     strokeWidth := Math_max 1 (4 * edgeOpacity dist) |}
        else None)
  /\ (edgeOpacity 300 = 0 /\ gtb (edgeOpacity 300) 0.1 = false)
  /\ (edgeOpacity 0 = 1 /\ Math_max 1 (4 * edgeOpacity 0) = 4).
Proof.
  intros vertices i j v1 v2. cbv zeta.
  assert (Hstyle : getEdgeStyle Math_hypot v1 v2
                   = if Math_hypot (x v1 - x v2) (y v1 - y v2) <? 270
                     then Some {| strokeHue := (hue v1 + hue v2) / 2;
                                  strokeOpacity :=
                                    edgeOpacity (Math_hypot (x v1 - x v2) (y v1 - y v2));
                                  strokeWidth :=
                                    Math_max 1 (4 * edgeOpacity
                                                      (Math_hypot (x v1 - x v2) (y v1 - y v2))) |}
                     else None).
  { unfold getEdgeStyle. rewrite edgeOpacity_above_tenth. reflexivity. }
  split; [intros style; apply renderEdges_spec |].
  split; [| split; [exact Hstyle | split; split; reflexivity]].
  rewrite Hstyle. destruct (Math_hypot (x v1 - x v2) (y v1 - y v2) <? 270).
  - split; [reflexivity | intros _; eexists; reflexivity].
  - split; [intros [style Hs]; discriminate | discriminate].
Qed.

End Edges.

(** C6, counterexample: from the hue 0 of the first vertex, six ticks at the
    colour speed 0.1 give the hue 0.59999999999999998, while
    [(0 + 6 * 0.1) % 360] is 0.60000000000000009. *)
Lemma hue_after_six_ticks_of_one_tenth :
  let p := {| flowSpeed := 1; colorSpeed := 0.1; waveIntensity := 0.7;
              patternSize := 1 |} in
  let inputs := map (fun n => ({| isPlaying := false; frame := of_nat n |},
                               p, neutralModulation))
                    (seq 0 6) in
  let vertices := initialVertices ExampleMath.Math_sin ExampleMath.Math_cos
                                  (fun _ => 0.5) in
  option_map hue (nth_error vertices 0) = Some 0
  /\ option_map hue
       (nth_error (runTicks ExampleMath.Math_sin ExampleMath.Math_cos inputs vertices) 0)
     = Some 0.59999999999999998
  /\ remainder (0 + of_nat (length inputs) * 0.1) 360 = 0.60000000000000009
  /\ (0.59999999999999998 =? 0.60000000000000009) = false.
Proof. vm_compute. repeat split. Qed.

(** C2, counterexample: two vertices at the distance 280 (which is below
    300) get the opacity 0.0666..., not above 0.1, and no line. *)
Lemma no_edge_at_distance_280 :
  let v1 := {| x := 280; y := 0; vx := 0; vy := 0; phase := 0; hue := 0;
               amplitude := 1; frequency := 1 |} in
  let v2 := {| x := 0; y := 0; vx := 0; vy := 0; phase := 0; hue := 15;
               amplitude := 1; frequency := 1 |} in
  ExampleMath.Math_hypot (x v1 - x v2) (y v1 - y v2) = 280
  /\ (280 <? 300) = true
  /\ edgeOpacity 280 = 0.066666666666666652
  /\ getEdgeStyle ExampleMath.Math_hypot v1 v2 = None
  /\ renderEdges ExampleMath.Math_hypot [v1; v2] = [].
Proof. vm_compute. repeat split. Qed.

End MotionFacts.

(** * Properties of the feature extractor *)

Module ExtractorFacts.
Import JS AudioParse.

(** No number is above NaN. *)
Lemma ltb_nan_r : forall t : float, (t <? nan) = false.
Proof.
  intros t. rewrite ltb_spec. change (Prim2SF nan) with S754_nan.
  destruct (Prim2SF t) as [sg | sg | | sg m e]; reflexivity.
Qed.

Section WithMath.
Variable Math_pow : number -> number -> number.

(** C5 (as amended). On a snapshot of 256 bins that all hold the byte [b]
    the extractor finds no peak, and the amplitude and the three band
    energies are each within 1e-14 of [b / 255]; the sums are accumulated
    in binary64, and the four values are all equal to [b / 255] only for
    [b = 0] and [b = 255]. *)
Theorem uniform_snapshot_metrics : forall (b : byte) (now : Z) (st : detector),
  let m := metricsOf (fst (processAudioData Math_pow (repeat b 256) now st)) in
  let level := of_byte b / 255 in
  peaks m = []
  /\ (abs (amplitude m - level) <=? 1e-14) = true
  /\ (abs (lowFreq m - level) <=? 1e-14) = true
  /\ (abs (midFreq m - level) <=? 1e-14) = true
  /\ (abs (highFreq m - level) <=? 1e-14) = true
  /\ ((amplitude m =? level) && (lowFreq m =? level)
      && (midFreq m =? level) && (highFreq m =? level) = true
      <-> b = x00 \/ b = xff).
Proof.
  intros b now st. cbv zeta.
  cbn [processAudioData fst metricsOf peaks amplitude lowFreq midFreq highFreq].
  destruct b; vm_compute;
    (repeat (split; [reflexivity |]));
    (split; [intros Heq; first [discriminate Heq | tauto]
            | intros [Hb | Hb]; first [reflexivity | discriminate Hb]]).
Qed.

(** C8 (as amended). The extractor validates nothing and has no
    [InvalidInput] error.  Called with a [Uint8Array] of any length, the
    empty one included, it completes normally; called with [undefined] or
    [null] it fails with the [TypeError] of [Array.from].  On the empty
    snapshot the amplitude and the three band energies of the result are
    NaN, there is no peak and no beat, and the visual parameters computed
    from them are NaN as well (the intensity is whatever [Math.pow] returns
    for a NaN base), except the speed, which is 1. *)
Theorem empty_snapshot_propagates_nan : forall (audioData : list byte) (now : Z) (st : detector),
  let r := fst (processAudioData Math_pow [] now st) in
  (call_processAudioData Math_pow (Uint8Array audioData) now st
   = Normal (processAudioData Math_pow audioData now st)
   /\ call_processAudioData Math_pow Undefined now st = Throw TypeError
   /\ call_processAudioData Math_pow Null now st = Throw TypeError)
  /\ (amplitude (metricsOf r) = nan
      /\ lowFreq (metricsOf r) = nan
      /\ midFreq (metricsOf r) = nan
      /\ highFreq (metricsOf r) = nan
      /\ peaks (metricsOf r) = []
      /\ beatDetected (metricsOf r) = false)
  /\ (intensity (visualParamsOf r) = Math_pow nan 1.5
      /\ speed (visualParamsOf r) = 1
      /\ colorIntensity (visualParamsOf r) = nan
      /\ patternSize (visualParamsOf r) = nan
      /\ complexity (visualParamsOf r) = nan).
Proof.
  intros audioData now st. cbv zeta. split; [repeat split |].
  cbn [processAudioData fst metricsOf visualParamsOf amplitude lowFreq midFreq
       highFreq peaks beatDetected intensity speed colorIntensity patternSize
       complexity map].
  set (beat := fst (detectBeat _ now st)).
  assert (Hbeat : beat = false).
  { subst beat. unfold detectBeat, gtb. change (averageRange _ 0 10) with nan.
    rewrite ltb_nan_r. reflexivity. }
  rewrite Hbeat. repeat split.
Qed.

End WithMath.

(** C5, counterexample: on 256 bins that all hold the byte 1, [1 / 255] is
    0.0039215686274509803, but the amplitude is 0.0039215686274509682, the
    mid band energy 0.0039215686274509717 and the high band energy
    0.0039215686274509691: they are not [b / 255], and the band energies
    are not all equal (the low band energy is [1 / 255]). *)
Lemma uniform_snapshot_not_exact :
  let m := metricsOf (fst (processAudioData ExampleMath.Math_pow (repeat x01 256)
                                            1000 initialDetector)) in
  of_byte x01 / 255 = 0.0039215686274509803
  /\ amplitude m = 0.0039215686274509682
  /\ lowFreq m = 0.0039215686274509803
  /\ midFreq m = 0.0039215686274509717
  /\ highFreq m = 0.0039215686274509691
  /\ (amplitude m =? of_byte x01 / 255) = false
  /\ (lowFreq m =? midFreq m) = false.
Proof. vm_compute. repeat split. Qed.

(** C8, counterexample: the call on the empty snapshot completes normally,
    with a result whose amplitude is NaN; it does not throw. *)
Lemma empty_snapshot_does_not_throw :
  call_processAudioData ExampleMath.Math_pow (Uint8Array []) 1000 initialDetector
  <> Throw InvalidInput
  /\ exists r st',
       call_processAudioData ExampleMath.Math_pow (Uint8Array []) 1000 initialDetector
       = Normal (r, st')
       /\ is_nan (amplitude (metricsOf r)) = true.
Proof.
  split; [discriminate |].
  eexists. eexists. split; reflexivity.
Qed.

End ExtractorFacts.
(** * Properties of the peak finder *)

Module PeakFacts.
Import JS AudioParse Binary64 Binary64Facts.

(** [a < b] and [b < a] do not both hold. *)
Lemma ltb_asym : forall a b : float, (a <? b) = true -> (b <? a) = false.
Proof.
  intros a b Hab. rewrite ltb_spec in Hab.
  destruct (Prim2SF a) as [sa | sa | | sa ma ea] eqn:Ha.
  3: discriminate.
  all: destruct (Prim2SF b) as [sb | sb | | sb mb eb] eqn:Hb.
  all: try (destruct sa; discriminate).
  all: try (destruct sa, sb; discriminate).
  all: rewrite <- Ha, <- Hb in Hab; rewrite <- ltb_spec in Hab.
  all: rewrite ltb_ord in Hab |- * by (rewrite ?Ha, ?Hb; discriminate).
  all: apply Z.ltb_lt in Hab; apply Z.ltb_ge; lia.
Qed.

(** The test of the loop body of [findPeaks] at the index [i]. *)
Lemma findPeaks_in : forall data pk,
  In pk (findPeaks data)
  <-> (1 <= index pk)%nat /\ (index pk + 1 < length data)%nat
      /\ value pk = nth (index pk) data nan
      /\ gtb (value pk) (nth (index pk - 1) data nan) = true
      /\ gtb (value pk) (nth (index pk + 1) data nan) = true
      /\ gtb (value pk) 0.5 = true.
Proof.
  intros data pk. unfold findPeaks. rewrite in_flat_map. split.
  - intros (i & Hi & Hin). apply in_seq in Hi.
    destruct (gtb (nth i data nan) (nth (i - 1) data nan)) eqn:H1; [| destruct Hin].
    destruct (gtb (nth i data nan) (nth (i + 1) data nan)) eqn:H2; [| destruct Hin].
    destruct (gtb (nth i data nan) 0.5) eqn:H3; [| destruct Hin].
    destruct Hin as [<- | []]. cbn [index value]. repeat split; try assumption; lia.
  - intros (Hlo & Hhi & Hv & H1 & H2 & H3). exists (index pk). split.
    + apply in_seq. lia.
    + rewrite <- Hv, H1, H2, H3. left. destruct pk; reflexivity.
Qed.

Lemma findPeaks_from_sorted : forall (data : list number) n s,
  let f := fun i =>
       let d := fun k => nth k data nan in
       if gtb (d i) (d (i - 1)%nat) && gtb (d i) (d (i + 1)%nat) && gtb (d i) 0.5
       then [ {| index := i; value := d i |} ]
       else [] in
  StronglySorted (fun i j => (i + 2 <= j)%nat) (map index (flat_map f (seq s n)))
  /\ Forall (fun i => (s <= i < s + n)%nat) (map index (flat_map f (seq s n)))
  /\ (gtb (nth s data nan) (nth (s + 1) data nan) = true ->
      Forall (fun i => (s + 2 <= i)%nat) (map index (flat_map f (seq (S s) n)))).
Proof.
  intros data n. induction n as [| n IH]; intros s f.
  - cbn. repeat split; constructor.
  - destruct (IH (S s)) as (Hsorted & Hrange & Hnext). fold f in Hsorted, Hrange, Hnext.
    assert (Hrange' : Forall (fun i => (s <= i < s + S n)%nat)
                             (map index (flat_map f (seq (S s) n)))).
    { eapply Forall_impl; [| exact Hrange]. cbn beta. intros i Hi. lia. }
    split; [| split].
    + cbn [seq flat_map]. rewrite map_app. unfold f at 1. cbv zeta.
      destruct (gtb (nth s data nan) (nth (s - 1) data nan)); cbn [andb app map];
        [| exact Hsorted].
      destruct (gtb (nth s data nan) (nth (s + 1) data nan)) eqn:H2; cbn [andb app map];
        [| exact Hsorted].
      destruct (gtb (nth s data nan) 0.5); cbn [andb app map index]; [| exact Hsorted].
      constructor; [exact Hsorted |].
      destruct (IH s) as (_ & _ & Hn). apply Hn. exact H2.
    + cbn [seq flat_map]. rewrite map_app. apply Forall_app. split; [| exact Hrange'].
      unfold f. cbv zeta. destruct (_ && _ && _); cbn [map index]; repeat constructor; lia.
    + intros H2. cbn [seq flat_map]. rewrite map_app. apply Forall_app. split.
      * unfold f. cbv zeta.
        replace (S s - 1)%nat with s by lia.
        replace (s + 1)%nat with (S s) in H2 by lia.
        unfold gtb in *. rewrite (ltb_asym _ _ H2). cbn [andb map]. constructor.
      * destruct (IH (S (S s))) as (_ & Hr2 & _).
        eapply Forall_impl; [| exact Hr2]. cbn beta. intros i Hi. lia.
Qed.

Lemma apart_count : forall (l : list nat) a b,
  StronglySorted (fun i j => (i + 2 <= j)%nat) l ->
  Forall (fun i => (a <= i < b)%nat) l ->
  (2 * length l <= b - a + 1)%nat.
Proof.
  induction l as [| i l IH]; intros a b Hs Hr; [cbn; lia |].
  inversion Hs as [| i' l' Hs' Hall]; subst. inversion Hr as [| i' l' Hi Hr']; subst.
  destruct l as [| j l'].
  - cbn. lia.
  - assert (Hl : (2 * length (j :: l') <= b - (i + 2) + 1)%nat).
    { apply IH; [exact Hs' |].
      rewrite Forall_forall in *. intros k Hk. specialize (Hall k Hk). specialize (Hr' k Hk). lia. }
    inversion Hall as [| j' l'' Hij _]; subst. inversion Hr' as [| j' l'' Hj _]; subst.
    change (length (i :: j :: l')) with (S (length (j :: l'))).
    set (len := length (j :: l')) in *. lia.
Qed.

(** X1. The peaks that [findPeaks] returns come in the order of their
    indices and no two of them at neighbouring indices (a bin above both
    its neighbours has no neighbour above it); none is at the first or at
    the last index.  So there are at most [(length data - 1) / 2] peaks,
    and none in fewer than three bins. *)
Theorem findPeaks_indices_apart : forall data : list number,
  StronglySorted (fun i j => (i + 2 <= j)%nat) (map index (findPeaks data))
  /\ Forall (fun pk => (1 <= index pk)%nat /\ (index pk + 2 <= length data)%nat)
            (findPeaks data)
  /\ (length (findPeaks data) <= (length data - 1) / 2)%nat.
Proof.
  intros data.
  destruct (findPeaks_from_sorted data (length data - 2) 1) as (Hs & Hr & _).
  unfold findPeaks.
  split; [exact Hs |]. split.
  - rewrite Forall_map in Hr. eapply Forall_impl; [| exact Hr]. cbn beta. intros pk Hpk. lia.
  - pose proof (apart_count _ _ _ Hs Hr) as Hc. rewrite length_map in Hc.
    apply Nat.div_le_lower_bound; [discriminate |].
    match type of Hc with
    | (2 * ?k <= _)%nat => assert (Hk : (2 * k <= length data - 1)%nat) by (clear - Hc; lia)
    end.
    exact Hk.
Qed.

End PeakFacts.
(** * Properties of the extractor on a snapshot *)

Module SnapshotFacts.
Import JS AudioParse Binary64 Binary64Facts  Binary64Order.

Lemma of_byte_of_nat : forall b : byte, of_byte b = of_nat (N.to_nat (Byte.to_N b)).
Proof. intros b. unfold of_byte, of_nat. rewrite N_nat_Z. reflexivity. Qed.

Lemma byte_below_256 : forall b : byte, (N.to_nat (Byte.to_N b) < 256)%nat.
Proof. intros b. pose proof (Byte.to_N_bounded b). lia. Qed.

(** Normalisation keeps the order of the bytes, checked on each of the
    256 x 256 pairs by evaluation. *)
Lemma normalized_order : forall n1 n2 : nat, (n1 < 256)%nat -> (n2 < 256)%nat ->
  (of_nat n1 / 255 <? of_nat n2 / 255) = (n1 <? n2)%nat.
Proof.
  assert (Hall : forallb (fun n1 => forallb (fun n2 =>
             Bool.eqb (of_nat n1 / 255 <? of_nat n2 / 255) (n1 <? n2)%nat)
             (seq 0 256)) (seq 0 256) = true) by (vm_compute; reflexivity).
  intros n1 n2 H1 H2. rewrite forallb_forall in Hall. specialize (Hall n1).
  rewrite in_seq in Hall. specialize (Hall ltac:(lia)). rewrite forallb_forall in Hall.
  specialize (Hall n2). rewrite in_seq in Hall. specialize (Hall ltac:(lia)).
  apply Bool.eqb_prop. exact Hall.
Qed.

Lemma normalized_range : forall n : nat, (n < 256)%nat ->
  between 0 1 (of_nat n / 255)
  /\ (0.5 <? of_nat n / 255) = (128 <=? n)%nat
  /\ (0 <? of_nat n / 255) = (1 <=? n)%nat.
Proof.
  assert (Hall : forallb (fun n =>
             (0 <=? of_nat n / 255) && (of_nat n / 255 <=? 1)
             && Bool.eqb (0.5 <? of_nat n / 255) (128 <=? n)%nat
             && Bool.eqb (0 <? of_nat n / 255) (1 <=? n)%nat)
             (seq 0 256) = true) by (vm_compute; reflexivity).
  intros n Hn. rewrite forallb_forall in Hall. specialize (Hall n).
  rewrite in_seq in Hall. specialize (Hall ltac:(lia)).
  apply andb_true_iff in Hall. destruct Hall as [Hall H3].
  apply andb_true_iff in Hall. destruct Hall as [Hall H2].
  apply andb_true_iff in Hall. destruct Hall as [H0 H1].
  split; [split; assumption |]. split; apply Bool.eqb_prop; assumption.
Qed.

Lemma normalized_between : forall b : byte, between 0 1 (of_byte b / 255).
Proof. intros b. rewrite of_byte_of_nat. apply normalized_range, byte_below_256. Qed.

Lemma unit_finite : forall x : float, between 0 1 x ->
  finite x /\ (0 <= val x <= 2 ^ 1074)%Z.
Proof.
  intros x Hx. split.
  - apply (between_finite 0 1); [finite_constant | finite_constant | exact Hx].
  - apply between_val in Hx. destruct Hx as [_ Hx].
    change (val 0) with 0%Z in Hx.
    replace (val 1) with (2 ^ 1074)%Z in Hx by (symmetry; constant_val). exact Hx.
Qed.

(** Adding [n] numbers between 0 and 1 to a number between 0 and [k]
    gives a number between 0 and [k + n]. *)
Lemma fold_sum_between : forall (arr : list float),
  Forall (between 0 1) arr ->
  forall (acc : float) (k : Z),
  finite acc -> (0 <= val acc <= k * 2 ^ 1074)%Z ->
  (k + Z.of_nat (length arr) <= 2 ^ 53)%Z ->
  finite (fold_left (fun sum val => sum + val) arr acc)
  /\ (0 <= val (fold_left (fun sum val => (sum + val)%float) arr acc)
      <= (k + Z.of_nat (length arr)) * 2 ^ 1074)%Z.
Proof.
  pose proof (pow2_gt0 1074 ltac:(zlia)) as H1074.
  induction 1 as [| v arr Hv Harr IH]; intros acc k Hacc Hk Hlen.
  - cbn [fold_left length]. split; [exact Hacc | zlia].
  - cbn [fold_left length] in Hlen |- *. rewrite Nat2Z.inj_succ in Hlen. rewrite Nat2Z.inj_succ.
    destruct (unit_finite v Hv) as [Hfv Hvv].
    assert (Hk0 : (0 <= k)%Z) by znia.
    pose proof (add_approx acc v Hacc Hfv) as Ha.
    destruct (repr_exists_int (k + 1) ltac:(zlia)) as (y & Hy & Hfy & Hyv).
    pose proof (approx_le _ 1 _ y ltac:(zlia) Ha Hy Hfy ltac:(zlia)) as Hle.
    pose proof (approx_ge _ 1 _ (S754_zero false) ltac:(zlia) Ha eq_refl I
                  ltac:(cbn [ord]; zlia)) as Hge.
    cbn [ord] in Hge. fold (val (acc + v)) in Hle, Hge.
    rewrite Hyv in Hle.
    assert (Hfin : finite (acc + v)).
    { apply (finite_of_approx _ _ _ Ha).
      change (2 ^ 2098)%Z with (2 ^ 1024 * 2 ^ 1074)%Z.
      assert (2 ^ 53 < 2 ^ 1024)%Z by (apply Z.pow_lt_mono_r; zlia). znia. }
    destruct (IH (acc + v) (k + 1)%Z Hfin ltac:(zlia) ltac:(zlia)) as [Hf Hb].
    split; [exact Hf |].
    assert (Heq : (k + Z.succ (Z.of_nat (length arr)) = k + 1 + Z.of_nat (length arr))%Z) by zlia.
    rewrite Heq. exact Hb.
Qed.

Lemma sum_between : forall (arr : list float),
  Forall (between 0 1) arr -> (Z.of_nat (length arr) <= 2 ^ 53)%Z ->
  finite (sum arr) /\ (0 <= val (sum arr) <= Z.of_nat (length arr) * 2 ^ 1074)%Z.
Proof.
  intros arr Harr Hlen. unfold sum.
  apply (fold_sum_between arr Harr 0 0%Z); [finite_constant | | lia].
  change (val 0) with 0%Z. lia.
Qed.

(** The mean of at least one number between 0 and 1 is between 0 and 1. *)
Lemma mean_between : forall (arr : list float),
  Forall (between 0 1) arr ->
  (1 <= length arr)%nat -> (Z.of_nat (length arr) <= 2 ^ 53)%Z ->
  between 0 1 (sum arr / of_nat (length arr)).
Proof.
  intros arr Harr Hne Hlen.
  pose proof (pow2_gt0 1074 ltac:(zlia)) as H1074.
  destruct (sum_between arr Harr Hlen) as [Hfs Hvs].
  destruct (of_uint63_val (Z.of_nat (length arr)) ltac:(zlia)) as [Hfn Hvn].
  fold (of_nat (length arr)) in Hfn, Hvn.
  assert (Hpos : (0 < val (of_nat (length arr)))%Z) by znia.
  pose proof (div_approx _ _ Hfs Hfn Hpos) as Ha.
  pose proof (approx_le _ _ _ (Prim2SF 1) Hpos Ha (Prim2SF_valid 1) I) as Hle.
  pose proof (approx_ge _ _ _ (S754_zero false) Hpos Ha eq_refl I) as Hge.
  cbn [ord] in Hge.
  replace (ord (Prim2SF 1)) with (2 ^ 1074)%Z in Hle by (symmetry; vm_compute; reflexivity).
  apply between_of_val; try discriminate.
  - apply (approx_valid _ _ _ Ha).
  - change (val 0) with 0%Z.
    replace (val 1) with (2 ^ 1074)%Z by (symmetry; constant_val).
    unfold val at 1 2. split; [apply Hge; znia | apply Hle; rewrite Hvn; znia].
Qed.

Lemma Forall_slice : forall (A : Type) (P : A -> Prop) (arr : list A) start stop,
  Forall P arr -> Forall P (slice arr start stop).
Proof.
  intros A P arr start stop Hall. unfold slice.
  assert (Hskip : Forall P (skipn start arr)).
  { rewrite <- (firstn_skipn start arr) in Hall. apply Forall_app in Hall. apply Hall. }
  rewrite <- (firstn_skipn (stop - start) (skipn start arr)) in Hskip.
  apply Forall_app in Hskip. apply Hskip.
Qed.

Lemma length_slice : forall (A : Type) (arr : list A) start stop,
  length (slice arr start stop) = Nat.min (stop - start) (length arr - start).
Proof. intros A arr start stop. unfold slice. rewrite length_firstn, length_skipn. reflexivity. Qed.

(** The mean over bins that exist. *)
Lemma averageRange_between : forall (data : list number) (start stop : nat),
  Forall (between 0 1) data ->
  (start < length data)%nat -> (start <= stop)%nat -> (stop < 1000)%nat ->
  between 0 1 (averageRange data start stop).
Proof.
  intros data start stop Hall Hstart Hstop Hsmall. unfold averageRange.
  pose proof (length_slice _ data start (stop + 1)) as Hlen.
  apply mean_between; change number with float in *.
  - apply Forall_slice. exact Hall.
  - lia.
  - assert (2 ^ 10 <= 2 ^ 53)%Z by (apply Z.pow_le_mono_r; lia). lia.
Qed.

(** The mean over no bin at all is NaN. *)
Lemma averageRange_nan : forall (data : list number) (start stop : nat),
  (length data <= start)%nat -> averageRange data start stop = nan.
Proof.
  intros data start stop Hlen. unfold averageRange, slice.
  rewrite skipn_all2 by exact Hlen. rewrite firstn_nil. reflexivity.
Qed.

Lemma between_not_nan : forall a b x : float, between a b x -> is_nan x = false.
Proof. intros a b x Hx. apply is_nan_false. apply (between_val _ _ _ Hx). Qed.

Section WithMath.
Variable Math_pow : number -> number -> number.

Lemma nth_normalized : forall (audioData : list byte) i b,
  nth_error audioData i = Some b ->
  @nth number i (@map byte float (fun val => of_byte val / 255) audioData) nan
  = of_byte b / 255.
Proof.
  intros audioData i b Hb. apply nth_error_nth.
  rewrite nth_error_map, Hb. reflexivity.
Qed.

(** X2. The peaks of a snapshot in terms of its bytes: the extractor
    reports a peak at the index [i] exactly when the bin [i] has a bin on
    either side and holds a byte that is above both of theirs and at least
    128 (normalised, it is above 0.5); the value of the peak is that byte
    over 255. *)
Theorem peaks_of_snapshot : forall (audioData : list byte) (now : Z) (st : detector) (pk : peak),
  In pk (peaks (metricsOf (fst (processAudioData Math_pow audioData now st))))
  <-> exists prev b next,
        (1 <= index pk)%nat
        /\ nth_error audioData (index pk - 1) = Some prev
        /\ nth_error audioData (index pk) = Some b
        /\ nth_error audioData (index pk + 1) = Some next
        /\ value pk = of_byte b / 255
        /\ (Byte.to_N prev < Byte.to_N b)%N
        /\ (Byte.to_N next < Byte.to_N b)%N
        /\ (128 <= Byte.to_N b)%N.
Proof.
  intros audioData now st pk. cbn [processAudioData fst metricsOf peaks].
  rewrite PeakFacts.findPeaks_in. rewrite length_map. unfold gtb. split.
  - intros (Hlo & Hhi & Hv & H1 & H2 & H3).
    destruct (nth_error audioData (index pk - 1)) as [prev |] eqn:Hprev;
      [| apply nth_error_None in Hprev; lia].
    destruct (nth_error audioData (index pk)) as [b |] eqn:Hb;
      [| apply nth_error_None in Hb; lia].
    destruct (nth_error audioData (index pk + 1)) as [next |] eqn:Hnext;
      [| apply nth_error_None in Hnext; lia].
    rewrite (nth_normalized _ _ _ Hprev) in H1. rewrite (nth_normalized _ _ _ Hnext) in H2.
    rewrite (nth_normalized _ _ _ Hb) in Hv. rewrite Hv in H1, H2, H3.
    rewrite (of_byte_of_nat prev), (of_byte_of_nat b) in H1.
    rewrite (of_byte_of_nat next), (of_byte_of_nat b) in H2.
    rewrite (of_byte_of_nat b) in H3.
    rewrite normalized_order in H1 by apply byte_below_256.
    rewrite normalized_order in H2 by apply byte_below_256.
    destruct (normalized_range _ (byte_below_256 b)) as (_ & Hhalf & _).
    rewrite Hhalf in H3. apply Nat.ltb_lt in H1, H2. apply Nat.leb_le in H3.
    exists prev, b, next. repeat split; try assumption; lia.
  - intros (prev & b & next & Hlo & Hprev & Hb & Hnext & Hv & H1 & H2 & H3).
    assert (Hhi : (index pk + 1 < length audioData)%nat)
      by (apply nth_error_Some; rewrite Hnext; discriminate).
    rewrite (nth_normalized _ _ _ Hprev), (nth_normalized _ _ _ Hnext),
      (nth_normalized _ _ _ Hb), Hv.
    rewrite (of_byte_of_nat prev), (of_byte_of_nat next), (of_byte_of_nat b).
    rewrite !normalized_order by apply byte_below_256.
    destruct (normalized_range _ (byte_below_256 b)) as (_ & Hhalf & _). rewrite Hhalf.
    repeat split; try assumption; try reflexivity;
      try (apply Nat.ltb_lt; lia); apply Nat.leb_le; lia.
Qed.

Lemma waveform_between : forall audioData : list byte,
  Forall (between 0 1) (map (fun val => of_byte val / 255) audioData).
Proof.
  intros audioData. apply Forall_map, Forall_forall. intros b _. apply normalized_between.
Qed.

Lemma metrics_ranges : forall (audioData : list byte) (now : Z) (st : detector),
  (102 <= length audioData)%nat -> (Z.of_nat (length audioData) <= 2 ^ 53)%Z ->
  let r := fst (processAudioData Math_pow audioData now st) in
  let m := metricsOf r in
  length (waveform r) = length audioData
  /\ Forall (between 0 1) (waveform r)
  /\ between 0 1 (amplitude m)
  /\ between 0 1 (lowFreq m)
  /\ between 0 1 (midFreq m)
  /\ between 0 1 (highFreq m).
Proof.
  intros audioData now st Hlo Hhi. cbv zeta.
  cbn [processAudioData fst metricsOf waveform amplitude lowFreq midFreq highFreq].
  pose proof (waveform_between audioData) as Hw.
  split; [apply length_map |]. split; [exact Hw |]. split.
  - apply mean_between; rewrite ?length_map; [exact Hw | lia | exact Hhi].
  - repeat split; apply averageRange_between; rewrite ?length_map; try exact Hw; lia.
Qed.

(** X4. A band energy is NaN exactly when the snapshot has no bin in the
    band: the low band on the empty snapshot, the mid band on at most 11
    bins, the high band on at most 101 bins. *)
Theorem bands_undefined_when_short : forall (audioData : list byte) (now : Z) (st : detector),
  let m := metricsOf (fst (processAudioData Math_pow audioData now st)) in
  is_nan (lowFreq m) = (length audioData <=? 0)%nat
  /\ is_nan (midFreq m) = (length audioData <=? 11)%nat
  /\ is_nan (highFreq m) = (length audioData <=? 101)%nat.
Proof.
  intros audioData now st. cbv zeta.
  cbn [processAudioData fst metricsOf lowFreq midFreq highFreq].
  pose proof (waveform_between audioData) as Hw.
  repeat split.
  - destruct (Nat.leb_spec (length audioData) 0) as [Hle | Hgt].
    + rewrite averageRange_nan by (rewrite length_map; lia). reflexivity.
    + apply (between_not_nan 0 1), averageRange_between; rewrite ?length_map; try exact Hw; lia.
  - destruct (Nat.leb_spec (length audioData) 11) as [Hle | Hgt].
    + rewrite averageRange_nan by (rewrite length_map; lia). reflexivity.
    + apply (between_not_nan 0 1), averageRange_between; rewrite ?length_map; try exact Hw; lia.
  - destruct (Nat.leb_spec (length audioData) 101) as [Hle | Hgt].
    + rewrite averageRange_nan by (rewrite length_map; lia). reflexivity.
    + apply (between_not_nan 0 1), averageRange_between; rewrite ?length_map; try exact Hw; lia.
Qed.

Lemma visual_ranges : forall (audioData : list byte) (now : Z) (st : detector),
  (102 <= length audioData)%nat ->
  let r := fst (processAudioData Math_pow audioData now st) in
  let vp := visualParamsOf r in
  let a := MikeDropViz.processAudio r in
  speed vp = (if beatDetected (metricsOf r) then 1.5 else 1)
  /\ between 0 1.5 (colorIntensity vp)
  /\ between 1 1.5 (patternSize vp)
  /\ between 1 3 (complexity vp)
  /\ MikeDropViz.speedMod a = (if beatDetected (metricsOf r) then 1.15 else 1)
  /\ between 1 1.15 (MikeDropViz.sizeMod a).
Proof.
  intros audioData now st Hlen. cbv zeta.
  cbn [processAudioData fst metricsOf visualParamsOf MikeDropViz.processAudio
       speed colorIntensity patternSize complexity beatDetected lowFreq midFreq highFreq
       MikeDropViz.speedMod MikeDropViz.sizeMod].
  pose proof (waveform_between audioData) as Hw.
  set (data := map (fun val => of_byte val / 255) audioData) in *.
  assert (Hlow : between 0 1 (averageRange data 0 10))
    by (apply averageRange_between; subst data; rewrite ?length_map; try exact Hw; lia).
  assert (Hmid : between 0 1 (averageRange data 11 100))
    by (apply averageRange_between; subst data; rewrite ?length_map; try exact Hw; lia).
  assert (Hhigh : between 0 1 (averageRange data 101 255))
    by (apply averageRange_between; subst data; rewrite ?length_map; try exact Hw; lia).
  assert (Hone : between 1 1 1) by (apply between_refl; discriminate).
  assert (Hsize : between 1 1.5 (1 + averageRange data 0 10 * 0.5)).
  { apply (add_between 1 1 (0 * 0.5) (1 * 0.5)); try finite_constant; [exact Hone |].
    apply mul_between_l; try finite_constant; [constant_val | exact Hlow]. }
  split; [reflexivity |]. split; [| split; [exact Hsize | split; [| split]]].
  - apply (mul_between_l 0 1 _ 1.5); try finite_constant; [constant_val | exact Hhigh].
  - apply (add_between 1 1 (0 * 2) (1 * 2)); try finite_constant; [exact Hone |].
    apply mul_between_l; try finite_constant; [constant_val | exact Hmid].
  - destruct (fst (detectBeat data now st)); vm_compute; reflexivity.
  - apply (add_between 1 1 ((1 - 1) * 0.3) ((1.5 - 1) * 0.3)); try finite_constant;
      [exact Hone |].
    apply mul_between_l; try finite_constant; [constant_val |].
    apply (sub_between 1 1.5 1 1); try finite_constant; assumption.
Qed.

(** X3. On a snapshot of at least 102 bins (and at most 2^53) the waveform
    has one value per bin, each between 0 and 1, and the amplitude and the
    three band energies are between 0 and 1: none of them is NaN, and the
    rounding of the sums never takes a mean above 1. *)
Theorem metrics_in_unit_interval : forall (audioData : list byte) (now : Z) (st : detector),
  (102 <= length audioData)%nat -> (Z.of_nat (length audioData) <= 2 ^ 53)%Z ->
  let r := fst (processAudioData Math_pow audioData now st) in
  let m := metricsOf r in
  length (waveform r) = length audioData
  /\ Forall (between 0 1) (waveform r)
  /\ between 0 1 (amplitude m)
  /\ between 0 1 (lowFreq m)
  /\ between 0 1 (midFreq m)
  /\ between 0 1 (highFreq m).
Proof. exact metrics_ranges. Qed.

(** X5. On a snapshot of at least 102 bins the visual parameters are
    bounded: the speed is 1.5 on a beat and 1 otherwise, the colour
    intensity is between 0 and 1.5, the pattern size between 1 and 1.5 and
    the complexity between 1 and 3; the modulation that the component
    derives from them has the speed factor 1.15 on a beat and 1 otherwise,
    and a size factor between 1 and 1.15. *)
Theorem visual_parameters_ranges : forall (audioData : list byte) (now : Z) (st : detector),
  (102 <= length audioData)%nat ->
  let r := fst (processAudioData Math_pow audioData now st) in
  let vp := visualParamsOf r in
  let a := MikeDropViz.processAudio r in
  speed vp = (if beatDetected (metricsOf r) then 1.5 else 1)
  /\ between 0 1.5 (colorIntensity vp)
  /\ between 1 1.5 (patternSize vp)
  /\ between 1 3 (complexity vp)
  /\ MikeDropViz.speedMod a = (if beatDetected (metricsOf r) then 1.15 else 1)
  /\ between 1 1.15 (MikeDropViz.sizeMod a).
Proof. exact visual_ranges. Qed.

(** *** Silence *)

Lemma fold_sum_zeros : forall k : nat,
  fold_left (fun sum val => sum + val) (repeat 0 k) 0 = 0.
Proof. induction k as [| k IH]; [reflexivity |]. cbn [repeat fold_left]. exact IH. Qed.

Lemma zero_over_count : forall k : nat, (1 <= k)%nat -> (Z.of_nat k <= 2 ^ 53)%Z ->
  0 / of_nat k = 0.
Proof.
  intros k Hk Hk53. pose proof (pow2_gt0 1074 ltac:(lia)) as H1074.
  destruct (of_uint63_val (Z.of_nat k) ltac:(lia)) as [Hf Hv]. fold (of_nat k) in Hf, Hv.
  destruct (pos_finite_cases (of_nat k) Hf ltac:(nia)) as (m & e & Hp & _).
  apply Prim2SF_inj. rewrite div_spec, Hp. reflexivity.
Qed.

Lemma mean_of_zeros : forall k : nat, (1 <= k)%nat -> (Z.of_nat k <= 2 ^ 53)%Z ->
  sum (repeat 0 k) / of_nat (length (repeat 0 k)) = 0.
Proof.
  intros k Hk Hk53. unfold sum. rewrite fold_sum_zeros, repeat_length.
  apply zero_over_count; assumption.
Qed.

Lemma normalized_zeros : forall audioData : list byte,
  Forall (fun b => b = x00) audioData ->
  map (fun val => of_byte val / 255) audioData = repeat 0 (length audioData).
Proof.
  induction 1 as [| b l Hb Hl IH]; [reflexivity |].
  subst b. cbn [map length repeat]. rewrite IH. reflexivity.
Qed.

Lemma slice_repeat : forall (A : Type) (a : A) (n start stop : nat),
  slice (repeat a n) start stop = repeat a (Nat.min (stop - start) (n - start)).
Proof.
  intros A a n start stop. unfold slice.
  assert (Hskip : forall s k, skipn s (repeat a k) = repeat a (k - s)).
  { induction s as [| s IH]; intros k; [rewrite Nat.sub_0_r; reflexivity |].
    destruct k as [| k]; [reflexivity |]. cbn [repeat skipn]. apply IH. }
  rewrite Hskip. generalize (n - start)%nat as k. generalize (stop - start)%nat as j.
  induction j as [| j IH]; intros k; [reflexivity |].
  destruct k as [| k]; [reflexivity |]. cbn [repeat firstn Nat.min]. f_equal. apply IH.
Qed.

(** X6. On a snapshot of at least 102 bins that are all 0 the amplitude
    and the three band energies are exactly 0, there is no peak, the colour
    intensity is 0, the pattern size and the complexity are 1, and the size
    factor of the modulation is 1: silence leaves the pattern as the
    sliders set it. *)
Theorem silent_snapshot_metrics : forall (audioData : list byte) (now : Z) (st : detector),
  Forall (fun b => b = x00) audioData ->
  (102 <= length audioData)%nat -> (Z.of_nat (length audioData) <= 2 ^ 53)%Z ->
  let r := fst (processAudioData Math_pow audioData now st) in
  let m := metricsOf r in
  let vp := visualParamsOf r in
  (amplitude m = 0 /\ lowFreq m = 0 /\ midFreq m = 0 /\ highFreq m = 0)
  /\ peaks m = []
  /\ (colorIntensity vp = 0 /\ patternSize vp = 1 /\ complexity vp = 1)
  /\ MikeDropViz.sizeMod (MikeDropViz.processAudio r) = 1.
Proof.
  intros audioData now st Hzero Hlo Hhi. cbv zeta.
  cbn [processAudioData fst metricsOf visualParamsOf MikeDropViz.processAudio
       amplitude lowFreq midFreq highFreq peaks colorIntensity patternSize complexity
       MikeDropViz.sizeMod].
  rewrite (normalized_zeros audioData Hzero).
  set (n := length audioData) in *.
  assert (Hband : forall start stop, (start < n)%nat -> (start <= stop)%nat ->
                    averageRange (repeat 0 n) start stop = 0).
  { intros start stop Hs Hst. unfold averageRange. rewrite slice_repeat.
    apply mean_of_zeros; lia. }
  assert (Hamp : sum (repeat 0 n) / of_nat (length (repeat 0 n)) = 0)
    by (apply mean_of_zeros; lia).
  rewrite Hamp, !Hband by lia.
  repeat split.
  destruct (findPeaks (repeat 0 n)) as [| pk rest] eqn:Hpeaks; [reflexivity | exfalso].
  assert (Hin : In pk (findPeaks (repeat 0 n))) by (rewrite Hpeaks; left; reflexivity).
  apply PeakFacts.findPeaks_in in Hin. destruct Hin as (_ & Hi & Hv & _ & _ & Hhalf).
  rewrite repeat_length in Hi.
  assert (Hnth : nth (index pk) (repeat 0 n) nan = 0).
  { apply nth_error_nth. apply nth_error_repeat. lia. }
  change number with float in *. rewrite Hv, Hnth in Hhalf. discriminate.
Qed.

Lemma slice_firstn : forall (A : Type) (arr : list A) (n start stop : nat),
  (stop <= n)%nat -> slice (firstn n arr) start stop = slice arr start stop.
Proof.
  intros A arr n start stop Hn. unfold slice.
  rewrite skipn_firstn_comm, firstn_firstn. f_equal. lia.
Qed.

Lemma averageRange_firstn : forall (data : list number) (n start stop : nat),
  (stop < n)%nat -> averageRange (firstn n data) start stop = averageRange data start stop.
Proof.
  intros data n start stop Hn. unfold averageRange.
  rewrite slice_firstn by lia. reflexivity.
Qed.

Lemma detectBeat_firstn : forall (data : list number) (n : nat) (now : Z) (st : detector),
  (11 <= n)%nat -> detectBeat (firstn n data) now st = detectBeat data now st.
Proof.
  intros data n now st Hn. unfold detectBeat.
  rewrite averageRange_firstn by lia. reflexivity.
Qed.

(** X7. The band energies read the bins 0 to 255 only, and the beat
    detector the bins 0 to 10 only: cutting the snapshot after 256 bins
    changes none of the three band energies, and cutting it after 11 bins
    changes neither the low band energy nor the beat reported nor the
    detector state left behind. *)
Theorem bands_read_first_256_bins : forall (audioData : list byte) (now : Z) (st : detector),
  let r := processAudioData Math_pow audioData now st in
  let r256 := processAudioData Math_pow (firstn 256 audioData) now st in
  let r11 := processAudioData Math_pow (firstn 11 audioData) now st in
  lowFreq (metricsOf (fst r256)) = lowFreq (metricsOf (fst r))
  /\ midFreq (metricsOf (fst r256)) = midFreq (metricsOf (fst r))
  /\ highFreq (metricsOf (fst r256)) = highFreq (metricsOf (fst r))
  /\ (beatDetected (metricsOf (fst r11)) = beatDetected (metricsOf (fst r))
      /\ lowFreq (metricsOf (fst r11)) = lowFreq (metricsOf (fst r))
      /\ snd r11 = snd r).
Proof.
  intros audioData now st. cbv zeta.
  cbn [processAudioData fst snd metricsOf lowFreq midFreq highFreq beatDetected].
  rewrite <- !firstn_map.
  rewrite !averageRange_firstn by lia. rewrite detectBeat_firstn by lia.
  repeat split.
Qed.

End WithMath.

(** 256 bins of silence. *)
Lemma silent_snapshot_metrics_witness :
  let r := fst (processAudioData ExampleMath.Math_pow (repeat x00 256) 1000 initialDetector) in
  let m := metricsOf r in
  let vp := visualParamsOf r in
  (amplitude m = 0 /\ lowFreq m = 0 /\ midFreq m = 0 /\ highFreq m = 0)
  /\ peaks m = []
  /\ (colorIntensity vp = 0 /\ patternSize vp = 1 /\ complexity vp = 1)
  /\ MikeDropViz.sizeMod (MikeDropViz.processAudio r) = 1.
Proof.
  apply (silent_snapshot_metrics ExampleMath.Math_pow (repeat x00 256) 1000 initialDetector).
  - apply Forall_forall. intros b Hb. apply repeat_spec in Hb. exact Hb.
  - rewrite repeat_length. lia.
  - rewrite repeat_length. vm_compute. discriminate.
Defined.

(** 256 bins at half level. *)
Lemma metrics_in_unit_interval_witness :
  let r := fst (processAudioData ExampleMath.Math_pow (repeat x80 256) 1000 initialDetector) in
  let m := metricsOf r in
  length (waveform r) = length (repeat x80 256)
  /\ Forall (between 0 1) (waveform r)
  /\ between 0 1 (amplitude m)
  /\ between 0 1 (lowFreq m)
  /\ between 0 1 (midFreq m)
  /\ between 0 1 (highFreq m).
Proof.
  apply (metrics_in_unit_interval ExampleMath.Math_pow (repeat x80 256) 1000 initialDetector).
  - rewrite repeat_length. lia.
  - rewrite repeat_length. vm_compute. discriminate.
Defined.

(** The parameters of 256 bins at half level. *)
Lemma visual_parameters_ranges_witness :
  let r := fst (processAudioData ExampleMath.Math_pow (repeat x80 256) 1000 initialDetector) in
  let vp := visualParamsOf r in
  let a := MikeDropViz.processAudio r in
  speed vp = (if beatDetected (metricsOf r) then 1.5 else 1)
  /\ between 0 1.5 (colorIntensity vp)
  /\ between 1 1.5 (patternSize vp)
  /\ between 1 3 (complexity vp)
  /\ MikeDropViz.speedMod a = (if beatDetected (metricsOf r) then 1.15 else 1)
  /\ between 1 1.15 (MikeDropViz.sizeMod a).
Proof.
  apply (visual_parameters_ranges ExampleMath.Math_pow (repeat x80 256) 1000 initialDetector).
  rewrite repeat_length. lia.
Defined.

End SnapshotFacts.
(** * Properties of runs of the beat detector *)

Module DetectorRunFacts.
Import JS AudioParse Binary64 Binary64Facts  Binary64Order.

(** *** The history is a window on the energies *)

Lemma pushEnergy_window : forall (history : list number) (energy : number),
  (length history <= 8)%nat ->
  pushEnergy history energy
  = skipn (length (history ++ [energy]) - 8) (history ++ [energy]).
Proof.
  intros history energy Hlen. unfold pushEnergy.
  destruct (Nat.ltb_spec 8 (length (history ++ [energy]))) as [Hlt | Hle].
  - rewrite length_app in *. cbn [length] in *.
    replace (length history + 1 - 8)%nat with 1%nat by lia.
    destruct history; reflexivity.
  - replace (length (history ++ [energy]) - 8)%nat with 0%nat by lia. reflexivity.
Qed.

Lemma last_cons : forall (A : Type) (a d : A) (l : list A), last (a :: l) d = last l a.
Proof.
  intros A a d l. revert a d. induction l as [| b l IH]; intros a d; [reflexivity |].
  change (last (a :: b :: l) d) with (last (b :: l) d). rewrite !IH. reflexivity.
Qed.

Lemma runDetector_window : forall (calls : list (list number * Z)) (st : detector),
  (length (beatHistory st) <= 8)%nat ->
  beatHistory (last (map snd (runDetector calls st)) st)
  = skipn (length (beatHistory st) + length calls - 8)
          (beatHistory st ++ map (fun c => averageRange (fst c) 0 10) calls).
Proof.
  induction calls as [| [data now] rest IH]; intros st Hst.
  - cbn [runDetector map last length]. rewrite app_nil_r.
    replace (length (beatHistory st) + 0 - 8)%nat with 0%nat by lia. reflexivity.
  - cbn [runDetector map]. rewrite last_cons.
    pose proof (DetectorFacts.detectBeat_history data now st) as Hh.
    set (st' := snd (detectBeat data now st)) in *.
    assert (Hst' : (length (beatHistory st') <= 8)%nat)
      by (rewrite Hh; apply DetectorFacts.pushEnergy_bounded; exact Hst).
    rewrite (IH st' Hst'). cbn [fst length].
    rewrite Hh, pushEnergy_window by exact Hst.
    set (e := averageRange data 0 10). set (es := map _ rest).
    set (h := beatHistory st) in *.
    replace (h ++ e :: es) with ((h ++ [e]) ++ es) by (rewrite <- app_assoc; reflexivity).
    set (X := h ++ [e]).
    assert (HX : length X = S (length h)) by (subst X; rewrite length_app; cbn; lia).
    set (j := (length X - 8)%nat).
    assert (Hj : (j <= length X)%nat) by (subst j; lia).
    assert (Happ : skipn j X ++ es = skipn j (X ++ es)).
    { rewrite skipn_app. replace (j - length X)%nat with 0%nat by lia. reflexivity. }
    rewrite Happ, skipn_skipn. f_equal.
    rewrite length_skipn. subst j. lia.
Qed.

(** X8. After any sequence of calls from process start, the history holds
    the low-band energies of the last 8 calls (of all calls, when there
    were fewer), oldest first. *)
Theorem beatHistory_holds_last_8_energies : forall calls : list (list number * Z),
  beatHistory (last (map snd (runDetector calls initialDetector)) initialDetector)
  = skipn (length calls - 8) (map (fun c => averageRange (fst c) 0 10) calls).
Proof.
  intros calls. rewrite runDetector_window by (cbn; lia). reflexivity.
Qed.

(** *** The stored time of the last beat *)

Lemma runDetector_lastBeatTime : forall (calls : list (list number * Z)) (st : detector),
  lastBeatTime (last (map snd (runDetector calls st)) st)
  = last (map (fun p => snd (fst p))
              (filter (fun p => fst (snd p)) (combine calls (runDetector calls st))))
         (lastBeatTime st).
Proof.
  induction calls as [| [data now] rest IH]; intros st; [reflexivity |].
  cbn [runDetector map combine filter fst snd]. rewrite last_cons, IH.
  destruct (DetectorFacts.detectBeat_cases data now st) as [_ Hlast].
  rewrite Hlast.
  destruct (fst (detectBeat data now st)); [| reflexivity].
  cbn [map fst snd]. rewrite last_cons. reflexivity.
Qed.

(** X9. After any sequence of calls from process start, the stored time of
    the last beat is the clock reading of the latest call that reported a
    beat, and 0 when no call has. *)
Theorem lastBeatTime_is_latest_beat : forall calls : list (list number * Z),
  let results := runDetector calls initialDetector in
  lastBeatTime (last (map snd results) initialDetector)
  = last (map (fun p => snd (fst p)) (filter (fun p => fst (snd p)) (combine calls results)))
         0%Z.
Proof. intros calls. apply runDetector_lastBeatTime. Qed.

(** *** NaN in the history *)

Lemma is_nan_eq : forall x : float, is_nan x = true -> x = nan.
Proof.
  intros x Hx. apply Prim2SF_nan_eq.
  destruct (Prim2SF x) as [s | s | | s m e] eqn:Hp; try reflexivity;
    rewrite is_nan_false in Hx by (rewrite Hp; discriminate); discriminate.
Qed.

Lemma add_nan_l : forall x : float, nan + x = nan.
Proof. intros x. apply Prim2SF_nan_eq. rewrite add_spec. reflexivity. Qed.

Lemma add_nan_r : forall x : float, x + nan = nan.
Proof.
  intros x. apply Prim2SF_nan_eq. rewrite add_spec.
  change (Prim2SF nan) with S754_nan. destruct (Prim2SF x); reflexivity.
Qed.

Lemma div_nan_l : forall x : float, nan / x = nan.
Proof. intros x. apply Prim2SF_nan_eq. rewrite div_spec. reflexivity. Qed.

Lemma mul_nan_l : forall x : float, nan * x = nan.
Proof. intros x. apply Prim2SF_nan_eq. rewrite mul_spec. reflexivity. Qed.

Lemma ltb_nan_l : forall x : float, (nan <? x) = false.
Proof. intros x. rewrite ltb_spec. reflexivity. Qed.

Lemma fold_sum_nan : forall arr : list number,
  fold_left (fun sum val => sum + val) arr nan = nan.
Proof.
  induction arr as [| v arr IH]; [reflexivity |].
  cbn [fold_left]. rewrite add_nan_l. exact IH.
Qed.

Lemma sum_nan : forall (pre post : list number) (e : number),
  is_nan e = true -> sum (pre ++ e :: post) = nan.
Proof.
  intros pre post e He. apply is_nan_eq in He. subst e.
  unfold sum. rewrite fold_left_app. cbn [fold_left].
  rewrite add_nan_r. apply fold_sum_nan.
Qed.

(** With a NaN in the history after the push, no beat is reported. *)
Lemma detectBeat_nan : forall (data : list number) (now : Z) (st : detector)
    (pre post : list number) (e : number),
  is_nan e = true ->
  pushEnergy (beatHistory st) (averageRange data 0 10) = pre ++ e :: post ->
  fst (detectBeat data now st) = false.
Proof.
  intros data now st pre post e He Hpush. unfold detectBeat.
  rewrite Hpush, (sum_nan pre post e He).
  rewrite div_nan_l, mul_nan_l. unfold gtb. rewrite ltb_nan_l. reflexivity.
Qed.

Lemma pushEnergy_keeps : forall (pre post : list number) (e energy : number),
  (length post < 7)%nat ->
  exists pre', pushEnergy (pre ++ e :: post) energy = pre' ++ e :: (post ++ [energy]).
Proof.
  intros pre post e energy Hpost. unfold pushEnergy.
  replace ((pre ++ e :: post) ++ [energy]) with (pre ++ e :: (post ++ [energy]))
    by (rewrite <- app_assoc; reflexivity).
  destruct (Nat.ltb_spec 8 (length (pre ++ e :: post ++ [energy]))) as [Hlt | Hle].
  - destruct pre as [| p pre'].
    + exfalso. cbn [app length] in Hlt. rewrite length_app in Hlt. cbn [length] in Hlt. lia.
    + exists pre'. reflexivity.
  - exists pre. reflexivity.
Qed.

Lemma runDetector_nan : forall (calls : list (list number * Z)) (st : detector)
    (pre post : list number) (e : number),
  is_nan e = true ->
  beatHistory st = pre ++ e :: post ->
  (length post + length calls <= 7)%nat ->
  Forall (fun r => fst r = false) (runDetector calls st).
Proof.
  induction calls as [| [data now] rest IH]; intros st pre post e He Hst Hlen.
  - constructor.
  - cbn [runDetector]. cbn [length] in Hlen.
    destruct (pushEnergy_keeps pre post e (averageRange data 0 10) ltac:(lia)) as [pre' Hpush].
    rewrite <- Hst in Hpush.
    constructor.
    + apply (detectBeat_nan data now st pre' _ e He Hpush).
    + apply (IH _ pre' (post ++ [averageRange data 0 10]) e He).
      * rewrite DetectorFacts.detectBeat_history. exact Hpush.
      * rewrite length_app. cbn [length]. lia.
Qed.

(** X10. A call whose low-band energy is NaN (as on the empty snapshot)
    reports no beat, and neither do the next 7 calls, whatever they see and
    whatever the state was: the NaN stays in the history for 8 calls and
    makes the rolling mean NaN. *)
Theorem nan_energy_silences_detector :
  forall (data : list number) (now : Z) (rest : list (list number * Z)) (st : detector),
  is_nan (averageRange data 0 10) = true ->
  (length rest <= 7)%nat ->
  Forall (fun r => fst r = false) (runDetector ((data, now) :: rest) st).
Proof.
  intros data now rest st Hnan Hlen.
  set (e := averageRange data 0 10) in *.
  assert (Hpush : exists pre, pushEnergy (beatHistory st) e = pre ++ e :: []).
  { unfold pushEnergy.
    destruct (Nat.ltb_spec 8 (length (beatHistory st ++ [e]))) as [Hlt | Hle].
    - destruct (beatHistory st) as [| h0 h]; [cbn in Hlt; lia |]. exists h. reflexivity.
    - exists (beatHistory st). reflexivity. }
  destruct Hpush as [pre Hpush].
  cbn [runDetector]. constructor.
  - apply (detectBeat_nan data now st pre [] e Hnan Hpush).
  - apply (runDetector_nan rest _ pre [] e Hnan).
    + rewrite DetectorFacts.detectBeat_history. exact Hpush.
    + cbn [length]. lia.
Qed.

(** After a call that saw silence, the empty snapshot silences the two
    calls that follow, which both see a full-scale bin. *)
Lemma nan_energy_silences_detector_witness :
  Forall (fun r => fst r = false)
         (runDetector [([], 500%Z); ([1], 1000%Z); ([1], 2000%Z)]
                      (snd (detectBeat [0] 0 initialDetector))).
Proof.
  apply (nan_energy_silences_detector [] 500 [([1], 1000%Z); ([1], 2000%Z)]).
  - reflexivity.
  - cbn [length]. lia.
Defined.

(** *** A beat needs energy in the low band *)

Lemma pushEnergy_not_below_zero : forall (history : list number) (energy : number),
  Forall not_below_zero history -> not_below_zero energy ->
  Forall not_below_zero (pushEnergy history energy).
Proof.
  intros history energy Hh He. unfold pushEnergy.
  assert (Hp : Forall not_below_zero (history ++ [energy]))
    by (apply Forall_app; split; [exact Hh | repeat constructor; exact He]).
  destruct (8 <? length (history ++ [energy]))%nat; [| exact Hp].
  destruct (history ++ [energy]) as [| h0 h]; [constructor |].
  inversion Hp; assumption.
Qed.

Lemma ltb_false_val : forall x y : float,
  Prim2SF x <> S754_nan -> Prim2SF y <> S754_nan ->
  (x <? y) = false -> (val y <= val x)%Z.
Proof.
  intros x y Hx Hy Hlt.
  destruct (Z.le_gt_cases (val y) (val x)) as [H | H]; [exact H | exfalso].
  assert (Ht : (x <? y) = true) by (apply ltb_val; repeat split; assumption).
  congruence.
Qed.

(** A beat on a history without negative entries needs a positive
    energy. *)
Lemma detectBeat_positive : forall (data : list number) (now : Z) (st : detector),
  Forall not_below_zero (beatHistory st) ->
  not_below_zero (averageRange data 0 10) ->
  fst (detectBeat data now st) = true ->
  (0 <? averageRange data 0 10) = true.
Proof.
  intros data now st Hh He Hbeat.
  destruct (DetectorFacts.detectBeat_cases data now st) as [Hiff _].
  apply Hiff in Hbeat. destruct Hbeat as [Hspike _]. unfold gtb in Hspike.
  set (e := averageRange data 0 10) in *.
  pose proof (pushEnergy_not_below_zero _ _ Hh He) as Hp.
  set (history := pushEnergy (beatHistory st) e) in *.
  pose proof (DetectorFacts.sum_not_below_zero history Hp) as Hsum.
  pose proof (div_of_uint63_not_below_zero (sum history)
                (Uint63.of_Z (Z.of_nat (length history))) Hsum) as Havg.
  fold (of_nat (length history)) in Havg.
  set (avg := sum history / of_nat (length history)) in *.
  apply ltb_val in Hspike. destruct Hspike as (Hn15 & Hne & Hlt).
  assert (Hna : Prim2SF avg <> S754_nan).
  { intros Hnan. apply Prim2SF_nan_eq in Hnan. apply Hn15. rewrite Hnan, mul_nan_l. reflexivity. }
  pose proof (ltb_false_val avg 0 Hna ltac:(discriminate) Havg) as H0.
  pose proof (ltb_false_val (avg * 1.5) avg Hn15 Hna
                (mul_three_halves_not_below avg Havg)) as H15.
  change (val 0) with 0%Z in H0.
  apply ltb_val. repeat split; [discriminate | exact Hne |]. change (val 0) with 0%Z. lia.
Qed.

Lemma normalized_not_below_zero : forall audioData : list byte,
  Forall not_below_zero (map (fun val => of_byte val / 255) audioData).
Proof.
  intros audioData. apply Forall_map, Forall_forall. intros b _.
  pose proof (SnapshotFacts.normalized_between b) as [H0 _].
  apply leb_val in H0. destruct H0 as (_ & Hn & Hv). change (val 0) with 0%Z in Hv.
  unfold not_below_zero.
  destruct (of_byte b / 255 <? 0) eqn:Hlt; [| reflexivity].
  apply ltb_val in Hlt. change (val 0) with 0%Z in Hlt. lia.
Qed.

(** The mean of no bin or of up to 11 zeros is not positive. *)
Lemma mean_of_few_zeros : forall k : nat, (k <= 11)%nat ->
  (0 <? sum (repeat 0 k) / of_nat k) = false.
Proof.
  assert (Hall : forallb (fun k => negb (0 <? sum (repeat 0 k) / of_nat k)) (seq 0 12) = true)
    by (vm_compute; reflexivity).
  intros k Hk. rewrite forallb_forall in Hall. specialize (Hall k).
  rewrite in_seq in Hall. specialize (Hall ltac:(lia)).
  apply negb_true_iff in Hall. exact Hall.
Qed.

Lemma silent_low_band : forall audioData : list byte,
  Forall (fun b => b = x00) (firstn 11 audioData) ->
  (0 <? averageRange (map (fun val => of_byte val / 255) audioData) 0 10) = false.
Proof.
  intros audioData Hzero. unfold averageRange, slice.
  cbn [skipn Nat.add Nat.sub]. rewrite firstn_map.
  assert (Hrep : map (fun val => of_byte val / 255) (firstn 11 audioData)
                 = repeat 0 (length (firstn 11 audioData))).
  { induction Hzero as [| b l Hb Hl IH]; [reflexivity |].
    subst b. cbn [map length repeat]. rewrite IH. reflexivity. }
  rewrite Hrep, repeat_length. apply mean_of_few_zeros.
  rewrite length_firstn. lia.
Qed.

Section WithMath.
Variable Math_pow : number -> number -> number.

Lemma runExtractor_beat_positive : forall (calls : list (list byte * Z)) (st : detector),
  Forall not_below_zero (beatHistory st) ->
  Forall (fun r => beatDetected (metricsOf (fst r)) = true ->
                   (0 <? lowFreq (metricsOf (fst r))) = true)
         (runExtractor Math_pow calls st).
Proof.
  induction calls as [| [audioData now] rest IH]; intros st Hst; [constructor |].
  cbn [runExtractor].
  pose proof (normalized_not_below_zero audioData) as Hdata.
  pose proof (DetectorFacts.averageRange_not_below_zero _ 0 10 Hdata) as He.
  constructor.
  - cbn [processAudioData fst metricsOf beatDetected lowFreq].
    apply detectBeat_positive; assumption.
  - apply IH. cbn [processAudioData snd].
    rewrite DetectorFacts.detectBeat_history.
    apply pushEnergy_not_below_zero; assumption.
Qed.

Lemma nth_error_runExtractor : forall (calls : list (list byte * Z)) (st : detector) i r,
  nth_error (runExtractor Math_pow calls st) i = Some r ->
  exists audioData now st0,
    nth_error calls i = Some (audioData, now)
    /\ r = processAudioData Math_pow audioData now st0.
Proof.
  induction calls as [| [audioData now] rest IH]; intros st i r Hr.
  - destruct i; discriminate.
  - destruct i as [| i']; cbn [runExtractor nth_error] in *.
    + injection Hr as <-. eauto.
    + apply (IH _ _ _ Hr).
Qed.

(** X11. In any sequence of calls of the extractor from process start, a
    call that reports a beat has a positive low-band energy, so at least
    one of the first 11 bytes of its snapshot is not 0: silence is never a
    beat. *)
Theorem beat_needs_low_band_energy :
  forall (calls : list (list byte * Z)) (i : nat) (audioData : list byte) (now : Z)
         (r : processed * detector),
  nth_error calls i = Some (audioData, now) ->
  nth_error (runExtractor Math_pow calls initialDetector) i = Some r ->
  beatDetected (metricsOf (fst r)) = true ->
  (0 <? lowFreq (metricsOf (fst r))) = true
  /\ Exists (fun b => b <> x00) (firstn 11 audioData).
Proof.
  intros calls i audioData now r Hcall Hr Hbeat.
  pose proof (runExtractor_beat_positive calls initialDetector ltac:(constructor)) as Hall.
  rewrite Forall_forall in Hall.
  pose proof (Hall r (nth_error_In _ _ Hr) Hbeat) as Hpos.
  split; [exact Hpos |].
  destruct (nth_error_runExtractor _ _ _ _ Hr) as (audioData' & now' & st0 & Hcall' & ->).
  rewrite Hcall in Hcall'. injection Hcall' as <- <-.
  cbn [processAudioData fst metricsOf lowFreq] in Hpos.
  destruct (Forall_Exists_dec (fun b => b = x00) (fun b => Byte.byte_eq_dec b x00)
              (firstn 11 audioData)) as [Hzero | Hex]; [| exact Hex].
  rewrite (silent_low_band audioData Hzero) in Hpos. discriminate.
Qed.

End WithMath.

(** Silence, then a full-scale snapshot one second later: the second call
    reports a beat. *)
Lemma beat_needs_low_band_energy_witness :
  let calls := [(repeat x00 256, 0%Z); (repeat xff 256, 1000%Z)] in
  let r := nth 1 (runExtractor ExampleMath.Math_pow calls initialDetector)
               (processAudioData ExampleMath.Math_pow [] 0 initialDetector) in
  (0 <? lowFreq (metricsOf (fst r))) = true
  /\ Exists (fun b => b <> x00) (firstn 11 (repeat xff 256)).
Proof.
  cbv zeta.
  apply (beat_needs_low_band_energy ExampleMath.Math_pow
           [(repeat x00 256, 0%Z); (repeat xff 256, 1000%Z)] 1 (repeat xff 256) 1000).
  - reflexivity.
  - reflexivity.
  - vm_compute. reflexivity.
Defined.

End DetectorRunFacts.
(** * The hue of a vertex *)

Module HueFacts.
Import JS MikeDropViz Binary64 Binary64Facts  Binary64Order.

(** The remainder of two positive numbers is exact: its value is the
    remainder of the values. *)
Lemma remainder_val : forall n d : float,
  finite n -> finite d -> (0 < val n)%Z -> (0 < val d)%Z ->
  Prim2SF (remainder n d) <> S754_nan
  /\ val (remainder n d) = (val n mod val d)%Z.
Proof.
  intros n d Hn Hd Hnpos Hdpos.
  destruct (pos_finite_cases n Hn Hnpos) as (mn & en & Hpn & Hvn).
  destruct (pos_finite_cases d Hd Hdpos) as (md & ed & Hpd & Hvd).
  pose proof (Prim2SF_valid n) as Hvaln. pose proof (Prim2SF_valid d) as Hvald.
  rewrite Hpn in Hvaln. rewrite Hpd in Hvald.
  apply valid_finite_gridpt in Hvaln, Hvald.
  destruct Hvaln as ((_ & Hen & _) & Hmn & Hen'), Hvald as ((_ & Hed & _) & Hmd & Hed').
  unfold remainder. rewrite Hpn, Hpd.
  set (ez := Z.min en ed).
  set (a := (Zpos mn * 2 ^ (en - ez))%Z). set (b := (Zpos md * 2 ^ (ed - ez))%Z).
  assert (Hez : (-1074 <= ez <= 971)%Z) by (subst ez; lia).
  pose proof (pow2_gt0 (en - ez) ltac:(subst ez; lia)) as Hpa.
  pose proof (pow2_gt0 (ed - ez) ltac:(subst ez; lia)) as Hpb.
  pose proof (pow2_gt0 (ez + 1074) ltac:(lia)) as Hu.
  assert (Hb : (0 < b)%Z) by (subst b; nia).
  assert (Ha : (0 <= a)%Z) by (subst a; nia).
  pose proof (Z.mod_pos_bound a b Hb) as Hr.
  assert (Hra : (a mod b <= a)%Z) by (apply Z.mod_le; lia).
  assert (Hr53 : (a mod b < 2 ^ 53)%Z).
  { destruct (Z.le_ge_cases en ed) as [Hle | Hge].
    - assert (Haeq : a = Zpos mn) by (subst a ez; rewrite Z.min_l by lia;
                                       rewrite Z.sub_diag, Z.pow_0_r; lia).
      lia.
    - assert (Hbeq : b = Zpos md) by (subst b ez; rewrite Z.min_r by lia;
                                       rewrite Z.sub_diag, Z.pow_0_r; lia).
      lia. }
  pose proof (binary_normalize_approx (a mod b) ez ltac:(lia)) as Happ.
  destruct (repr_exists (a mod b) ez ltac:(lia) Hez) as (y & Hy & Hfy & Hyv).
  pose proof (approx_exact _ 1 _ y ltac:(lia) Happ Hy Hfy ltac:(lia)) as Hex.
  destruct (approx_valid _ _ _ Happ) as (Hvr & Hnr & _).
  unfold val at 1. rewrite Prim2SF_SF2Prim by exact Hvr.
  split; [exact Hnr |].
  rewrite Hex, Hyv, Hvn, Hvd. unfold gval.
  assert (Hsn : (Zpos mn * 2 ^ (en + 1074) = a * 2 ^ (ez + 1074))%Z).
  { subst a. rewrite <- Z.mul_assoc, pow2_add by (subst ez; lia). do 2 f_equal. lia. }
  assert (Hsd : (Zpos md * 2 ^ (ed + 1074) = b * 2 ^ (ez + 1074))%Z).
  { subst b. rewrite <- Z.mul_assoc, pow2_add by (subst ez; lia). do 2 f_equal. lia. }
  rewrite Hsn, Hsd. rewrite Z.mul_mod_distr_r by lia. reflexivity.
Qed.

(** No finite number is above the largest finite number. *)
Lemma val_le_max : forall x : float, finite x ->
  (val x <= val 0x1.fffffffffffffp+1023)%Z.
Proof.
  intros x Hf. unfold finite, val in *. pose proof (Prim2SF_valid x) as Hv.
  replace (ord (Prim2SF 0x1.fffffffffffffp+1023)) with ((2 ^ 53 - 1) * 2 ^ 2045)%Z
    by (vm_compute; reflexivity).
  pose proof (pow2_gt0 2045 ltac:(zlia)) as H2045.
  destruct (Prim2SF x) as [s | s | | s m e]; try destruct Hf; cbn [ord].
  - znia.
  - pose proof (valid_gval_bounds s m e Hv) as Bv.
    apply valid_finite_gridpt in Hv. destruct Hv as ((_ & He & _) & Hm & He').
    destruct s; [znia |]. unfold gval.
    assert (2 ^ (e + 1074) <= 2 ^ 2045)%Z by (apply Z.pow_le_mono_r; zlia).
    pose proof (pow2_gt0 (e + 1074) ltac:(zlia)). znia.
Qed.

(** One step of the hue. *)
Lemma hue_step_range : forall h c : float,
  (0 <=? h) = true -> (h <? 360) = true ->
  (0 <=? c) = true -> (c <? infinity) = true ->
  (0 <=? remainder (h + c) 360) = true /\ (remainder (h + c) 360 <? 360) = true.
Proof.
  intros h c Hh0 Hh1 Hc0 Hc1.
  apply leb_val in Hh0, Hc0. apply ltb_val in Hh1, Hc1.
  destruct Hh0 as (_ & Hhn & Hh0), Hh1 as (_ & _ & Hh1).
  destruct Hc0 as (_ & Hcn & Hc0), Hc1 as (_ & _ & Hc1).
  change (val 0) with 0%Z in *.
  assert (H360 : (0 < val 360 < 2 ^ 2098)%Z) by (split; constant_lt).
  assert (Hfh : finite h) by (apply finite_of_val_bounds; [exact Hhn | zlia]).
  assert (Hfc : finite c).
  { apply finite_of_val_bounds; [exact Hcn |].
    replace (val infinity) with (2 ^ 2098)%Z in Hc1 by (vm_compute; reflexivity).
    pose proof (pow2_gt0 2098 ltac:(zlia)). zlia. }
  assert (Hf360 : finite 360) by finite_constant.
  assert (Hfmax : finite 0x1.fffffffffffffp+1023) by finite_constant.
  pose proof (add_approx h c Hfh Hfc) as Ha.
  pose proof (approx_ge _ 1 _ (S754_zero false) ltac:(zlia) Ha eq_refl I
                ltac:(cbn [ord]; zlia)) as Hs0.
  cbn [ord] in Hs0. fold (val (h + c)) in Hs0.
  assert (Hfs : finite (h + c)).
  { apply (finite_of_approx _ _ _ Ha).
    pose proof (add_val_mono_l h 360 c Hfh Hf360 Hfc ltac:(zlia)).
    pose proof (add_val_mono_r 360 c _ Hf360 Hfc Hfmax (val_le_max c Hfc)).
    assert (val (360 + 0x1.fffffffffffffp+1023) < 2 ^ 2098)%Z by constant_lt.
    pose proof (pow2_gt0 2098 ltac:(zlia)). zlia. }
  destruct (Z.eq_dec (val (h + c)) 0) as [Hz | Hnz].
  - assert (Hr : remainder (h + c) 360 = h + c).
    { unfold remainder. unfold finite, val in Hfs, Hz.
      pose proof (Prim2SF_valid (h + c)) as Hv.
      change (Prim2SF 360) with (S754_finite false 6333186975989760 (-44)).
      destruct (Prim2SF (h + c)) as [s | s | | s m e]; try destruct Hfs; [reflexivity |].
      pose proof (valid_gval_bounds s m e Hv).
      exfalso. cbn [ord] in Hz. destruct s; zlia. }
    rewrite Hr. split; [apply leb_val | apply ltb_val];
      (repeat split; try discriminate; try apply (not_nan_of_finite _ Hfs));
      change (val 0) with 0%Z; zlia.
  - destruct (remainder_val (h + c) 360 Hfs Hf360 ltac:(zlia) ltac:(zlia)) as [Hrn Hrv].
    pose proof (Z.mod_pos_bound (val (h + c)) (val 360) ltac:(zlia)) as Hb.
    split; [apply leb_val | apply ltb_val];
      (repeat split; try discriminate; try exact Hrn);
      change (val 0) with 0%Z; zlia.
Qed.

(** One step of the hue at a colour speed of at most 2: the sum is rounded
    to a neighbour on the grid of step [2^-44], so it is off by at most
    [2^-44] ([2^1030] units of [2^-1074]), and the remainder is exact. *)
Lemma hue_step_val : forall h c : float,
  (0 <=? h) = true -> (h <? 360) = true ->
  (0 <=? c) = true -> (c <=? 2) = true ->
  exists e : Z,
    (Z.abs e <= 2 ^ 1030)%Z
    /\ val (remainder (h + c) 360) = ((val h + val c + e) mod val 360)%Z.
Proof.
  intros h c Hh0 Hh1 Hc0 Hc1.
  apply leb_val in Hh0, Hc0, Hc1. apply ltb_val in Hh1.
  destruct Hh0 as (_ & Hhn & Hh0), Hh1 as (_ & _ & Hh1).
  destruct Hc0 as (_ & Hcn & Hc0), Hc1 as (_ & _ & Hc1).
  change (val 0) with 0%Z in *.
  replace (val 2) with (2 * 2 ^ 1074)%Z in Hc1 by (vm_compute; reflexivity).
  assert (E360 : val 360 = (360 * 2 ^ 1074)%Z) by (vm_compute; reflexivity).
  pose proof (pow2_gt0 1074 ltac:(zlia)) as H1074.
  pose proof (pow2_gt0 1030 ltac:(zlia)) as H1030.
  assert (Hsplit : (2 ^ 1074 = 2 ^ 44 * 2 ^ 1030)%Z) by (rewrite <- Z.pow_add_r by zlia; reflexivity).
  assert (H2098 : (512 * 2 ^ 1074 < 2 ^ 2098)%Z) by (vm_compute; reflexivity).
  assert (Hfh : finite h) by (apply finite_of_val_bounds; [exact Hhn | zlia]).
  assert (Hfc : finite c) by (apply finite_of_val_bounds; [exact Hcn | zlia]).
  assert (Hf360 : finite 360) by finite_constant.
  pose proof (add_approx h c Hfh Hfc) as Ha.
  set (v := (val h + val c)%Z) in *.
  assert (Hv : (0 <= v < 362 * 2 ^ 1074)%Z) by (subst v; zlia).
  set (r := (v / 2 ^ 1030)%Z).
  assert (Hr : (r * 2 ^ 1030 <= v < (r + 1) * 2 ^ 1030)%Z).
  { subst r. pose proof (Z.div_mod v (2 ^ 1030) ltac:(zlia)).
    pose proof (Z.mod_pos_bound v (2 ^ 1030) ltac:(zlia)). zlia. }
  assert (Hr0 : (0 <= r)%Z) by (subst r; apply Z.div_pos; zlia).
  assert (Hr1 : (r + 1 <= 362 * 2 ^ 44)%Z).
  { assert (r < 362 * 2 ^ 44)%Z; [| zlia].
    subst r. apply Z.div_lt_upper_bound; [zlia |]. rewrite Hsplit in Hv. zlia. }
  assert (H53 : (362 * 2 ^ 44 < 2 ^ 53)%Z) by (vm_compute; reflexivity).
  destruct (repr_exists r (-44) ltac:(zlia) ltac:(zlia)) as (y1 & Hy1 & Hfy1 & Hv1).
  destruct (repr_exists (r + 1) (-44) ltac:(zlia) ltac:(zlia)) as (y2 & Hy2 & Hfy2 & Hv2).
  change (-44 + 1074)%Z with 1030%Z in Hv1, Hv2.
  pose proof (approx_ge _ 1 _ y1 ltac:(zlia) Ha Hy1 Hfy1 ltac:(zlia)) as Hlo.
  pose proof (approx_le _ 1 _ y2 ltac:(zlia) Ha Hy2 Hfy2 ltac:(zlia)) as Hhi.
  fold (val (h + c)) in Hlo, Hhi. rewrite Hv1 in Hlo. rewrite Hv2 in Hhi.
  assert (Hfs : finite (h + c)).
  { apply (finite_of_approx _ _ _ Ha). rewrite Hsplit in *. znia. }
  exists (val (h + c) - v)%Z. split; [zlia |].
  replace (v + (val (h + c) - v))%Z with (val (h + c)) by zlia.
  destruct (Z.eq_dec (val (h + c)) 0) as [Hz | Hnz].
  - assert (Hrem : remainder (h + c) 360 = h + c).
    { unfold remainder. unfold finite, val in Hfs, Hz.
      pose proof (Prim2SF_valid (h + c)) as Hval.
      change (Prim2SF 360) with (S754_finite false 6333186975989760 (-44)).
      destruct (Prim2SF (h + c)) as [s | s | | s m e]; try destruct Hfs; [reflexivity |].
      pose proof (valid_gval_bounds s m e Hval).
      exfalso. cbn [ord] in Hz. destruct s; zlia. }
    rewrite Hrem, Hz. rewrite Z.mod_0_l by zlia. reflexivity.
  - destruct (remainder_val (h + c) 360 Hfs Hf360 ltac:(zlia) ltac:(zlia)) as [_ Hrv].
    exact Hrv.
Qed.

Section WithMath.
Variables Math_sin Math_cos : number -> number.

Lemma updateVertices_hue_range :
  forall (st : animationState) (p : parameters) (a : audioModulation) (prev : list vertex),
  (0 <=? colorSpeed p) = true /\ (colorSpeed p <? infinity) = true ->
  Forall (fun v => (0 <=? hue v) = true /\ (hue v <? 360) = true) prev ->
  Forall (fun v => (0 <=? hue v) = true /\ (hue v <? 360) = true)
         (updateVertices Math_sin Math_cos st p a prev).
Proof.
  intros st p a prev [Hc0 Hc1] Hprev. apply Forall_forall. intros v Hv.
  unfold updateVertices in Hv. apply MotionFacts.in_mapi in Hv.
  destruct Hv as (i & elt & Helt & ->). cbn [updateVertex hue].
  rewrite Forall_forall in Hprev.
  destruct (Hprev elt (nth_error_In _ _ Helt)) as [Hh0 Hh1].
  apply hue_step_range; assumption.
Qed.

Lemma initialVertices_hue_range : forall random : nat -> number,
  Forall (fun v => (0 <=? hue v) = true /\ (hue v <? 360) = true)
         (initialVertices Math_sin Math_cos random).
Proof.
  intros random. unfold initialVertices. apply Forall_map, Forall_forall.
  intros i Hi. cbn [hue]. apply in_seq in Hi.
  assert (Hall : forallb (fun i => (0 <=? of_nat i * 15) && (of_nat i * 15 <? 360)) (seq 0 24)
                 = true) by (vm_compute; reflexivity).
  rewrite forallb_forall in Hall. specialize (Hall i). rewrite in_seq in Hall.
  specialize (Hall Hi). apply andb_true_iff in Hall. exact Hall.
Qed.

(** The hue of a vertex after a run of ticks at one colour speed of at
    most 2, with its distance from [h + N * c] in units of [2^-1074]. *)
Lemma runTicks_hue_val :
  forall (inputs : list tickInput) (vertices : list vertex) (i : nat) (v : vertex) (c : number),
  Forall (fun input => colorSpeed (snd (fst input)) = c) inputs ->
  (0 <=? c) = true -> (c <=? 2) = true ->
  nth_error vertices i = Some v ->
  (0 <=? hue v) = true -> (hue v <? 360) = true ->
  exists v' : vertex,
    nth_error (runTicks Math_sin Math_cos inputs vertices) i = Some v'
    /\ ((0 <=? hue v') = true /\ (hue v' <? 360) = true)
    /\ exists E : Z,
         (Z.abs E <= Z.of_nat (length inputs) * 2 ^ 1030)%Z
         /\ val (hue v')
            = ((val (hue v) + Z.of_nat (length inputs) * val c + E) mod val 360)%Z.
Proof.
  intros inputs vertices i v c Hspeed Hc0 Hc1.
  assert (H360 : (0 < val 360)%Z) by constant_lt.
  revert vertices v.
  induction Hspeed as [| [[st p] a] rest Hc Hrest IH]; intros vertices v Hv Hh0 Hh1.
  - exists v. split; [exact Hv |]. split; [split; assumption |].
    exists 0%Z. split; [cbn; lia |].
    cbn [length]. rewrite Z.mul_0_l, !Z.add_0_r.
    apply leb_val in Hh0. apply ltb_val in Hh1. change (val 0) with 0%Z in Hh0.
    rewrite Z.mod_small by lia. reflexivity.
  - cbn [fst snd] in Hc. cbn [runTicks fold_left].
    change (fold_left _ rest ?vs) with (runTicks Math_sin Math_cos rest vs).
    assert (Hc1' : (0 <=? c) = true /\ (c <? infinity) = true).
    { split; [exact Hc0 |]. apply leb_val in Hc1. apply ltb_val.
      destruct Hc1 as (Hn & _ & Hle). repeat split; [exact Hn | discriminate |].
      assert (val 2 < val infinity)%Z by constant_lt. lia. }
    destruct (hue_step_range (hue v) c Hh0 Hh1 (proj1 Hc1') (proj2 Hc1')) as [Hs0 Hs1].
    destruct (hue_step_val (hue v) c Hh0 Hh1 Hc0 Hc1) as (e & He & Hstep).
    destruct (IH (updateVertices Math_sin Math_cos st p a vertices)
                 (updateVertex Math_sin Math_cos st p a v i)) as (v' & Hv' & Hrange & E & HE & Hval).
    + unfold updateVertices. rewrite MotionFacts.nth_error_mapi, Hv. reflexivity.
    + cbn [updateVertex hue]. rewrite Hc. exact Hs0.
    + cbn [updateVertex hue]. rewrite Hc. exact Hs1.
    + exists v'. split; [exact Hv' |]. split; [exact Hrange |].
      exists (e + E)%Z. split; [cbn [length]; lia |].
      rewrite Hval. cbn [updateVertex hue]. rewrite Hc, Hstep.
      rewrite <- Z.add_assoc, Zplus_mod_idemp_l. f_equal. cbn [length]. lia.
Qed.

(** C6 (as amended). For every initial hue [h] that is at least 0 and
    below 360, every colour speed [c] from 0 to 2 (the slider goes from 0.1
    to 2) and every number [N] of ticks, the hue after [N] ticks is at
    least 0 and below 360 and is [(h + N * c + E) mod 360] for a rounding
    error [E] of at most [N * 2^-44] in absolute value.  Here [val] counts
    a number in units of [2^-1074], so that [val 360] is [360 * 2^1074]
    and the bound on [E] is [N * 2^1030].  When moreover [h] and [c] are
    multiples of 0.5 (the initial hues [i * 15], the default colour speed
    0.5 and the slider positions 0.5, 1, 1.5 and 2), the hue is exactly
    [(h + N * c) mod 360]: with [h = k / 2] and [c = j / 2] it is the
    number [((k + N * j) mod 720) / 2]. *)
Theorem hue_after_ticks_mod_360 :
  forall (inputs : list tickInput) (vertices : list vertex) (i : nat) (v : vertex) (c : number),
  Forall (fun input => colorSpeed (snd (fst input)) = c) inputs ->
  (0 <=? c) = true -> (c <=? 2) = true ->
  nth_error vertices i = Some v ->
  (0 <=? hue v) = true -> (hue v <? 360) = true ->
  let N := length inputs in
  exists v' : vertex,
    nth_error (runTicks Math_sin Math_cos inputs vertices) i = Some v'
    /\ ((0 <=? hue v') = true /\ (hue v' <? 360) = true)
    /\ (exists E : Z,
          (Z.abs E <= Z.of_nat N * 2 ^ 1030)%Z
          /\ val (hue v') = ((val (hue v) + Z.of_nat N * val c + E) mod val 360)%Z)
    /\ (forall k j : nat,
          (1 <= j <= 4)%nat -> (k < 720)%nat ->
          hue v = of_nat k / 2 -> c = of_nat j / 2 ->
          hue v' = of_nat ((k + N * j) mod 720) / 2).
Proof.
  intros inputs vertices i v c Hspeed Hc0 Hc1 Hv Hh0 Hh1. cbv zeta.
  destruct (runTicks_hue_val inputs vertices i v c Hspeed Hc0 Hc1 Hv Hh0 Hh1)
    as (v' & Hv' & Hrange & Herr).
  exists v'. split; [exact Hv' |]. split; [exact Hrange |]. split; [exact Herr |].
  intros k j Hj Hk Hhue Hc. subst c.
  pose proof (MotionFacts.hue_after_ticks_half_degrees Math_sin Math_cos inputs vertices
                i v k j Hspeed Hj Hk Hv Hhue) as Hexact.
  rewrite Hv' in Hexact. cbn [option_map] in Hexact. injection Hexact as Hexact.
  exact Hexact.
Qed.

(** X12. From the vertices of startup, after any number of ticks whose
    colour speeds are finite and not negative (every slider position is),
    the hue of every vertex is at least 0 and below 360, whatever the
    rounding of the additions: the remainder is exact. *)
Theorem hue_stays_in_range : forall (inputs : list tickInput) (random : nat -> number),
  Forall (fun input => (0 <=? colorSpeed (snd (fst input))) = true
                       /\ (colorSpeed (snd (fst input)) <? infinity) = true) inputs ->
  Forall (fun v => (0 <=? hue v) = true /\ (hue v <? 360) = true)
         (runTicks Math_sin Math_cos inputs (initialVertices Math_sin Math_cos random)).
Proof.
  intros inputs random Hinputs.
  pose proof (initialVertices_hue_range random) as Hstart.
  revert Hstart. generalize (initialVertices Math_sin Math_cos random) as vertices.
  induction Hinputs as [| [[st p] a] rest Hc Hrest IH]; intros vertices Hstart.
  - exact Hstart.
  - cbn [runTicks fold_left].
    change (fold_left _ rest ?vs) with (runTicks Math_sin Math_cos rest vs).
    apply IH. apply updateVertices_hue_range; assumption.
Qed.

End WithMath.

(** Three ticks at the default colour speed 0.5 from the hue 15. *)
Lemma hue_after_ticks_mod_360_witness :
  let v := {| x := 0; y := 0; vx := 0; vy := 0; phase := 0; hue := 15;
              amplitude := 1; frequency := 1 |} in
  let inputs := map (fun n => ({| isPlaying := true; frame := of_nat n |},
                               {| flowSpeed := 1; colorSpeed := 0.5; waveIntensity := 0.7;
                                  patternSize := 1 |},
                               neutralModulation))
                    (seq 0 3) in
  exists v' : vertex,
    nth_error (runTicks ExampleMath.Math_sin ExampleMath.Math_cos inputs [v]) 0 = Some v'
    /\ ((0 <=? hue v') = true /\ (hue v' <? 360) = true)
    /\ (exists E : Z,
          (Z.abs E <= Z.of_nat 3 * 2 ^ 1030)%Z
          /\ val (hue v') = ((val (hue v) + Z.of_nat 3 * val 0.5 + E) mod val 360)%Z)
    /\ (forall k j : nat,
          (1 <= j <= 4)%nat -> (k < 720)%nat ->
          hue v = of_nat k / 2 -> 0.5 = of_nat j / 2 ->
          hue v' = of_nat ((k + 3 * j) mod 720) / 2).
Proof.
  cbv zeta.
  apply (hue_after_ticks_mod_360 ExampleMath.Math_sin ExampleMath.Math_cos
           (map (fun n => ({| isPlaying := true; frame := of_nat n |},
                           {| flowSpeed := 1; colorSpeed := 0.5; waveIntensity := 0.7;
                              patternSize := 1 |},
                           neutralModulation))
                (seq 0 3))
           [{| x := 0; y := 0; vx := 0; vy := 0; phase := 0; hue := 15;
               amplitude := 1; frequency := 1 |}]
           0
           {| x := 0; y := 0; vx := 0; vy := 0; phase := 0; hue := 15;
              amplitude := 1; frequency := 1 |}
           0.5).
  - repeat constructor.
  - reflexivity.
  - reflexivity.
  - reflexivity.
  - reflexivity.
  - reflexivity.
Defined.

(** Three ticks at the colour speed 0.1. *)
Lemma hue_stays_in_range_witness :
  Forall (fun v => (0 <=? hue v) = true /\ (hue v <? 360) = true)
         (runTicks ExampleMath.Math_sin ExampleMath.Math_cos
            (map (fun n => ({| isPlaying := true; frame := of_nat n |},
                            {| flowSpeed := 1; colorSpeed := 0.1; waveIntensity := 0.7;
                               patternSize := 1 |},
                            neutralModulation))
                 (seq 0 3))
            (initialVertices ExampleMath.Math_sin ExampleMath.Math_cos (fun _ => 0.25))).
Proof.
  apply (hue_stays_in_range ExampleMath.Math_sin ExampleMath.Math_cos).
  repeat constructor.
Defined.

End HueFacts.
(** * The vertices of startup *)

Module StartupFacts.
Import JS MikeDropViz Binary64 Binary64Facts  Binary64Order.

(** A value of [Math.random()], at least 0 and below 1, is at most the
    predecessor of 1. *)
Lemma random_between : forall r : float,
  (0 <=? r) = true -> (r <? 1) = true -> between 0 0x1.fffffffffffffp-1 r.
Proof.
  intros r H0 H1. split; [exact H0 |].
  pose proof H0 as H0'. apply leb_val in H0'. destruct H0' as (_ & Hn & Hv0).
  apply ltb_val in H1. destruct H1 as (_ & _ & Hv1).
  change (val 0) with 0%Z in Hv0.
  assert (B1 : (val 1 < 2 ^ 2098)%Z) by constant_val.
  assert (Hf : finite r)
    by (apply finite_of_val_bounds; [exact Hn |]; pose proof (pow2_gt0 2098 ltac:(zlia)); zlia).
  apply leb_val. repeat split; try assumption; try discriminate.
  apply (val_lt_pred_pow2 r 1 _ (-52)); try reflexivity; try assumption.
Qed.

Section WithMath.
Variables Math_sin Math_cos : number -> number.

Lemma initialVertices_ranges : forall random : nat -> number,
  (forall k, (0 <=? random k) = true /\ (random k <? 1) = true) ->
  Forall (fun v => between (-1) 0.99999999999999978 (vx v)
                   /\ between (-1) 0.99999999999999978 (vy v)
                   /\ between 0 6.2831853071795853 (phase v)
                   /\ between 0 345 (hue v)
                   /\ between 1 2 (amplitude v)
                   /\ between 0.5 1 (frequency v))
         (initialVertices Math_sin Math_cos random).
Proof.
  intros random Hrandom. unfold initialVertices. apply Forall_map, Forall_forall.
  intros i Hi. cbn [vx vy phase hue amplitude frequency].
  assert (Hr : forall k, between 0 0x1.fffffffffffffp-1 (random k))
    by (intros k; apply random_between; apply Hrandom).
  assert (Hconst : forall c : float, Prim2SF c <> S754_nan -> between c c c)
    by (intros c Hc; apply between_refl; exact Hc).
  assert (Hv : forall k, between (-1) 0.99999999999999978 ((random k - 0.5) * 2)).
  { intros k.
    apply (mul_between_l (0 - 0.5) (0x1.fffffffffffffp-1 - 0.5) _ 2);
      try finite_constant; [constant_val |].
    apply (sub_between 0 0x1.fffffffffffffp-1 0.5 0.5); try finite_constant;
      [apply Hr | apply Hconst; discriminate]. }
  split; [apply Hv |]. split; [apply Hv |]. split; [| split; [| split]].
  - apply (mul_between_l (0 * PI) (0x1.fffffffffffffp-1 * PI) _ 2);
      try finite_constant; [constant_val |].
    apply (mul_between_l 0 0x1.fffffffffffffp-1 _ PI); try finite_constant;
      [constant_val | apply Hr].
  - apply in_seq in Hi.
    assert (Hall : forallb (fun i => (0 <=? of_nat i * 15) && (of_nat i * 15 <=? 345))
                           (seq 0 24) = true) by (vm_compute; reflexivity).
    rewrite forallb_forall in Hall. specialize (Hall i). rewrite in_seq in Hall.
    specialize (Hall Hi). apply andb_true_iff in Hall. exact Hall.
  - apply (add_between 1 1 0 0x1.fffffffffffffp-1); try finite_constant;
      [apply Hconst; discriminate | apply Hr].
  - apply (add_between 0.5 0.5 (0 * 0.5) (0x1.fffffffffffffp-1 * 0.5)); try finite_constant;
      [apply Hconst; discriminate |].
    apply mul_between_l; try finite_constant; [constant_val | apply Hr].
Qed.

Lemma Forall_of_map : forall (A B : Type) (f : A -> B) (P : B -> Prop) (l l' : list A),
  map f l' = map f l -> Forall (fun a => P (f a)) l -> Forall (fun a => P (f a)) l'.
Proof.
  intros A B f P l l' Heq Hl. apply Forall_map. rewrite Heq. apply Forall_map. exact Hl.
Qed.

Lemma runTicks_frame : forall (inputs : list tickInput) (vertices : list vertex),
  let final := runTicks Math_sin Math_cos inputs vertices in
  map vx final = map vx vertices
  /\ map vy final = map vy vertices
  /\ map amplitude final = map amplitude vertices
  /\ map frequency final = map frequency vertices.
Proof.
  induction inputs as [| [[st p] a] rest IH]; intros vertices; [repeat split |].
  cbv zeta. cbn [runTicks fold_left].
  change (fold_left _ rest ?vs) with (runTicks Math_sin Math_cos rest vs).
  destruct (MotionFacts.updateVertices_frame Math_sin Math_cos st p a vertices)
    as (_ & Hvx & Hvy & Ha & Hf).
  rewrite <- Hvx, <- Hvy, <- Ha, <- Hf. apply IH.
Qed.

(** X13. When [Math.random()] returns numbers that are at least 0 and
    below 1, every vertex of startup has velocity components between -1
    and 0.99999999999999978, a phase between 0 and 6.2831853071795853, a
    hue between 0 and 345, an amplitude between 1 and 2 (2 is reached by
    rounding) and a frequency between 0.5 and 1; the velocity components,
    the amplitude and the frequency are in these ranges after any number
    of ticks as well. *)
Theorem startup_fields_stay_in_range :
  forall (inputs : list tickInput) (random : nat -> number),
  (forall k, (0 <=? random k) = true /\ (random k <? 1) = true) ->
  let start := initialVertices Math_sin Math_cos random in
  let final := runTicks Math_sin Math_cos inputs start in
  Forall (fun v => between (-1) 0.99999999999999978 (vx v)
                   /\ between (-1) 0.99999999999999978 (vy v)
                   /\ between 0 6.2831853071795853 (phase v)
                   /\ between 0 345 (hue v)
                   /\ between 1 2 (amplitude v)
                   /\ between 0.5 1 (frequency v)) start
  /\ Forall (fun v => between (-1) 0.99999999999999978 (vx v)) final
  /\ Forall (fun v => between (-1) 0.99999999999999978 (vy v)) final
  /\ Forall (fun v => between 1 2 (amplitude v)) final
  /\ Forall (fun v => between 0.5 1 (frequency v)) final.
Proof.
  intros inputs random Hrandom. cbv zeta.
  pose proof (initialVertices_ranges random Hrandom) as Hstart.
  destruct (runTicks_frame inputs (initialVertices Math_sin Math_cos random))
    as (Hvx & Hvy & Ha & Hf).
  split; [exact Hstart |].
  repeat split.
  - apply (Forall_of_map _ _ vx _ _ _ Hvx).
    eapply Forall_impl; [| exact Hstart]. cbn beta. tauto.
  - apply (Forall_of_map _ _ vy _ _ _ Hvy).
    eapply Forall_impl; [| exact Hstart]. cbn beta. tauto.
  - apply (Forall_of_map _ _ amplitude _ _ _ Ha).
    eapply Forall_impl; [| exact Hstart]. cbn beta. tauto.
  - apply (Forall_of_map _ _ frequency _ _ _ Hf).
    eapply Forall_impl; [| exact Hstart]. cbn beta. tauto.
Qed.

End WithMath.

(** Two ticks from vertices drawn with the random number 0.5. *)
Lemma startup_fields_stay_in_range_witness :
  let inputs := [({| isPlaying := true; frame := 0 |}, initialParameters, neutralModulation);
                 ({| isPlaying := true; frame := 1 |}, initialParameters, neutralModulation)] in
  let start := initialVertices ExampleMath.Math_sin ExampleMath.Math_cos (fun _ => 0.5) in
  let final := runTicks ExampleMath.Math_sin ExampleMath.Math_cos inputs start in
  Forall (fun v => between (-1) 0.99999999999999978 (vx v)
                   /\ between (-1) 0.99999999999999978 (vy v)
                   /\ between 0 6.2831853071795853 (phase v)
                   /\ between 0 345 (hue v)
                   /\ between 1 2 (amplitude v)
                   /\ between 0.5 1 (frequency v)) start
  /\ Forall (fun v => between (-1) 0.99999999999999978 (vx v)) final
  /\ Forall (fun v => between (-1) 0.99999999999999978 (vy v)) final
  /\ Forall (fun v => between 1 2 (amplitude v)) final
  /\ Forall (fun v => between 0.5 1 (frequency v)) final.
Proof.
  cbv zeta.
  apply (startup_fields_stay_in_range ExampleMath.Math_sin ExampleMath.Math_cos
           [({| isPlaying := true; frame := 0 |}, initialParameters, neutralModulation);
            ({| isPlaying := true; frame := 1 |}, initialParameters, neutralModulation)]
           (fun _ => 0.5)).
  intros k. split; reflexivity.
Defined.

End StartupFacts.
(** * The style of an edge *)

Module EdgeFacts.
Import JS MikeDropViz Binary64 Binary64Facts  Binary64Order.

Lemma nan_of_is_nan : forall x : float, is_nan x = true -> Prim2SF x = S754_nan.
Proof.
  intros x Hx. destruct (Prim2SF x) as [s | s | | s m e] eqn:Hp; try reflexivity;
    rewrite is_nan_false in Hx by (rewrite Hp; discriminate); discriminate.
Qed.

Lemma not_nan_cases : forall x : float, {Prim2SF x = S754_nan} + {Prim2SF x <> S754_nan}.
Proof. intros x. destruct (Prim2SF x); (left; reflexivity) || (right; discriminate). Qed.

Lemma Math_max_one : forall w : float, Prim2SF w <> S754_nan ->
  Math_max 1 w = if 1 <? w then w else 1.
Proof.
  intros w Hn. unfold Math_max. change (is_nan 1) with false.
  rewrite (is_nan_false w Hn). cbn [orb]. change (get_sign 1) with false.
  destruct (1 <? w); [reflexivity |]. destruct (w <? 1); reflexivity.
Qed.

Lemma Math_max_nan_r : forall a : float, Math_max a nan = nan.
Proof. intros a. unfold Math_max. change (is_nan nan) with true. rewrite orb_true_r. reflexivity. Qed.

Lemma Math_min_nan_r : forall a : float, Math_min a nan = nan.
Proof. intros a. unfold Math_min. change (is_nan nan) with true. rewrite orb_true_r. reflexivity. Qed.

(** An opacity above 0.1 is at most 1. *)
Lemma edgeOpacity_range : forall dist : float,
  gtb (edgeOpacity dist) 0.1 = true -> between 0.1 1 (edgeOpacity dist).
Proof.
  intros dist Hgt. unfold gtb in Hgt. pose proof Hgt as Hlt.
  apply ltb_val in Hlt. destruct Hlt as (_ & Hon & Hlt).
  split; [apply leb_val; repeat split; try discriminate; try exact Hon; lia |].
  apply leb_val. repeat split; try discriminate; try exact Hon.
  unfold edgeOpacity in *. set (t := 1 - dist / 300) in *.
  destruct (not_nan_cases t) as [Hnan | Hn].
  { exfalso. apply Prim2SF_nan_eq in Hnan. rewrite Hnan in Hon.
    rewrite Math_min_nan_r, Math_max_nan_r in Hon. apply Hon. reflexivity. }
  rewrite (MotionFacts.Math_min_one t Hn) in *.
  destruct (1 <? t) eqn:H1t.
  - change (Math_max 0 1) with 1. lia.
  - rewrite (MotionFacts.Math_max_zero t Hn) in *.
    destruct (0 <? t) eqn:H0t.
    + destruct (Z.le_gt_cases (val t) (val 1)) as [H | H]; [exact H | exfalso].
      assert (Ht : (1 <? t) = true) by (apply ltb_val; repeat split; try discriminate; assumption).
      congruence.
    + constant_val.
Qed.

(** Clamping to [0, 1] does not change whether a number is above a
    threshold inside the interval. *)
Lemma clamp_above : forall c o : float,
  Prim2SF c <> S754_nan -> (0 < val c < val 1)%Z ->
  (c <? Math_max 0 (Math_min 1 o)) = (c <? o).
Proof.
  intros c o Hcn Hc.
  destruct (not_nan_cases o) as [Hnan | Hn].
  { apply Prim2SF_nan_eq in Hnan. subst o. rewrite Math_min_nan_r, Math_max_nan_r. reflexivity. }
  rewrite (MotionFacts.Math_min_one o Hn).
  destruct (1 <? o) eqn:H1.
  - change (Math_max 0 1) with 1. apply ltb_val in H1. destruct H1 as (_ & _ & H1).
    transitivity true; [| symmetry]; apply ltb_val; repeat split; try assumption;
      try discriminate; lia.
  - rewrite (MotionFacts.Math_max_zero o Hn).
    destruct (0 <? o) eqn:H0; [reflexivity |].
    assert (Ho : (val o <= 0)%Z).
    { destruct (Z.le_gt_cases (val o) 0) as [H | H]; [exact H | exfalso].
      assert (Ht : (0 <? o) = true)
        by (apply ltb_val; repeat split; try discriminate; try assumption;
            change (val 0) with 0%Z; lia).
      congruence. }
    transitivity false; [| symmetry].
    + destruct (c <? 0) eqn:Hc0; [| reflexivity].
      apply ltb_val in Hc0. change (val 0) with 0%Z in Hc0. lia.
    + destruct (c <? o) eqn:Hco; [| reflexivity]. apply ltb_val in Hco. lia.
Qed.

Lemma finite_over_300 : forall d : float, finite d -> finite (d / 300).
Proof.
  intros d Hd. apply div_finite; try assumption; try finite_constant. constant_val.
Qed.

(** [1 - d / 300] is above the threshold [c] exactly for the numbers [d]
    below [D], when it is so at [D] and at the predecessor [P] of [D]. *)
Lemma opacity_threshold : forall (c D P : float) (mD : positive) (eD : Z),
  Prim2SF D = S754_finite false mD eD -> (2 ^ 52 < Zpos mD)%Z ->
  Prim2SF P = S754_finite false (mD - 1) eD ->
  finite c ->
  (val c < val (1 - P / 300))%Z -> (val (1 - D / 300) <= val c)%Z ->
  forall d : float, (c <? 1 - d / 300) = (d <? D).
Proof.
  intros c D P mD eD HD HmD HP Hc Hbelow Habove d.
  pose proof (not_nan_of_finite c Hc) as Hcn.
  pose proof (val_bounds_of_finite c Hc) as Bc.
  assert (HfD : finite D) by (unfold finite; rewrite HD; exact I).
  assert (HfP : finite P) by (unfold finite; rewrite HP; exact I).
  assert (Hf1 : finite 1) by finite_constant.
  destruct (Prim2SF d) as [s | s | | s m e] eqn:Hd.
  - (* zero *)
    assert (Hfd : finite d) by (unfold finite; rewrite Hd; exact I).
    assert (Hvd : val d = 0%Z) by (unfold val; rewrite Hd; reflexivity).
    pose proof (valid_gval_bounds _ _ _ (Prim2SF_not_nan_valid D _ _ _ HD)) as BD.
    assert (HvD : val D = gval (Zpos mD) eD) by (unfold val; rewrite HD; reflexivity).
    assert (Hlt : (val d < val D)%Z) by zlia.
    pose proof (val_lt_pred d D P mD eD HD HmD HP Hfd Hlt) as Hle.
    pose proof (div_val_mono_l d P 300 Hfd HfP ltac:(finite_constant) ltac:(constant_val) Hle).
    pose proof (sub_val_anti_r 1 (d / 300) (P / 300) Hf1 (finite_over_300 d Hfd)
                  (finite_over_300 P HfP) ltac:(assumption)).
    transitivity true; [| symmetry]; apply ltb_val; repeat split; try assumption;
      try (rewrite ?Hd, ?HD; discriminate); try zlia.
    apply (result_not_nan _ _ _ (sub_approx 1 (d / 300) Hf1 (finite_over_300 d Hfd))).
  - (* infinities *)
    assert (Heq : d = if s then neg_infinity else infinity)
      by (rewrite <- (SF2Prim_Prim2SF d), Hd; destruct s; reflexivity).
    subst d. destruct s.
    + change (1 - neg_infinity / 300) with infinity.
      transitivity true; [| symmetry]; apply ltb_val; repeat split; try assumption;
        try (rewrite ?HD; discriminate).
      * replace (val infinity) with (2 ^ 2098)%Z by (vm_compute; reflexivity). zlia.
      * pose proof (val_bounds_of_finite D HfD).
        replace (val neg_infinity) with (- 2 ^ 2098)%Z by (vm_compute; reflexivity). zlia.
    + change (1 - infinity / 300) with neg_infinity.
      transitivity false; [| symmetry].
      * destruct (c <? neg_infinity) eqn:Hcmp; [| reflexivity]. apply ltb_val in Hcmp.
        replace (val neg_infinity) with (- 2 ^ 2098)%Z in Hcmp by (vm_compute; reflexivity). zlia.
      * destruct (infinity <? D) eqn:Hcmp; [| reflexivity]. apply ltb_val in Hcmp.
        pose proof (val_bounds_of_finite D HfD).
        replace (val infinity) with (2 ^ 2098)%Z in Hcmp by (vm_compute; reflexivity). zlia.
  - (* NaN *)
    apply Prim2SF_nan_eq in Hd. subst d. change (1 - nan / 300) with nan.
    transitivity false; [| symmetry].
    + destruct (c <? nan) eqn:Hcmp; [| reflexivity]. apply ltb_val in Hcmp.
      exfalso. apply Hcmp. reflexivity.
    + rewrite ltb_spec. reflexivity.
  - (* finite *)
    assert (Hfd : finite d) by (unfold finite; rewrite Hd; exact I).
    assert (Hdn : Prim2SF d <> S754_nan) by (rewrite Hd; discriminate).
    assert (HDn : Prim2SF D <> S754_nan) by (rewrite HD; discriminate).
    pose proof (result_not_nan _ _ _ (sub_approx 1 (d / 300) Hf1 (finite_over_300 d Hfd)))
      as Htn.
    destruct (Z.lt_ge_cases (val d) (val D)) as [Hlt | Hge].
    + pose proof (val_lt_pred d D P mD eD HD HmD HP Hfd Hlt) as Hle.
      pose proof (div_val_mono_l d P 300 Hfd HfP ltac:(finite_constant) ltac:(constant_val) Hle).
      pose proof (sub_val_anti_r 1 (d / 300) (P / 300) Hf1 (finite_over_300 d Hfd)
                    (finite_over_300 P HfP) ltac:(assumption)).
      transitivity true; [| symmetry]; apply ltb_val; repeat split; try assumption; zlia.
    + pose proof (div_val_mono_l D d 300 HfD Hfd ltac:(finite_constant) ltac:(constant_val) Hge).
      pose proof (sub_val_anti_r 1 (D / 300) (d / 300) Hf1 (finite_over_300 D HfD)
                    (finite_over_300 d Hfd) ltac:(assumption)).
      transitivity false; [| symmetry].
      * destruct (c <? 1 - d / 300) eqn:Hcmp; [| reflexivity]. apply ltb_val in Hcmp. zlia.
      * destruct (d <? D) eqn:Hcmp; [| reflexivity]. apply ltb_val in Hcmp. zlia.
Qed.

(** The opacity is above a quarter exactly below the distance 225. *)
Lemma edgeOpacity_above_quarter : forall dist : float,
  (0.25 <? edgeOpacity dist) = (dist <? 225).
Proof.
  intros dist. unfold edgeOpacity.
  rewrite clamp_above by (try discriminate; split; constant_val).
  apply (opacity_threshold 0.25 225 0x1.c1fffffffffffp+7 7916483719987200 (-45)).
  - reflexivity.
  - reflexivity.
  - reflexivity.
  - finite_constant.
  - constant_val.
  - constant_val.
Qed.

(** Four times an opacity is above 1 exactly when the opacity is above a
    quarter. *)
Lemma four_times_above_one : forall o : float, between 0.1 1 o ->
  (1 <? 4 * o) = (0.25 <? o).
Proof.
  intros o Ho.
  assert (Hfo : finite o) by (apply (between_finite 0.1 1); try finite_constant; exact Ho).
  pose proof (between_val _ _ _ Ho) as [Hon Hov].
  assert (Hf4 : finite 4) by finite_constant.
  assert (H40 : (0 <= val 4)%Z) by constant_val.
  pose proof (result_not_nan _ _ _ (mul_approx 4 o Hf4 Hfo)) as Hpn.
  destruct (Z.le_gt_cases (val o) (val 0.25)) as [Hle | Hgt].
  - pose proof (mul_val_mono_r 4 o 0.25 Hf4 Hfo ltac:(finite_constant) H40 Hle) as Hm.
    change (4 * 0.25) with 1 in Hm.
    transitivity false; [| symmetry].
    + destruct (1 <? 4 * o) eqn:H; [| reflexivity]. apply ltb_val in H. lia.
    + destruct (0.25 <? o) eqn:H; [| reflexivity]. apply ltb_val in H. lia.
  - assert (Hsucc : (val 0x1.0000000000001p-2 <= val o)%Z).
    { destruct (Z.le_gt_cases (val 0x1.0000000000001p-2) (val o)) as [H | H]; [exact H |].
      pose proof (val_lt_pred o 0x1.0000000000001p-2 0.25 4503599627370497 (-54)
                    eq_refl ltac:(reflexivity) eq_refl Hfo H). lia. }
    pose proof (mul_val_mono_r 4 0x1.0000000000001p-2 o Hf4 ltac:(finite_constant) Hfo H40 Hsucc) as Hm.
    assert (H1 : (val 1 < val (4 * 0x1.0000000000001p-2))%Z) by constant_val.
    transitivity true; [| symmetry]; apply ltb_val; repeat split; try assumption;
      try discriminate; lia.
Qed.

(** The hue of a line between two vertices with hues in [0, 360). *)
Lemma strokeHue_range : forall h1 h2 : float,
  (0 <=? h1) = true -> (h1 <? 360) = true ->
  (0 <=? h2) = true -> (h2 <? 360) = true ->
  (0 <=? (h1 + h2) / 2) = true /\ ((h1 + h2) / 2 <? 360) = true.
Proof.
  intros h1 h2 H10 H11 H20 H21.
  assert (Hp : forall h : float, (0 <=? h) = true -> (h <? 360) = true ->
                 between 0 0x1.67fffffffffffp+8 h).
  { intros h H0 H1. split; [exact H0 |]. pose proof H0 as H0'.
    apply leb_val in H0'. destruct H0' as (_ & Hn & Hv0).
    apply ltb_val in H1. destruct H1 as (_ & _ & Hv1).
    change (val 0) with 0%Z in Hv0.
    assert (B360 : (val 360 < 2 ^ 2098)%Z) by constant_val.
    assert (Hf : finite h) by (apply finite_of_val_bounds; [exact Hn |];
                                pose proof (pow2_gt0 2098 ltac:(zlia)); zlia).
    apply leb_val. repeat split; try assumption; try discriminate.
    apply (val_lt_pred h 360 _ 6333186975989760 (-44)); try reflexivity; assumption. }
  pose proof (Hp h1 H10 H11) as B1. pose proof (Hp h2 H20 H21) as B2.
  assert (Hsum : between (0 + 0) (0x1.67fffffffffffp+8 + 0x1.67fffffffffffp+8) (h1 + h2))
    by (apply add_between; try finite_constant; assumption).
  assert (Hhalf : between ((0 + 0) / 2)
                          ((0x1.67fffffffffffp+8 + 0x1.67fffffffffffp+8) / 2)
                          ((h1 + h2) / 2))
    by (apply div_between; try finite_constant; [constant_val | exact Hsum]).
  destruct Hhalf as [Hlo Hhi]. split; [exact Hlo |].
  apply leb_val in Hhi. destruct Hhi as (Hn & _ & Hv).
  apply ltb_val. repeat split; try assumption; try discriminate.
  assert ((val ((0x1.67fffffffffffp+8 + 0x1.67fffffffffffp+8) / 2) < val 360)%Z)
    by constant_val.
  zlia.
Qed.

(** The style that [getEdgeStyle] returns, by the distance. *)
Lemma getEdgeStyle_ranges : forall (Math_hypot : number -> number -> number)
    (v1 v2 : vertex) (style : edgeStyle),
  getEdgeStyle Math_hypot v1 v2 = Some style ->
  strokeHue style = (hue v1 + hue v2) / 2
  /\ between 0.1 1 (strokeOpacity style)
  /\ (0.1 <? strokeOpacity style) = true
  /\ between 1 4 (strokeWidth style)
  /\ strokeWidth style
     = (if Math_hypot (x v1 - x v2) (y v1 - y v2) <? 225
        then 4 * strokeOpacity style else 1)
  /\ ((Math_hypot (x v1 - x v2) (y v1 - y v2) <? 225) = true ->
      (1 <? strokeWidth style) = true).
Proof.
  intros Math_hypot v1 v2 style Hstyle. unfold getEdgeStyle in Hstyle.
  set (dist := Math_hypot (x v1 - x v2) (y v1 - y v2)) in *.
  destruct (gtb (edgeOpacity dist) 0.1) eqn:Hgt; [| discriminate].
  injection Hstyle as <-. cbn [strokeHue strokeOpacity strokeWidth].
  pose proof (edgeOpacity_range _ Hgt) as Ho.
  set (o := edgeOpacity dist) in *.
  assert (Hw : between (4 * 0.1) (4 * 1) (4 * o)).
  { apply (mul_between 4 4 0.1 1); try finite_constant; try constant_val; try exact Ho.
    apply between_refl. discriminate. }
  pose proof (between_val _ _ _ Hw) as [Hwn Hwv].
  assert (H1 : (1 <? 4 * o) = (dist <? 225)).
  { rewrite (four_times_above_one o Ho). apply (edgeOpacity_above_quarter dist). }
  rewrite (Math_max_one _ Hwn), H1.
  split; [reflexivity |]. split; [exact Ho |]. split; [exact Hgt |].
  destruct (dist <? 225).
  - split; [| split; [reflexivity | intros _; exact H1]].
    split; [| apply Hw]. apply ltb_val in H1. apply leb_val.
    repeat split; try discriminate; try exact Hwn. lia.
  - split; [split; reflexivity |]. split; [reflexivity | discriminate].
Qed.

Section WithMath.
Variable Math_hypot : number -> number -> number.

(** X14. Every style that [getEdgeStyle] returns has the mean of the two
    hues as its hue, an opacity above 0.1 and at most 1, and a stroke width
    of at least 1 and at most 4. *)
Theorem edge_style_ranges : forall (v1 v2 : vertex) (style : edgeStyle),
  getEdgeStyle Math_hypot v1 v2 = Some style ->
  strokeHue style = (hue v1 + hue v2) / 2
  /\ (0.1 <? strokeOpacity style) = true
  /\ (strokeOpacity style <=? 1) = true
  /\ (1 <=? strokeWidth style) = true
  /\ (strokeWidth style <=? 4) = true.
Proof.
  intros v1 v2 style Hstyle.
  destruct (getEdgeStyle_ranges Math_hypot v1 v2 style Hstyle)
    as (Hhue & Ho & Hgt & Hw & _).
  split; [exact Hhue |]. split; [exact Hgt |]. split; [apply Ho |]. exact Hw.
Qed.

(** X15. A line that is drawn joins two vertices at a distance below 270;
    its stroke width is 4 times its opacity, which is above 1, when the
    distance is below 225, and it is exactly 1 from the distance 225 on. *)
Theorem stroke_width_by_distance : forall (v1 v2 : vertex) (style : edgeStyle),
  getEdgeStyle Math_hypot v1 v2 = Some style ->
  let dist := Math_hypot (x v1 - x v2) (y v1 - y v2) in
  (dist <? 270) = true
  /\ strokeWidth style = (if dist <? 225 then 4 * strokeOpacity style else 1)
  /\ ((dist <? 225) = true -> (1 <? strokeWidth style) = true).
Proof.
  intros v1 v2 style Hstyle. cbv zeta.
  destruct (getEdgeStyle_ranges Math_hypot v1 v2 style Hstyle)
    as (_ & _ & _ & _ & Hw & Hthick).
  split; [| split; [exact Hw | exact Hthick]].
  unfold getEdgeStyle in Hstyle. rewrite MotionFacts.edgeOpacity_above_tenth in Hstyle.
  destruct (Math_hypot (x v1 - x v2) (y v1 - y v2) <? 270); [reflexivity | discriminate].
Qed.

End WithMath.

(** Two vertices at the distance 100. *)
Lemma edge_style_ranges_witness :
  let v1 := {| x := 100; y := 0; vx := 0; vy := 0; phase := 0; hue := 0;
               amplitude := 1; frequency := 1 |} in
  let v2 := {| x := 0; y := 0; vx := 0; vy := 0; phase := 0; hue := 15;
               amplitude := 1; frequency := 1 |} in
  let style := {| strokeHue := (0 + 15) / 2; strokeOpacity := 1 - 100 / 300;
                  strokeWidth := 4 * (1 - 100 / 300) |} in
  strokeHue style = (hue v1 + hue v2) / 2
  /\ (0.1 <? strokeOpacity style) = true
  /\ (strokeOpacity style <=? 1) = true
  /\ (1 <=? strokeWidth style) = true
  /\ (strokeWidth style <=? 4) = true.
Proof.
  cbv zeta.
  apply (edge_style_ranges ExampleMath.Math_hypot
           {| x := 100; y := 0; vx := 0; vy := 0; phase := 0; hue := 0;
              amplitude := 1; frequency := 1 |}
           {| x := 0; y := 0; vx := 0; vy := 0; phase := 0; hue := 15;
              amplitude := 1; frequency := 1 |}).
  vm_compute. reflexivity.
Defined.

(** Two vertices at the distance 240: the line has the width 1. *)
Lemma stroke_width_by_distance_witness :
  let style := {| strokeHue := (0 + 15) / 2; strokeOpacity := 1 - 240 / 300;
                  strokeWidth := 1 |} in
  (240 <? 270) = true
  /\ strokeWidth style = (if 240 <? 225 then 4 * strokeOpacity style else 1)
  /\ ((240 <? 225) = true -> (1 <? strokeWidth style) = true).
Proof.
  cbv zeta.
  apply (stroke_width_by_distance ExampleMath.Math_hypot
           {| x := 240; y := 0; vx := 0; vy := 0; phase := 0; hue := 0;
              amplitude := 1; frequency := 1 |}
           {| x := 0; y := 0; vx := 0; vy := 0; phase := 0; hue := 15;
              amplitude := 1; frequency := 1 |}).
  vm_compute. reflexivity.
Defined.

End EdgeFacts.
(** * The lines of the render loop *)

Module EdgeKeyFacts.
Import JS MikeDropViz.

(** *** Lists built by [map] with the index and flattened *)

Lemma mapi_from : forall (A B : Type) (f : A -> nat -> B) (arr : list A),
  mapi f arr = map (fun p => f (snd p) (fst p)) (combine (seq 0 (length arr)) arr).
Proof. reflexivity. Qed.

(** The blocks are sorted and every block precedes the later ones: the
    flattened list is sorted. *)
Lemma concat_indexed_sorted : forall (A B : Type) (R : B -> B -> Prop)
    (f : A -> nat -> list B) (arr : list A) (start : nat),
  (forall a i, StronglySorted R (f a i)) ->
  (forall a i a' i' b b', (i < i')%nat -> In b (f a i) -> In b' (f a' i') -> R b b') ->
  StronglySorted R
    (concat (map (fun p => f (snd p) (fst p)) (combine (seq start (length arr)) arr)))
  /\ (forall b, In b (concat (map (fun p => f (snd p) (fst p))
                                  (combine (seq start (length arr)) arr))) ->
                exists a i, (start <= i)%nat /\ In b (f a i)).
Proof.
  intros A B R f arr start Hblock Hcross. revert start.
  induction arr as [| a arr IH]; intros start.
  - cbn. split; [constructor | intros b []].
  - destruct (IH (S start)) as [Hs Hin].
    cbn [length seq combine map concat fst snd]. split.
    + assert (Hgen : forall l1, StronglySorted R l1 ->
                 (forall b b', In b l1 ->
                    In b' (concat (map (fun p => f (snd p) (fst p))
                                       (combine (seq (S start) (length arr)) arr))) -> R b b') ->
                 StronglySorted R
                   (l1 ++ concat (map (fun p => f (snd p) (fst p))
                                      (combine (seq (S start) (length arr)) arr)))).
      { induction l1 as [| b l1 IH1]; intros Hl1 Hc; [exact Hs |].
        inversion Hl1 as [| b0 l0 Hl1' Hb]; subst. cbn [app]. constructor.
        - apply IH1; [exact Hl1' |]. intros c c' Hcin Hc'. apply Hc; [right; exact Hcin | exact Hc'].
        - apply Forall_app. split; [exact Hb |]. apply Forall_forall. intros c Hcin.
          apply Hc; [left; reflexivity | exact Hcin]. }
      apply Hgen; [apply Hblock |].
      intros b b' Hb Hb'. destruct (Hin b' Hb') as (a' & i' & Hi' & Hin').
      apply (Hcross a start a' i'); [lia | exact Hb | exact Hin'].
    + intros b Hb. apply in_app_or in Hb. destruct Hb as [Hb | Hb].
      * exists a, start. split; [lia | exact Hb].
      * destruct (Hin b Hb) as (a' & i' & Hi' & Hin'). exists a', i'. split; [lia | exact Hin'].
Qed.

Lemma list_sum_cons : forall (x : nat) (l : list nat), list_sum (x :: l) = (x + list_sum l)%nat.
Proof. reflexivity. Qed.

Lemma concat_indexed_length : forall (A B : Type) (f : A -> nat -> list B) (g : nat -> nat)
    (arr : list A) (start : nat),
  (forall a i, (length (f a i) <= g i)%nat) ->
  (length (concat (map (fun p => f (snd p) (fst p)) (combine (seq start (length arr)) arr)))
   <= list_sum (map g (seq start (length arr))))%nat.
Proof.
  intros A B f g arr start Hf. revert start.
  induction arr as [| a arr IH]; intros start; [cbn; lia |].
  cbn [length seq combine map concat fst snd]. rewrite length_app, list_sum_cons.
  specialize (IH (S start)). specialize (Hf a start). lia.
Qed.

Lemma count_above : forall (i m start : nat),
  (list_sum (map (fun j => if (i <? j)%nat then 1 else 0)%nat (seq start m))
   <= Nat.min m (start + m - 1 - i))%nat.
Proof.
  intros i m. induction m as [| m IH]; intros start; [cbn; lia |].
  cbn [seq map]. rewrite list_sum_cons. specialize (IH (S start)).
  destruct (Nat.ltb_spec i start); lia.
Qed.

Lemma triangle_sum : forall (m start : nat),
  (2 * list_sum (map (fun i => start + m - 1 - i) (seq start m)) = m * (m - 1))%nat.
Proof.
  induction m as [| m IH]; intros start; [reflexivity |].
  cbn [seq map]. rewrite list_sum_cons. specialize (IH (S start)).
  replace (map (fun i => start + S m - 1 - i)%nat (seq (S start) m))
    with (map (fun i => S start + m - 1 - i)%nat (seq (S start) m))
    by (apply map_ext; intros; lia).
  replace (start + S m - 1 - start)%nat with m by lia.
  destruct m; [cbn in *; lia |].
  replace (S (S m) - 1)%nat with (S m) by lia. replace (S m - 1)%nat with m in IH by lia.
  nia.
Qed.

Section WithMath.
Variable Math_hypot : number -> number -> number.

(** The cell of the render loop for the pair [(i, j)]. *)
Local Abbreviation cell i v1 :=
  (fun (v2 : vertex) (j : nat) =>
     if Nat.ltb i j
     then match getEdgeStyle Math_hypot v1 v2 with
          | Some edgeStyle => [ (i%nat, j, edgeStyle) ]
          | None => []
          end
     else []).

Local Abbreviation before :=
  (fun e1 e2 : nat * nat * edgeStyle =>
     (fst (fst e1) < fst (fst e2))%nat
     \/ (fst (fst e1) = fst (fst e2) /\ (snd (fst e1) < snd (fst e2))%nat)).

Lemma cell_cases : forall (i : nat) (v1 v2 : vertex) (j : nat) e,
  In e (cell i v1 v2 j) -> fst (fst e) = i /\ snd (fst e) = j /\ (i < j)%nat.
Proof.
  intros i v1 v2 j e He. cbn beta in He.
  destruct (Nat.ltb_spec i j) as [Hlt | Hge]; [| destruct He].
  destruct (getEdgeStyle Math_hypot v1 v2); [| destruct He].
  destruct He as [<- | []]. cbn. auto.
Qed.

Lemma row_sorted : forall (vertices : list vertex) (i : nat) (v1 : vertex),
  StronglySorted before (concat (mapi (cell i v1) vertices))
  /\ (forall e, In e (concat (mapi (cell i v1) vertices)) ->
        fst (fst e) = i /\ (i < snd (fst e) < length vertices)%nat)
  /\ (length (concat (mapi (cell i v1) vertices)) <= length vertices - 1 - i)%nat.
Proof.
  intros vertices i v1. rewrite mapi_from.
  destruct (concat_indexed_sorted vertex _ before (cell i v1) vertices 0) as [Hs Hin].
  - intros v2 j. cbn beta. destruct (i <? j)%nat; [| constructor].
    destruct (getEdgeStyle Math_hypot v1 v2); repeat constructor.
  - intros a j a' j' b b' Hlt Hb Hb'.
    apply cell_cases in Hb, Hb'. right. lia.
  - split; [exact Hs |]. split.
    + intros e He. apply in_concat in He. destruct He as (c & Hc & He).
      apply in_map_iff in Hc. destruct Hc as ([j v2] & <- & Hp). cbn [fst snd] in He.
      apply cell_cases in He. apply in_combine_l in Hp. apply in_seq in Hp. lia.
    + pose proof (concat_indexed_length vertex _ (cell i v1)
                    (fun j => if (i <? j)%nat then 1 else 0)%nat vertices 0) as Hlen.
      pose proof (count_above i (length vertices) 0) as Hc.
      assert (Hcell : forall (a : vertex) (j : nat),
                 (length (cell i v1 a j) <= (if (i <? j)%nat then 1 else 0))%nat).
      { intros a j. cbn beta. destruct (i <? j)%nat; [| cbn; lia].
        destruct (getEdgeStyle Math_hypot v1 a); cbn; lia. }
      specialize (Hlen Hcell). lia.
Qed.

(** X16. The lines of the render loop have pairwise distinct keys
    [(i, j)], each with [i < j] below the number of vertices, and they come
    in the order of [i] and then of [j]; so [n] vertices give at most
    [n (n - 1) / 2] lines (276 for the 24 vertices). *)
Theorem rendered_edges_are_distinct_pairs : forall vertices : list vertex,
  let edges := renderEdges Math_hypot vertices in
  NoDup (map fst edges)
  /\ StronglySorted
       (fun e1 e2 : nat * nat * edgeStyle =>
          (fst (fst e1) < fst (fst e2))%nat
          \/ (fst (fst e1) = fst (fst e2) /\ (snd (fst e1) < snd (fst e2))%nat))
       edges
  /\ Forall (fun e => (fst (fst e) < snd (fst e) < length vertices)%nat) edges
  /\ (2 * length edges <= length vertices * (length vertices - 1))%nat.
Proof.
  intros vertices. cbv zeta. unfold renderEdges.
  set (row := fun (v1 : vertex) (i : nat) => concat (mapi (cell i v1) vertices)).
  change (concat (mapi _ vertices)) with (concat (mapi row vertices)).
  rewrite (mapi_from _ _ row).
  destruct (concat_indexed_sorted vertex _ before row vertices 0) as [Hs Hin].
  - intros v1 i. apply row_sorted.
  - intros a i a' i' b b' Hlt Hb Hb'.
    apply row_sorted in Hb, Hb'. left. lia.
  - assert (Hrange : Forall (fun e => (fst (fst e) < snd (fst e) < length vertices)%nat)
                       (concat (map (fun p => row (snd p) (fst p))
                                    (combine (seq 0 (length vertices)) vertices)))).
    { apply Forall_forall. intros e He. destruct (Hin e He) as (a & i & _ & Hrow).
      apply row_sorted in Hrow. lia. }
    split; [| split; [exact Hs | split; [exact Hrange |]]].
    + clear Hin Hrange. induction Hs as [| e edges Hs IH Hall]; [constructor |].
      cbn [map]. constructor; [| exact IH].
      intros Hdup. apply in_map_iff in Hdup. destruct Hdup as (e' & Heq & He').
      rewrite Forall_forall in Hall. specialize (Hall e' He'). cbn beta in Hall.
      rewrite Heq in Hall. lia.
    + pose proof (concat_indexed_length vertex _ row
                    (fun i => 0 + length vertices - 1 - i)%nat vertices 0) as Hlen.
      pose proof (triangle_sum (length vertices) 0) as Htri.
      assert (Hrow : forall (a : vertex) (i : nat),
                 (length (row a i) <= 0 + length vertices - 1 - i)%nat).
      { intros a i. pose proof (row_sorted vertices i a) as (_ & _ & Hl). subst row.
        cbn beta. lia. }
      specialize (Hlen Hrow). lia.
Qed.

End WithMath.
End EdgeKeyFacts.
(** * Properties of the component as a whole *)

Module ComponentFacts.
Import JS MikeDropViz Binary64 Binary64Facts  Binary64Order.

Ltac fields :=
  cbn [isListening audioContextRef analyzerRef modulation audioMetrics detectorState
       pendingSetups vertices animation params].

Section WithMath.
Variables Math_sin Math_cos : number -> number.
Variable Math_pow : number -> number -> number.
Variable Math_hypot : number -> number -> number.

Lemma run_snoc : forall (events : list event) (e : event) (c : component),
  run Math_sin Math_cos Math_pow (events ++ [e]) c
  = handle Math_sin Math_cos Math_pow (run Math_sin Math_cos Math_pow events c) e.
Proof. intros events e c. unfold run. rewrite fold_left_app. reflexivity. Qed.

(** An audio frame changes nothing unless the component is listening with
    an analyser; then it processes a snapshot of [frequencyBinCount] bins. *)
Lemma processAudioCallback_cases : forall (spectrum : nat -> byte) (now : Z) (c : component),
  (processAudioCallback Math_pow spectrum now c = c
   /\ (analyzerRef c = None \/ isListening c = false))
  \/ (exists analyzer,
        analyzerRef c = Some analyzer /\ isListening c = true
        /\ processAudioCallback Math_pow spectrum now c
           = let r := AudioParse.processAudioData Math_pow
                        (map spectrum (seq 0 (frequencyBinCount analyzer))) now
                        (detectorState c) in
             {| vertices := vertices c; animation := animation c; params := params c;
                modulation := processAudio (fst r);
                audioContextRef := audioContextRef c; analyzerRef := analyzerRef c;
                isListening := isListening c;
                audioMetrics := Some (fst r);
                pendingSetups := pendingSetups c;
                detectorState := snd r |}).
Proof.
  intros spectrum now c. unfold processAudioCallback.
  destruct (analyzerRef c) as [analyzer |]; [| left; auto].
  destruct (isListening c); cbn [negb]; [| left; auto].
  right. exists analyzer. auto.
Qed.

(** The outcomes of [setupAudio]: nothing but the pending call changes, or
    the audio context is set; then an analyser may be set, of FFT size 2048
    unless the setup reaches its end, where the component listens. *)
Lemma setupAudio_cases : forall (failure : option setupFailure) (c : component),
  let c' := setupAudio failure c in
  vertices c' = vertices c /\ animation c' = animation c /\ params c' = params c
  /\ modulation c' = modulation c /\ audioMetrics c' = audioMetrics c
  /\ detectorState c' = detectorState c
  /\ ((audioContextRef c' = audioContextRef c /\ analyzerRef c' = analyzerRef c
       /\ isListening c' = isListening c)
      \/ (audioContextRef c' = Some NewAudioContext
          /\ ((analyzerRef c' = analyzerRef c /\ isListening c' = isListening c)
              \/ (analyzerRef c' = Some createAnalyser /\ isListening c' = isListening c)
              \/ (analyzerRef c' = Some {| fftSize := 512 |} /\ isListening c' = true)))).
Proof.
  intros failure c. cbv zeta.
  destruct failure as [[| | | |] |]; unfold setupAudio; fields; tauto.
Qed.

(** What holds of the audio input in every state the component reaches. *)
Lemma run_audio_invariant :
  forall (events : list event) (random : nat -> number) (st0 : AudioParse.detector),
  let c := run Math_sin Math_cos Math_pow events (initialComponent Math_sin Math_cos random st0) in
  (isListening c = true ->
   audioContextRef c = Some NewAudioContext /\ analyzerRef c <> None)
  /\ (forall analyzer, analyzerRef c = Some analyzer ->
        fftSize analyzer = 512%nat \/ fftSize analyzer = 2048%nat)
  /\ (isListening c = false -> modulation c = neutralModulation)
  /\ (forall m, audioMetrics c = Some m ->
        exists (audioData : list byte) (now : Z) (st : AudioParse.detector),
          (length audioData = 256%nat \/ length audioData = 1024%nat)
          /\ m = fst (AudioParse.processAudioData Math_pow audioData now st))
  /\ (modulation c = neutralModulation
      \/ exists m, audioMetrics c = Some m /\ modulation c = processAudio m).
Proof.
  intros events random st0. cbv zeta.
  induction events as [| e events IH] using rev_ind.
  - cbn. repeat split; try discriminate; auto.
  - rewrite run_snoc.
    set (c := run Math_sin Math_cos Math_pow events _) in *.
    destruct IH as (Hlisten & Hsize & Hquiet & Hmetrics & Hmod).
    destruct e as [| spectrum now | | | failure | s value]; cbn [handle].
    + (* animation frame *)
      unfold animationFrame. fields. tauto.
    + (* audio frame *)
      destruct (processAudioCallback_cases spectrum now c)
        as [[-> _] | (analyzer & Han & Hl & ->)]; [tauto |].
      cbv zeta. fields.
      split; [exact Hlisten |]. split; [exact Hsize |].
      split; [intros Hf; congruence |]. split.
      * intros m Hm. injection Hm as <-.
        exists (map spectrum (seq 0 (frequencyBinCount analyzer))), now, (detectorState c).
        split; [| reflexivity]. rewrite length_map, length_seq. unfold frequencyBinCount.
        destruct (Hsize analyzer Han) as [-> | ->]; [left | right]; reflexivity.
      * right. eexists. split; reflexivity.
    + (* effect button *)
      unfold togglePlaying. fields. tauto.
    + (* audio button *)
      unfold toggleAudio. destruct (isListening c) eqn:Hl; cbn [negb]; fields.
      * split; [discriminate |]. split; [exact Hsize |]. split; [reflexivity |].
        split; [exact Hmetrics | left; reflexivity].
      * specialize (Hquiet eq_refl).
        split; [discriminate |]. split; [exact Hsize |]. split; [intros _; exact Hquiet |].
        split; [exact Hmetrics | exact Hmod].
    + (* a setup settles *)
      destruct (pendingSetups c); [tauto |].
      destruct (setupAudio_cases failure c)
        as (_ & _ & _ & Em & Ea & _ & Hcases). cbv zeta in Hcases.
      rewrite Em, Ea.
      assert (H512 : forall analyzer, Some {| fftSize := 512 |} = Some analyzer ->
                fftSize analyzer = 512%nat \/ fftSize analyzer = 2048%nat)
        by (intros analyzer [= <-]; left; reflexivity).
      assert (H2048 : forall analyzer, Some createAnalyser = Some analyzer ->
                fftSize analyzer = 512%nat \/ fftSize analyzer = 2048%nat)
        by (intros analyzer [= <-]; right; reflexivity).
      destruct Hcases as [(-> & -> & ->) | (-> & [(-> & ->) | [(-> & ->) | (-> & ->)]])].
      * tauto.
      * split; [intros Hl; split; [reflexivity | apply (Hlisten Hl)] |]. tauto.
      * split; [intros _; split; [reflexivity | discriminate] |].
        split; [exact H2048 |]. tauto.
      * split; [intros _; split; [reflexivity | discriminate] |].
        split; [exact H512 |]. split; [discriminate |]. tauto.
    + (* slider *)
      unfold onSliderChange. fields. tauto.
Qed.

(** X17. In every state that the component reaches from its mount by
    animation frames, audio frames, clicks, moves of the sliders and
    settlings of the audio setups it has started, with any outcome: while
    it listens, an audio context and an analyser are in place; an analyser
    in place has the FFT size 512, or 2048 when a setup failed after it
    created the analyser; while the component does not listen, the audio
    modulation is neutral; and every snapshot it has processed had 256
    bins, or 1024.  The state of the beat detector at the mount is
    arbitrary. *)
Theorem audio_input_invariant :
  forall (events : list event) (random : nat -> number) (st0 : AudioParse.detector),
  let c := run Math_sin Math_cos Math_pow events (initialComponent Math_sin Math_cos random st0) in
  (isListening c = true ->
   audioContextRef c = Some NewAudioContext /\ analyzerRef c <> None)
  /\ (forall analyzer, analyzerRef c = Some analyzer ->
        fftSize analyzer = 512%nat \/ fftSize analyzer = 2048%nat)
  /\ (isListening c = false -> modulation c = neutralModulation)
  /\ (forall m, audioMetrics c = Some m ->
        length (AudioParse.waveform m) = 256%nat
        \/ length (AudioParse.waveform m) = 1024%nat).
Proof.
  intros events random st0. cbv zeta.
  destruct (run_audio_invariant events random st0)
    as (Hlisten & Hsize & Hquiet & Hmetrics & _).
  split; [exact Hlisten |]. split; [exact Hsize |]. split; [exact Hquiet |].
  intros m Hm. destruct (Hmetrics m Hm) as (audioData & now & st & Hlen & ->).
  cbn [AudioParse.processAudioData fst AudioParse.waveform]. rewrite length_map. exact Hlen.
Qed.

(** X21. When no audio setup fails after it has created its analyser
    (at the creation of the stream source or at the connection), an
    analyser in place has the FFT size 512 and every snapshot that the
    component has processed had 256 bins, the bins 0 to 255 that the three
    bands cover. *)
Theorem snapshots_have_256_bins :
  forall (events : list event) (random : nat -> number) (st0 : AudioParse.detector),
  Forall (fun e => match e with
                   | SetupSettles (Some CreateMediaStreamSource)
                   | SetupSettles (Some Connect) => False
                   | _ => True
                   end) events ->
  let c := run Math_sin Math_cos Math_pow events (initialComponent Math_sin Math_cos random st0) in
  (forall analyzer, analyzerRef c = Some analyzer -> fftSize analyzer = 512%nat)
  /\ (forall m, audioMetrics c = Some m -> length (AudioParse.waveform m) = 256%nat).
Proof.
  intros events random st0. cbv zeta.
  induction events as [| e events IH] using rev_ind; intros Hvalid.
  - cbn. split; discriminate.
  - apply Forall_app in Hvalid. destruct Hvalid as [Hevents He].
    inversion He as [| e0 l0 Hev _]; subst. clear He.
    destruct (IH Hevents) as (Hsize & Hmetrics). rewrite run_snoc.
    set (c := run Math_sin Math_cos Math_pow events _) in *.
    destruct e as [| spectrum now | | | failure | s value]; cbn [handle].
    + unfold animationFrame. fields. auto.
    + destruct (processAudioCallback_cases spectrum now c)
        as [[-> _] | (analyzer & Han & _ & ->)]; [auto |].
      cbv zeta. fields. split; [exact Hsize |].
      intros m [= <-]. cbn [AudioParse.processAudioData fst AudioParse.waveform].
      rewrite !length_map, length_seq. unfold frequencyBinCount.
      rewrite (Hsize analyzer Han). reflexivity.
    + unfold togglePlaying. fields. auto.
    + unfold toggleAudio. destruct (isListening c); cbn [negb]; fields; auto.
    + destruct (pendingSetups c); [auto |].
      destruct failure as [[| | | |] |]; try contradiction; unfold setupAudio; fields;
        (split; [first [exact Hsize | intros analyzer [= <-]; reflexivity] | exact Hmetrics]).
    + unfold onSliderChange. fields. auto.
Qed.

(** X18. In every state that the component reaches, the metrics it shows
    (amplitude and band energies of the last snapshot processed) are
    between 0 and 1, so never NaN; the speed factor of the audio modulation
    is 1 or 1.15 and its size factor is between 1 and 1.15. *)
Theorem displayed_metrics_in_range :
  forall (events : list event) (random : nat -> number) (st0 : AudioParse.detector),
  let c := run Math_sin Math_cos Math_pow events (initialComponent Math_sin Math_cos random st0) in
  (forall m, audioMetrics c = Some m ->
     between 0 1 (AudioParse.amplitude (AudioParse.metricsOf m))
     /\ between 0 1 (AudioParse.lowFreq (AudioParse.metricsOf m))
     /\ between 0 1 (AudioParse.midFreq (AudioParse.metricsOf m))
     /\ between 0 1 (AudioParse.highFreq (AudioParse.metricsOf m)))
  /\ (speedMod (modulation c) = 1 \/ speedMod (modulation c) = 1.15)
  /\ between 1 1.15 (sizeMod (modulation c)).
Proof.
  intros events random st0. cbv zeta.
  destruct (run_audio_invariant events random st0) as (_ & _ & _ & Hmetrics & Hmod).
  set (c := run Math_sin Math_cos Math_pow events _) in *.
  assert (H1024 : (Z.of_nat 1024 <= 2 ^ 53)%Z) by (vm_compute; discriminate).
  split.
  - intros m Hm. destruct (Hmetrics m Hm) as (audioData & now & st & Hlen & ->).
    destruct (SnapshotFacts.metrics_ranges Math_pow audioData now st
                ltac:(lia) ltac:(lia)) as (_ & _ & Ha & Hl & Hmi & Hh).
    auto.
  - destruct Hmod as [-> | (m & Hm & ->)].
    + split; [left; reflexivity |]. split; reflexivity.
    + destruct (Hmetrics m Hm) as (audioData & now & st & Hlen & ->).
      destruct (SnapshotFacts.visual_ranges Math_pow audioData now st ltac:(lia))
        as (_ & _ & _ & _ & Hspeed & Hsize).
      split; [| exact Hsize]. rewrite Hspeed.
      destruct (AudioParse.beatDetected _); [right | left]; reflexivity.
Qed.

(** *** The animation *)

Lemma of_nat_succ : forall n : nat, (Z.of_nat n + 1 <= 2 ^ 53)%Z ->
  of_nat n + 1 = of_nat (S n).
Proof.
  intros n Hn. unfold of_nat.
  destruct (of_uint63_val (Z.of_nat n) ltac:(zlia)) as [Hf Hv].
  destruct (of_uint63_val (Z.of_nat (S n)) ltac:(zlia)) as [Hf' Hv'].
  set (a := of_uint63 (Uint63.of_Z (Z.of_nat n))) in *.
  set (b := of_uint63 (Uint63.of_Z (Z.of_nat (S n)))) in *.
  assert (Hf1 : finite 1) by (unfold finite; vm_compute; exact I).
  assert (Hv1 : val 1 = (2 ^ 1074)%Z) by (unfold val; vm_compute; reflexivity).
  pose proof (pow2_gt0 1074 ltac:(zlia)) as H1074.
  pose proof (add_approx a 1 Hf Hf1) as Ha.
  pose proof (approx_exact _ 1 _ (Prim2SF b) ltac:(zlia) Ha (Prim2SF_valid b) Hf') as Hex.
  fold (val (a + 1)) in Hex. fold (val b) in Hex.
  assert (Heq : val (a + 1) = val b) by (apply Hex; rewrite Hv, Hv', Hv1; zlia).
  apply val_inj; [| exact Hf' | exact Heq | rewrite Heq, Hv'; znia].
  apply (finite_of_approx _ _ _ Ha). rewrite Heq. apply (val_bounds_of_finite b Hf').
Qed.

(** X19. In every state that the component reaches, the frame counter is
    the number of animation frames so far (exactly, up to 2^53 of them),
    whether the effect is playing or paused; the effect is playing exactly
    after an odd number of clicks on its button; and there are 24
    vertices. *)
Theorem frame_counts_animation_frames :
  forall (events : list event) (random : nat -> number) (st0 : AudioParse.detector),
  let frames := length (filter (fun e => match e with AnimationFrame => true | _ => false end)
                               events) in
  let clicks := length (filter (fun e => match e with ClickEffect => true | _ => false end)
                               events) in
  (Z.of_nat frames <= 2 ^ 53)%Z ->
  let c := run Math_sin Math_cos Math_pow events (initialComponent Math_sin Math_cos random st0) in
  frame (animation c) = of_nat frames
  /\ isPlaying (animation c) = Nat.odd clicks
  /\ length (vertices c) = 24%nat.
Proof.
  intros events random st0. cbv zeta.
  induction events as [| e events IH] using rev_ind; intros Hframes.
  - cbn. repeat split.
  - rewrite run_snoc. rewrite !filter_app, !length_app in *.
    set (c := run Math_sin Math_cos Math_pow events _) in *.
    destruct e as [| spectrum now | | | failure | s value]; cbn [filter length handle] in *.
    + destruct (IH ltac:(lia)) as (Hf & Hp & Hv).
      unfold animationFrame. fields. cbn [nextAnimationState frame isPlaying].
      rewrite Hf, Hp, Nat.add_0_r.
      split; [| split; [reflexivity |]].
      * rewrite Nat.add_1_r. apply of_nat_succ. lia.
      * unfold updateVertices. rewrite MotionFacts.length_mapi. exact Hv.
    + destruct (IH ltac:(lia)) as (Hf & Hp & Hv). rewrite !Nat.add_0_r.
      destruct (processAudioCallback_cases spectrum now c)
        as [[-> _] | (analyzer & _ & _ & ->)]; [auto |].
      cbv zeta. fields. auto.
    + destruct (IH ltac:(lia)) as (Hf & Hp & Hv). rewrite !Nat.add_0_r.
      unfold togglePlaying. fields. cbn [frame isPlaying].
      rewrite Hf, Hp, Nat.add_1_r, Nat.odd_succ, <- Nat.negb_odd. auto.
    + destruct (IH ltac:(lia)) as (Hf & Hp & Hv). rewrite !Nat.add_0_r.
      unfold toggleAudio. destruct (isListening c); cbn [negb]; fields; auto.
    + destruct (IH ltac:(lia)) as (Hf & Hp & Hv). rewrite !Nat.add_0_r.
      destruct (pendingSetups c); [auto |].
      destruct (setupAudio_cases failure c) as (-> & -> & _). auto.
    + destruct (IH ltac:(lia)) as (Hf & Hp & Hv). rewrite !Nat.add_0_r.
      unfold onSliderChange. fields. auto.
Qed.

(** *** What is drawn *)

Lemma run_hue_invariant :
  forall (events : list event) (random : nat -> number) (st0 : AudioParse.detector),
  Forall (fun e => match e with
                   | Slide ColorSpeed value =>
                       (0 <=? value) = true /\ (value <? infinity) = true
                   | _ => True
                   end) events ->
  let c := run Math_sin Math_cos Math_pow events (initialComponent Math_sin Math_cos random st0) in
  ((0 <=? colorSpeed (params c)) = true /\ (colorSpeed (params c) <? infinity) = true)
  /\ Forall (fun v => (0 <=? hue v) = true /\ (hue v <? 360) = true) (vertices c).
Proof.
  intros events random st0. cbv zeta.
  induction events as [| e events IH] using rev_ind; intros Hvalid.
  - cbn [run fold_left initialComponent params vertices initialParameters colorSpeed].
    split; [split; reflexivity | apply HueFacts.initialVertices_hue_range].
  - apply Forall_app in Hvalid. destruct Hvalid as [Hevents He].
    inversion He as [| e0 l0 Hev _]; subst. clear He.
    destruct (IH Hevents) as (Hspeed & Hhue). rewrite run_snoc.
    set (c := run Math_sin Math_cos Math_pow events _) in *.
    destruct e as [| spectrum now | | | failure | s value]; cbn [handle].
    + unfold animationFrame. fields. split; [exact Hspeed |].
      apply HueFacts.updateVertices_hue_range; assumption.
    + destruct (processAudioCallback_cases spectrum now c)
        as [[-> _] | (analyzer & _ & _ & ->)]; [auto |].
      cbv zeta. fields. auto.
    + unfold togglePlaying. fields. auto.
    + unfold toggleAudio. destruct (isListening c); cbn [negb]; fields; auto.
    + destruct (pendingSetups c); [auto |].
      destruct (setupAudio_cases failure c) as (-> & _ & -> & _). auto.
    + unfold onSliderChange. fields. split; [| exact Hhue].
      destruct s; cbn [setParameter colorSpeed]; assumption.
Qed.

(** X20. In every state that the component reaches when the colour speed
    slider only delivers finite numbers that are not negative, every vertex
    has a hue of at least 0 and below 360, and every line drawn has a hue
    of at least 0 and below 360, an opacity above 0.1 and at most 1 and a
    stroke width of at least 1 and at most 4. *)
Theorem rendered_colours_are_well_formed :
  forall (events : list event) (random : nat -> number) (st0 : AudioParse.detector),
  Forall (fun e => match e with
                   | Slide ColorSpeed value =>
                       (0 <=? value) = true /\ (value <? infinity) = true
                   | _ => True
                   end) events ->
  let c := run Math_sin Math_cos Math_pow events (initialComponent Math_sin Math_cos random st0) in
  Forall (fun v => (0 <=? hue v) = true /\ (hue v <? 360) = true) (vertices c)
  /\ Forall (fun e =>
               let style := snd e in
               ((0 <=? strokeHue style) = true /\ (strokeHue style <? 360) = true)
               /\ ((0.1 <? strokeOpacity style) = true /\ (strokeOpacity style <=? 1) = true)
               /\ ((1 <=? strokeWidth style) = true /\ (strokeWidth style <=? 4) = true))
            (renderEdges Math_hypot (vertices c)).
Proof.
  intros events random st0 Hvalid. cbv zeta.
  destruct (run_hue_invariant events random st0 Hvalid) as (_ & Hhue).
  split; [exact Hhue |].
  apply Forall_forall. intros [[i j] style] Hin. cbn [snd].
  apply MotionFacts.renderEdges_spec in Hin.
  destruct Hin as (v1 & v2 & _ & Hv1 & Hv2 & Hstyle).
  rewrite Forall_forall in Hhue.
  destruct (Hhue v1 (nth_error_In _ _ Hv1)) as [H10 H11].
  destruct (Hhue v2 (nth_error_In _ _ Hv2)) as [H20 H21].
  destruct (EdgeFacts.getEdgeStyle_ranges Math_hypot v1 v2 style Hstyle)
    as (Hh & Ho & Hgt & Hw & _).
  split; [rewrite Hh; apply EdgeFacts.strokeHue_range; assumption |].
  split; [split; [exact Hgt | apply Ho] | exact Hw].
Qed.

End WithMath.

(** The audio is started, the setup succeeds, and one audio frame is
    processed. *)
Lemma snapshots_have_256_bins_witness :
  let events := [ClickAudio; SetupSettles None; AudioFrame (fun _ => x80) 1000] in
  let c := run ExampleMath.Math_sin ExampleMath.Math_cos ExampleMath.Math_pow events
               (initialComponent ExampleMath.Math_sin ExampleMath.Math_cos (fun _ => 0.5)
                  AudioParse.initialDetector) in
  (forall analyzer, analyzerRef c = Some analyzer -> fftSize analyzer = 512%nat)
  /\ (forall m, audioMetrics c = Some m -> length (AudioParse.waveform m) = 256%nat).
Proof.
  cbv zeta.
  apply (snapshots_have_256_bins ExampleMath.Math_sin ExampleMath.Math_cos
           ExampleMath.Math_pow
           [ClickAudio; SetupSettles None; AudioFrame (fun _ => x80) 1000]
           (fun _ => 0.5) AudioParse.initialDetector).
  repeat constructor.
Defined.

(** Three animation frames among three clicks and a move of a slider. *)
Lemma frame_counts_animation_frames_witness :
  let events := [AnimationFrame; ClickEffect; AnimationFrame; Slide FlowSpeed 2;
                 AnimationFrame; ClickEffect; ClickEffect] in
  let c := run ExampleMath.Math_sin ExampleMath.Math_cos ExampleMath.Math_pow events
               (initialComponent ExampleMath.Math_sin ExampleMath.Math_cos (fun _ => 0.5)
                  AudioParse.initialDetector) in
  frame (animation c) = of_nat 3
  /\ isPlaying (animation c) = Nat.odd 3
  /\ length (vertices c) = 24%nat.
Proof.
  cbv zeta.
  apply (frame_counts_animation_frames ExampleMath.Math_sin ExampleMath.Math_cos
           ExampleMath.Math_pow
           [AnimationFrame; ClickEffect; AnimationFrame; Slide FlowSpeed 2;
            AnimationFrame; ClickEffect; ClickEffect]
           (fun _ => 0.5) AudioParse.initialDetector).
  vm_compute. discriminate.
Defined.

(** The colour speed set to 0.1, then two animation frames. *)
Lemma rendered_colours_are_well_formed_witness :
  let events := [Slide ColorSpeed 0.1; AnimationFrame; ClickEffect; AnimationFrame] in
  let c := run ExampleMath.Math_sin ExampleMath.Math_cos ExampleMath.Math_pow events
               (initialComponent ExampleMath.Math_sin ExampleMath.Math_cos (fun _ => 0.5)
                  AudioParse.initialDetector) in
  Forall (fun v => (0 <=? hue v) = true /\ (hue v <? 360) = true) (vertices c)
  /\ Forall (fun e =>
               let style := snd e in
               ((0 <=? strokeHue style) = true /\ (strokeHue style <? 360) = true)
               /\ ((0.1 <? strokeOpacity style) = true /\ (strokeOpacity style <=? 1) = true)
               /\ ((1 <=? strokeWidth style) = true /\ (strokeWidth style <=? 4) = true))
            (renderEdges ExampleMath.Math_hypot (vertices c)).
Proof.
  cbv zeta.
  apply (rendered_colours_are_well_formed ExampleMath.Math_sin ExampleMath.Math_cos
           ExampleMath.Math_pow ExampleMath.Math_hypot
           [Slide ColorSpeed 0.1; AnimationFrame; ClickEffect; AnimationFrame]
           (fun _ => 0.5) AudioParse.initialDetector).
  repeat constructor.
Defined.

End ComponentFacts.
